(** * Token lifecycle, auth-state recomputation and sign-out of okta-auth-js

    A shallow embedding of
      - lib/TokenManager.ts      (token store, expiration timers, renewal),
      - lib/AuthStateManager.ts  (cancelable auth-state recomputation),
      - lib/browser/browser.ts   (closeSession, revokeAccessToken, signOut),
    followed by the properties proved about them.

    The program is single threaded: every function below is one run of
    synchronous JavaScript, written as a function from the SDK state to the
    SDK state.  Asynchronous continuations ([then] callbacks, timers) are
    separate functions that the event loop runs later; the value a
    collaborator's promise settles with is an argument of the continuation.

    Calls that leave the SDK (storage adapter, identity provider, navigation,
    event emitter) are appended to one [trace], in program order. *)

From Stdlib Require Import ZArith String Ascii List Bool Lia DecimalString.
From stdpp Require Import gmap strings.
Import ListNotations.

Local Open Scope string_scope.
Local Open Scope list_scope.
Local Open Scope Z_scope.

Set Warnings "-register-all".

(** ** JavaScript values *)

(** Numbers are the integer-valued ones (epoch seconds, counters), taken
    exactly; [None] in the numeric domain [option Z] stands for NaN. *)
Inductive value : Type :=
| VUndefined
| VNull
| VBool (b : bool)
| VNum (n : Z)
| VStr (s : string)
| VArr (items : list value)
| VObj (fields : list (string * value)).

(** ToBoolean: [!!v]. *)
Definition truthy (v : value) : bool :=
  match v with
  | VUndefined | VNull => false
  | VBool b => b
  | VNum n => negb (n =? 0)
  | VStr s => negb (String.eqb s "")
  | VArr _ | VObj _ => true
  end.

Fixpoint assoc (k : string) (fs : list (string * value)) : value :=
  match fs with
  | [] => VUndefined
  | (k', v) :: rest => if String.eqb k k' then v else assoc k rest
  end.

(** Property read [v.k] on a value that is not null or undefined; the own
    properties of an object are its fields, other values have none of the
    names read by this program.  On [null] and [undefined] the read throws a
    TypeError: the callers below that can be handed one of the two
    ([setExpireEventTimeoutAll]) test for it with [is_nullish] before they
    read. *)
Definition get_prop (v : value) (k : string) : value :=
  match v with
  | VObj fs => assoc k fs
  | _ => VUndefined
  end.

Definition is_nullish (v : value) : bool :=
  match v with
  | VUndefined | VNull => true
  | _ => false
  end.

(** [v === 0]. *)
Definition is_zero (v : value) : bool :=
  match v with
  | VNum n => n =? 0
  | _ => false
  end.

Definition num_sub (a b : option Z) : option Z :=
  match a, b with
  | Some x, Some y => Some (x - y)
  | _, _ => None
  end.

(** [a <= b]: false as soon as one side is NaN. *)
Definition num_le (a b : option Z) : bool :=
  match a, b with
  | Some x, Some y => x <=? y
  | _, _ => false
  end.

(** [Math.max(a, 0) * 1000], then the timer's coercion of NaN to 0. *)
Definition timeout_delay (a : option Z) : Z :=
  match a with
  | Some x => Z.max x 0 * 1000
  | None => 0
  end.

Definition join_with (sep : string) (parts : list string) : string :=
  match parts with
  | [] => ""
  | p :: ps => fold_left (fun acc q => acc +:+ sep +:+ q) ps p
  end.

(** ToString, as applied by [encodeURIComponent] and string concatenation. *)
Fixpoint to_string (v : value) : string :=
  match v with
  | VUndefined => "undefined"
  | VNull => "null"
  | VBool b => if b then "true" else "false"
  | VNum n => NilZero.string_of_int (Z.to_int n)
  | VStr s => s
  | VArr items =>
      join_with ","
        (List.map (fun x => match x with
                            | VUndefined | VNull => ""
                            | _ => to_string x
                            end) items)
  | VObj _ => "[object Object]"
  end.

(** ** ToNumber

    A string is read as the numeric literal it spells, after its white space
    is trimmed: the empty string is 0; a decimal literal may carry a sign, a
    fraction and an exponent; a literal in base 16, 8 or 2 carries its
    prefix and no sign.  Anything else is NaN.  A literal that spells no
    integer ([10.5], [Infinity]) has no value among the numbers above and
    is left at [None] as well. *)

(** StrWhiteSpaceChar, in UTF-8: TAB, LF, VT, FF, CR, SP, U+00A0, U+1680,
    U+2000 to U+200A, U+2028, U+2029, U+202F, U+205F, U+3000, U+FEFF. *)
Definition WHITE_SPACE : list (list ascii) :=
  ([["009"]; ["010"]; ["011"]; ["012"]; ["013"]; [" "];
    ["194"; "160"]; ["225"; "154"; "128"];
    ["226"; "128"; "168"]; ["226"; "128"; "169"]; ["226"; "128"; "175"];
    ["226"; "129"; "159"]; ["227"; "128"; "128"]; ["239"; "187"; "191"]]
   ++ List.map (fun n => ["226"; "128"; ascii_of_nat n])
        (seq 128 11))%char.

Fixpoint strip_prefix (p cs : list ascii) : option (list ascii) :=
  match p, cs with
  | [], _ => Some cs
  | a :: p', c :: cs' => if Ascii.eqb a c then strip_prefix p' cs' else None
  | _ :: _, [] => None
  end.

(** [cs] without the first of [ps] that it starts with. *)
Fixpoint strip_one (ps : list (list ascii)) (cs : list ascii)
    : option (list ascii) :=
  match ps with
  | [] => None
  | p :: ps' =>
      match strip_prefix p cs with
      | Some rest => Some rest
      | None => strip_one ps' cs
      end
  end.

Fixpoint drop_leading (fuel : nat) (ps : list (list ascii)) (cs : list ascii)
    : list ascii :=
  match fuel with
  | O => cs
  | S fuel' =>
      match strip_one ps cs with
      | Some rest => drop_leading fuel' ps rest
      | None => cs
      end
  end.

Definition trim (cs : list ascii) : list ascii :=
  let front := drop_leading (length cs) WHITE_SPACE cs in
  rev (drop_leading (length front) (List.map (@rev ascii) WHITE_SPACE)
         (rev front)).

Definition digit_value (base : Z) (c : ascii) : option Z :=
  let n := Z.of_nat (nat_of_ascii c) in
  let d :=
    if (48 <=? n) && (n <=? 57) then Some (n - 48)          (* 0-9 *)
    else if (97 <=? n) && (n <=? 102) then Some (n - 87)    (* a-f *)
    else if (65 <=? n) && (n <=? 70) then Some (n - 55)     (* A-F *)
    else None in
  match d with
  | Some v => if v <? base then Some v else None
  | None => None
  end.

(** The digits [cs] starts with, and what follows them. *)
Fixpoint span_digits (base : Z) (cs : list ascii) : list Z * list ascii :=
  match cs with
  | [] => ([], [])
  | c :: rest =>
      match digit_value base c with
      | Some d => let '(ds, rest') := span_digits base rest in (d :: ds, rest')
      | None => ([], cs)
      end
  end.

Definition digits_value (base : Z) (ds : list Z) : Z :=
  fold_left (fun acc d => acc * base + d) ds 0.

Definition is_nil {A : Type} (l : list A) : bool :=
  match l with
  | [] => true
  | _ => false
  end.

(** The prefix of a NonDecimalIntegerLiteral: its base and what follows. *)
Definition non_decimal_prefix (cs : list ascii) : option (Z * list ascii) :=
  match cs with
  | "0"%char :: c :: rest =>
      if Ascii.eqb c "x" || Ascii.eqb c "X" then Some (16, rest)
      else if Ascii.eqb c "o" || Ascii.eqb c "O" then Some (8, rest)
      else if Ascii.eqb c "b" || Ascii.eqb c "B" then Some (2, rest)
      else None
  | _ => None
  end.

(** ExponentPart, or nothing. *)
Definition exponent_part (cs : list ascii) : option Z :=
  match cs with
  | [] => Some 0
  | c :: rest =>
      if Ascii.eqb c "e" || Ascii.eqb c "E" then
        let '(negative, rest) :=
          match rest with
          | "-"%char :: r => (true, r)
          | "+"%char :: r => (false, r)
          | _ => (false, rest)
          end in
        let '(ds, rest) := span_digits 10 rest in
        if is_nil ds || negb (is_nil rest) then None
        else Some (if negative then - digits_value 10 ds
                   else digits_value 10 ds)
      else None
  end.

(** StrUnsignedDecimalLiteral: digits, a fraction, an exponent. *)
Definition unsigned_decimal (cs : list ascii) : option Z :=
  let '(int_ds, rest) := span_digits 10 cs in
  let '(frac_ds, rest) :=
    match rest with
    | "."%char :: r => span_digits 10 r
    | _ => ([], rest)
    end in
  if is_nil int_ds && is_nil frac_ds then None
  else
    match exponent_part rest with
    | None => None
    | Some e =>
        let m := digits_value 10 (int_ds ++ frac_ds) in
        let scale := e - Z.of_nat (length frac_ds) in
        if 0 <=? scale then Some (m * 10 ^ scale)
        else if m mod 10 ^ (- scale) =? 0 then Some (m / 10 ^ (- scale))
        else None
    end.

(** StringToNumber. *)
Definition string_to_number (s : string) : option Z :=
  let cs := trim (list_ascii_of_string s) in
  match cs with
  | [] => Some 0
  | _ =>
      match non_decimal_prefix cs with
      | Some (base, rest) =>
          let '(ds, rest) := span_digits base rest in
          if is_nil ds || negb (is_nil rest) then None
          else Some (digits_value base ds)
      | None =>
          match cs with
          | "-"%char :: rest => option_map Z.opp (unsigned_decimal rest)
          | "+"%char :: rest => unsigned_decimal rest
          | _ => unsigned_decimal cs
          end
      end
  end.

(** ToNumber: an array goes through its string, a plain object through
    ["[object Object]"]. *)
Definition to_number (v : value) : option Z :=
  match v with
  | VUndefined => None
  | VNull => Some 0
  | VBool b => Some (if b then 1 else 0)
  | VNum n => Some n
  | VStr s => string_to_number s
  | VArr _ => string_to_number (to_string v)
  | VObj _ => None
  end.

(** ** encodeURIComponent

    Strings are sequences of UTF-8 bytes, so the percent-encoding works byte
    by byte: the unreserved marks, letters and digits stay, every other byte
    becomes [%XX] in upper-case hexadecimal. *)

Definition hex_digit (n : nat) : ascii :=
  nth n
    ["0"; "1"; "2"; "3"; "4"; "5"; "6"; "7";
     "8"; "9"; "A"; "B"; "C"; "D"; "E"; "F"]%char "0"%char.

Definition is_unreserved (c : ascii) : bool :=
  let n := nat_of_ascii c in
  ((65 <=? n) && (n <=? 90))%nat       (* A-Z *)
  || ((97 <=? n) && (n <=? 122))%nat   (* a-z *)
  || ((48 <=? n) && (n <=? 57))%nat    (* 0-9 *)
  || existsb (Ascii.eqb c)
       ["-"; "_"; "."; "!"; "~"; "*"; "'"; "("; ")"]%char.

Fixpoint encodeURIComponent (s : string) : string :=
  match s with
  | EmptyString => EmptyString
  | String c rest =>
      if is_unreserved c then String c (encodeURIComponent rest)
      else
        let n := nat_of_ascii c in
        String "%"%char
          (String (hex_digit (n / 16)%nat)
             (String (hex_digit (n mod 16)%nat) (encodeURIComponent rest)))
  end.

(** ** Errors, events, effects *)

(** An error object: [name], the provider's [errorCode], and the two fields
    [renew] attaches to a failure before it emits it. *)
Record error : Type := {
  err_name : string;
  err_errorCode : option string;
  err_message : string;
  err_tokenKey : option string;
  err_accessToken : option bool;
}.

(** Modelled from the spec: the class AuthSdkError (lib/errors) is not part
    of the sources.  It is the "validation error (configuration misuse)": an
    error object with that name, which is what [renew] tests, and the given
    message. *)
Definition AuthSdkError (msg : string) : error :=
  {| err_name := "AuthSdkError"; err_errorCode := None;
     err_message := msg; err_tokenKey := None; err_accessToken := None |}.

(** The auth state snapshot (AuthStateManager.ts, DEFAULT_AUTH_STATE). *)
Record AuthState : Type := {
  isPending : bool;
  isAuthenticated : bool;
  idToken : value;
  accessToken : value;
}.

(** A snapshot object on the heap: its identity and its fields.  Two objects
    with the same fields and different [ref] are copies of one another. *)
Record obj : Type := { ref : nat; fields_of : AuthState }.

Inductive event : Type :=
| Added (key : string) (token : value)
| Removed (key : string)
| Renewed (key : string) (newToken oldToken : value)
| Expired (key : string) (token : value)
| Error (e : error)
| AuthStateChange (payload : obj).

Inductive effect : Type :=
| GetStorage                         (* storage.getStorage() *)
| SetStorage                         (* storage.setStorage(tokenStorage) *)
| ClearStorage                       (* storage.clearStorage() *)
| TokenRenew (token : value)         (* sdk.token.renew(token) *)
| TokenRevoke (token : value)        (* sdk.token.revoke(token) *)
| SessionClose                       (* sdk.session.close() *)
| IsAuthenticatedCall                (* options.isAuthenticated(sdk) *)
| LocationAssign (url : string)      (* window.location.assign(url) *)
| LocationReload                     (* window.location.reload() *)
| Emit (e : event).                  (* emitter.emit(...) *)

(** What a promise settles with. *)
Inductive outcome : Type :=
| Fulfilled (v : value)
| Failed (e : error).

(** ** Configuration *)

Record Options : Type := {
  autoRenew : bool;                         (* tokenManager.autoRenew *)
  expireEarlySeconds : Z;                   (* tokenManager.expireEarlySeconds *)
  isAuthenticatedOption : bool;             (* is options.isAuthenticated set *)
  postLogoutRedirectUriOption : option string;
  logoutUrl : string;                       (* getOAuthUrls(sdk).logoutUrl *)
}.

Record Window : Type := {
  location_origin : string;
  location_href : string;
}.

(** Modelled from the spec: lib/constants is not part of the sources; these
    are "the two well-known keys for id/access tokens". *)
Definition ACCESS_TOKEN_STORAGE_KEY : string := "accessToken".
Definition ID_TOKEN_STORAGE_KEY : string := "idToken".

Definition MAX_PROMISE_CANCEL_TIMES : nat := 10.

(** ** State *)

(** A callback scheduled with [setTimeout] by [setExpireEventTimeout]. *)
Record Timer : Type := {
  timer_delay : Z;       (* milliseconds *)
  timer_key : string;
  timer_token : value;
}.

(** The closure of the [then/catch/finally] chain of one renewal. *)
Record Renewal : Type := {
  renewal_key : string;
  renewal_token : value;
}.

(** Where one auth-state recomputation (one PCancelable) stands.

    The executor (AuthStateManager.ts lines 76-118) registers its [onCancel]
    handler and then calls [this._sdk.tokenManager._getTokens()] (line 84).
    TokenManager.ts gives its instances [add], [get], [remove], [clear],
    [renew], [on], [off] and [hasExpired] (lines 281-288) and no
    [_getTokens]: the call throws a TypeError, which rejects the promise
    under construction before any callback is attached.  Its [_isPending]
    flag is not reset by that, so [cancel()] still treats it as in flight.
    This is [Threw], the stage every recomputation of the program is in.

    [AwaitTokens], [AwaitAuth] and [Done] are the stages the callbacks of
    lines 85-117 take a recomputation through once the tokens were read. *)
Inductive stage : Type :=
| AwaitTokens (accessToken idToken : value)   (* the tokens are being read *)
| AwaitAuth (accessToken idToken : value) (default : option bool)
| Done
| Threw.

Record Recompute : Type := {
  rc_stage : stage;
  rc_isCanceled : bool;
}.

(** The token manager: the token store behind the storage adapter,
    [tokenMgmtRef.expireTimeouts], [tokenMgmtRef.renewPromise], the clock,
    the host's timer queue and the promises created by [renew].

    [expireTimeouts] and [renewPromise] are plain objects ([{}], lines
    277-278); the maps below hold their own properties.  What the two inherit
    from [Object.prototype] is accounted for where they are read and
    assigned ([inherited], [assign]).  Timer handles are numbers, as in a
    browser. *)
Record TokenMgr : Type := {
  storage : gmap string value;
  expireTimeouts : gmap string nat;
  renewPromise : gmap string nat;
  clock_now : Z;
  timers : gmap nat Timer;
  promises_settled : gmap nat outcome;   (* absent: still pending *)
  renewals : gmap nat Renewal;
  next_handle : nat;
}.

(** The auth state manager: [_authState], [_pending] and the PCancelables
    it created. *)
Record AuthMgr : Type := {
  authState : obj;
  updateAuthStatePromise : option nat;
  canceledTimes : nat;
  recomputes : gmap nat Recompute;
  next_recompute : nat;
  next_ref : nat;
}.

Record Sdk : Type := {
  tm : TokenMgr;
  asm : AuthMgr;
  trace : list effect;
}.

Definition DEFAULT_AUTH_STATE : AuthState :=
  {| isPending := true; isAuthenticated := false;
     idToken := VNull; accessToken := VNull |}.

(** TokenManager.ts, DEFAULT_OPTIONS, with the other options this model reads
    left unset. *)
Definition DEFAULT_OPTIONS : Options :=
  {| autoRenew := true; expireEarlySeconds := 30;
     isAuthenticatedOption := false; postLogoutRedirectUriOption := None;
     logoutUrl := "" |}.

(** The result of a synchronous call that may throw. *)
Inductive completion (A : Type) : Type :=
| Normal (a : A)
| Throw (e : error).
Arguments Normal {A} a.
Arguments Throw {A} e.

(** ** Field updates *)

Definition on_tm (f : TokenMgr -> TokenMgr) (s : Sdk) : Sdk :=
  {| tm := f (tm s); asm := asm s; trace := trace s |}.

Definition on_asm (f : AuthMgr -> AuthMgr) (s : Sdk) : Sdk :=
  {| tm := tm s; asm := f (asm s); trace := trace s |}.

Definition log (e : effect) (s : Sdk) : Sdk :=
  {| tm := tm s; asm := asm s; trace := trace s ++ [e] |}.

Definition set_storage (m : gmap string value) (t : TokenMgr) : TokenMgr :=
  {| storage := m; expireTimeouts := expireTimeouts t;
     renewPromise := renewPromise t; clock_now := clock_now t;
     timers := timers t; promises_settled := promises_settled t;
     renewals := renewals t; next_handle := next_handle t |}.

Definition set_expireTimeouts (m : gmap string nat) (t : TokenMgr) : TokenMgr :=
  {| storage := storage t; expireTimeouts := m;
     renewPromise := renewPromise t; clock_now := clock_now t;
     timers := timers t; promises_settled := promises_settled t;
     renewals := renewals t; next_handle := next_handle t |}.

Definition set_renewPromise (m : gmap string nat) (t : TokenMgr) : TokenMgr :=
  {| storage := storage t; expireTimeouts := expireTimeouts t;
     renewPromise := m; clock_now := clock_now t;
     timers := timers t; promises_settled := promises_settled t;
     renewals := renewals t; next_handle := next_handle t |}.

Definition set_clock_now (n : Z) (t : TokenMgr) : TokenMgr :=
  {| storage := storage t; expireTimeouts := expireTimeouts t;
     renewPromise := renewPromise t; clock_now := n;
     timers := timers t; promises_settled := promises_settled t;
     renewals := renewals t; next_handle := next_handle t |}.

Definition set_timers (m : gmap nat Timer) (t : TokenMgr) : TokenMgr :=
  {| storage := storage t; expireTimeouts := expireTimeouts t;
     renewPromise := renewPromise t; clock_now := clock_now t;
     timers := m; promises_settled := promises_settled t;
     renewals := renewals t; next_handle := next_handle t |}.

Definition set_promises_settled (m : gmap nat outcome) (t : TokenMgr) : TokenMgr :=
  {| storage := storage t; expireTimeouts := expireTimeouts t;
     renewPromise := renewPromise t; clock_now := clock_now t;
     timers := timers t; promises_settled := m;
     renewals := renewals t; next_handle := next_handle t |}.

Definition set_renewals (m : gmap nat Renewal) (t : TokenMgr) : TokenMgr :=
  {| storage := storage t; expireTimeouts := expireTimeouts t;
     renewPromise := renewPromise t; clock_now := clock_now t;
     timers := timers t; promises_settled := promises_settled t;
     renewals := m; next_handle := next_handle t |}.

Definition set_next_handle (n : nat) (t : TokenMgr) : TokenMgr :=
  {| storage := storage t; expireTimeouts := expireTimeouts t;
     renewPromise := renewPromise t; clock_now := clock_now t;
     timers := timers t; promises_settled := promises_settled t;
     renewals := renewals t; next_handle := n |}.

Definition set_authState (o : obj) (a : AuthMgr) : AuthMgr :=
  {| authState := o; updateAuthStatePromise := updateAuthStatePromise a;
     canceledTimes := canceledTimes a; recomputes := recomputes a;
     next_recompute := next_recompute a; next_ref := next_ref a |}.

Definition set_updateAuthStatePromise (p : option nat) (a : AuthMgr) : AuthMgr :=
  {| authState := authState a; updateAuthStatePromise := p;
     canceledTimes := canceledTimes a; recomputes := recomputes a;
     next_recompute := next_recompute a; next_ref := next_ref a |}.

Definition set_canceledTimes (n : nat) (a : AuthMgr) : AuthMgr :=
  {| authState := authState a;
     updateAuthStatePromise := updateAuthStatePromise a;
     canceledTimes := n; recomputes := recomputes a;
     next_recompute := next_recompute a; next_ref := next_ref a |}.

Definition set_recomputes (m : gmap nat Recompute) (a : AuthMgr) : AuthMgr :=
  {| authState := authState a;
     updateAuthStatePromise := updateAuthStatePromise a;
     canceledTimes := canceledTimes a; recomputes := m;
     next_recompute := next_recompute a; next_ref := next_ref a |}.

Definition set_next_recompute (n : nat) (a : AuthMgr) : AuthMgr :=
  {| authState := authState a;
     updateAuthStatePromise := updateAuthStatePromise a;
     canceledTimes := canceledTimes a; recomputes := recomputes a;
     next_recompute := n; next_ref := next_ref a |}.

Definition set_next_ref (n : nat) (a : AuthMgr) : AuthMgr :=
  {| authState := authState a;
     updateAuthStatePromise := updateAuthStatePromise a;
     canceledTimes := canceledTimes a; recomputes := recomputes a;
     next_recompute := next_recompute a; next_ref := n |}.

(** ** Plain objects used as tables *)

(** The members of [Object.prototype], which every plain object inherits. *)
Definition OBJECT_PROTOTYPE_MEMBERS : list string :=
  ["constructor"; "hasOwnProperty"; "isPrototypeOf"; "propertyIsEnumerable";
   "toLocaleString"; "toString"; "valueOf"; "__proto__";
   "__defineGetter__"; "__defineSetter__"; "__lookupGetter__";
   "__lookupSetter__"].

(** [table[key]] is an inherited member when [key] is no own property of
    [table] and names one of them; each of them is truthy. *)
Definition inherited (key : string) : bool :=
  existsb (String.eqb key) OBJECT_PROTOTYPE_MEMBERS.

(** [table[key] = handle] for a number [handle]: a property of the table's
    own, unless [key] is [__proto__], where the assignment reaches the
    inherited setter, which ignores a number and creates nothing. *)
Definition assign (key : string) (handle : nat) (table : gmap string nat)
    : gmap string nat :=
  if String.eqb key "__proto__" then table else <[key := handle]> table.

(** ** Storage adapter

    Modelled from the spec: lib/storageBuilder is not part of the sources.
    "Storage Adapter: key-value persistence with a get all / set all / clear
    contract"; here it is backed by a map, and what [getStorage] returns is
    that map: a key is looked up and assigned as in a mapping.  The reads
    and writes do not fail, but for the first read, made while the SDK is
    constructed (see [setExpireEventTimeoutAll]). *)

Definition getStorage (s : Sdk) : gmap string value * Sdk :=
  (storage (tm s), log GetStorage s).

Definition setStorage (m : gmap string value) (s : Sdk) : Sdk :=
  log SetStorage (on_tm (set_storage m) s).

Definition clearStorage (s : Sdk) : Sdk :=
  log ClearStorage (on_tm (set_storage ∅) s).

(** ** TokenManager.ts: reads *)

(** TokenManager.ts, getExpireTime, for a token that is not [null] or
    [undefined] (see [get_prop]). *)
Definition getExpireTime (opts : Options) (token : value) : option Z :=
  num_sub (to_number (get_prop token "expiresAt"))
          (Some (expireEarlySeconds opts)).

(** TokenManager.ts, hasExpired. *)
Definition hasExpired (opts : Options) (s : Sdk) (token : value) : bool :=
  num_le (getExpireTime opts token) (Some (clock_now (tm s))).

(** TokenManager.ts, get: [tokenStorage[key]].  [getAsync] wraps it in a
    promise whose executor runs at once, so the read happens at the call. *)
Definition get (key : string) (s : Sdk) : value * Sdk :=
  let '(tokenStorage, s1) := getStorage s in
  (default VUndefined (tokenStorage !! key), s1).

(** ** AuthStateManager.ts *)

Definition is_done (st : stage) : bool :=
  match st with
  | Done => true
  | _ => false
  end.

Definition set_stage (p : nat) (st : stage) (a : AuthMgr) : AuthMgr :=
  match recomputes a !! p with
  | Some rc =>
      set_recomputes
        (<[p := {| rc_stage := st; rc_isCanceled := rc_isCanceled rc |}]>
           (recomputes a)) a
  | None => a
  end.

(** [PCancelable.cancel()] for a promise created by [updateAuthState]:
    nothing if it was resolved or is already canceled; otherwise mark it
    canceled and run its [onCancel] handler (lines 78-82).  The promise is
    not rejected by this, [onCancel.shouldReject] being false. *)
Definition cancel (p : nat) (s : Sdk) : Sdk :=
  match recomputes (asm s) !! p with
  | Some rc =>
      if is_done (rc_stage rc) || rc_isCanceled rc then s
      else
        on_asm (fun a =>
          set_canceledTimes (S (canceledTimes a))
            (set_updateAuthStatePromise None
               (set_recomputes
                  (<[p := {| rc_stage := rc_stage rc;
                             rc_isCanceled := true |}]> (recomputes a)) a))) s
  | None => s
  end.

(** The executor of the new PCancelable (lines 76-84), which throws at the
    call of line 84 without having read a token, then line 119. *)
Definition start_recompute (s : Sdk) : Sdk :=
  let p := next_recompute (asm s) in
  on_asm (fun a =>
    set_updateAuthStatePromise (Some p)
      (set_next_recompute (S p)
         (set_recomputes
            (<[p := {| rc_stage := Threw;
                       rc_isCanceled := false |}]> (recomputes a)) a))) s.

(** AuthStateManager.ts, updateAuthState (lines 50-120).  Its argument is
    only read by the [devMode] logger, which is left out. *)
Definition updateAuthState (s : Sdk) : Sdk :=
  match updateAuthStatePromise (asm s) with
  | Some p =>
      if (MAX_PROMISE_CANCEL_TIMES <=? canceledTimes (asm s))%nat then s
      else start_recompute (cancel p s)
  | None => start_recompute s
  end.

(** [emitter.emit]: the call, then the listeners this SDK registers itself
    (AuthStateManager.ts lines 35-43).  The listener of [expired] is in
    [emitExpired] below. *)
Definition emit (e : event) (s : Sdk) : Sdk :=
  let s1 := log (Emit e) s in
  match e with
  | Added _ _ | Renewed _ _ _ | Removed _ => updateAuthState s1
  | _ => s1
  end.

(** AuthStateManager.ts, emitAuthStateChange (lines 58-63), together with the
    object literal of its caller (lines 107-113): one new object becomes
    [_authState], a second one, its spread copy, is emitted. *)
Definition emitAuthStateChange (st : AuthState) (s : Sdk) : Sdk :=
  let r := next_ref (asm s) in
  let s1 :=
    on_asm (fun a =>
      set_next_ref (S (S r))
        (set_authState {| ref := r; fields_of := st |} a)) s in
  emit (AuthStateChange {| ref := S r; fields_of := st |}) s1.

(** Lines 91-96: an expired token counts as absent in the snapshot. *)
Definition demote (opts : Options) (s : Sdk) (token : value) : value :=
  if truthy token && hasExpired opts s token then VNull else token.

(** The callback of lines 85-99 for recomputation [p], which runs on the
    tokens that were read; a recomputation that [Threw] has no callback. *)
Definition onTokens (opts : Options) (p : nat) (s : Sdk) : Sdk :=
  match recomputes (asm s) !! p with
  | Some rc =>
      match rc_stage rc with
      | AwaitTokens accessToken idToken =>
          if rc_isCanceled rc then on_asm (set_stage p Done) s
          else
            let accessToken := demote opts s accessToken in
            let idToken := demote opts s idToken in
            if isAuthenticatedOption opts then
              on_asm (set_stage p (AwaitAuth accessToken idToken None))
                     (log IsAuthenticatedCall s)
            else
              on_asm
                (set_stage p
                   (AwaitAuth accessToken idToken
                      (Some (truthy accessToken && truthy idToken)))) s
      | _ => s
      end
  | None => s
  end.

(** The callback of [promise.then] (lines 101-116) for recomputation [p];
    [resolved] is what the promise of the configured predicate resolved
    with, and is not read when the default rule applies. *)
Definition onAuth (p : nat) (resolved : bool) (s : Sdk) : Sdk :=
  match recomputes (asm s) !! p with
  | Some rc =>
      match rc_stage rc with
      | AwaitAuth accessToken idToken default_rule =>
          if rc_isCanceled rc then on_asm (set_stage p Done) s
          else
            let isAuthenticated :=
              match default_rule with
              | Some b => b
              | None => resolved
              end in
            let s1 :=
              emitAuthStateChange
                {| isPending := false; isAuthenticated := isAuthenticated;
                   idToken := idToken; accessToken := accessToken |} s in
            on_asm (fun a =>
              set_stage p Done
                (set_canceledTimes 0 (set_updateAuthStatePromise None a))) s1
      | _ => s
      end
  | None => s
  end.

(** ** TokenManager.ts: writes *)

(** TokenManager.ts, emitRemoved and emitError. *)
Definition emitRemoved (key : string) (s : Sdk) : Sdk := emit (Removed key) s.
Definition emitError (e : error) (s : Sdk) : Sdk := emit (Error e) s.

(** [clearTimeout(handle)]; [undefined] is no handle. *)
Definition clearTimeout (handle : option nat) (s : Sdk) : Sdk :=
  match handle with
  | Some h => on_tm (fun t => set_timers (delete h (timers t)) t) s
  | None => s
  end.

(** TokenManager.ts, clearExpireEventTimeout (lines 51-57). *)
Definition clearExpireEventTimeout (key : string) (s : Sdk) : Sdk :=
  let s1 := clearTimeout (expireTimeouts (tm s) !! key) s in
  let s2 :=
    on_tm (fun t => set_expireTimeouts (delete key (expireTimeouts t)) t) s1 in
  (* Remove the renew promise (if it exists) *)
  on_tm (fun t => set_renewPromise (delete key (renewPromise t)) t) s2.

(** TokenManager.ts, clearExpireEventTimeoutAll (lines 59-67). *)
Definition clearExpireEventTimeoutAll (s : Sdk) : Sdk :=
  foldr clearExpireEventTimeout s
        (List.map fst (map_to_list (expireTimeouts (tm s)))).

(** TokenManager.ts, setExpireEventTimeout (lines 69-82). *)
Definition setExpireEventTimeout
    (opts : Options) (key : string) (token : value) (s : Sdk) : Sdk :=
  let expireTime := getExpireTime opts token in
  let expireEventWait :=
    timeout_delay (num_sub expireTime (Some (clock_now (tm s)))) in
  (* Clear any existing timeout *)
  let s1 := clearExpireEventTimeout key s in
  let h := next_handle (tm s1) in
  let s2 :=
    on_tm (fun t =>
      set_next_handle (S h)
        (set_timers
           (<[h := {| timer_delay := expireEventWait; timer_key := key;
                      timer_token := token |}]> (timers t)) t)) s1 in
  (* Add a new timeout *)
  on_tm (fun t => set_expireTimeouts (assign key h (expireTimeouts t)) t) s2.

(** Modelled from the spec: [isObject] (lib/util) and the two variant
    predicates [isIDToken], [isAccessToken] (lib/types) are not part of the
    sources.  The spec calls the latter "duck-typed field presence": a value
    is of a variant when it carries that variant's raw token string. *)
Definition isObject (v : value) : bool :=
  match v with
  | VObj _ => true
  | _ => false
  end.
Definition isIDToken (v : value) : bool :=
  truthy v && truthy (get_prop v "idToken").
Definition isAccessToken (v : value) : bool :=
  truthy v && truthy (get_prop v "accessToken").

(** The condition of lines 105-108, under which [add] throws. *)
Definition malformed (token : value) : bool :=
  negb (isObject token)
  || negb (truthy (get_prop token "scopes"))
  || (negb (truthy (get_prop token "expiresAt"))
      && negb (is_zero (get_prop token "expiresAt")))
  || (negb (isIDToken token) && negb (isAccessToken token)).

(** TokenManager.ts, add (lines 103-114). *)
Definition add
    (opts : Options) (key : string) (token : value) (s : Sdk)
    : completion unit * Sdk :=
  let '(tokenStorage, s1) := getStorage s in
  if malformed token then
    (Throw (AuthSdkError
       "Token must be an Object with scopes, expiresAt, and an idToken or accessToken properties"),
     s1)
  else
    let s2 := setStorage (<[key := token]> tokenStorage) s1 in
    (Normal tt, setExpireEventTimeout opts key token s2).

(** TokenManager.ts, remove (lines 128-138). *)
Definition remove (key : string) (s : Sdk) : Sdk :=
  (* Clear any listener for this token *)
  let s1 := clearExpireEventTimeout key s in
  (* Remove it from storage *)
  let '(tokenStorage, s2) := getStorage s1 in
  let s3 := setStorage (delete key tokenStorage) s2 in
  emitRemoved key s3.

(** A new promise object. *)
Definition new_promise (s : Sdk) : nat * Sdk :=
  let p := next_handle (tm s) in
  (p, on_tm (set_next_handle (S p)) s).

(** What [renew] hands back: a promise, or the member of
    [Object.prototype] that [renewPromise[key]] found. *)
Inductive renew_result : Type :=
| Promise (p : nat)
| Inherited (member : string).

(** TokenManager.ts, renew (lines 140-188), up to its return.  The
    [then/catch/finally] callbacks are [onRenewSettled].  The [try] of lines
    147-154 catches the error thrown for a missing token; the storage read
    does not throw.

    [existingPromise] (line 142) is read from the plain object
    [renewPromise]: for a key without an entry that names a member of
    [Object.prototype] it is that member, and is returned as it is. *)
Definition renew (key : string) (s : Sdk) : renew_result * Sdk :=
  match renewPromise (tm s) !! key with
  | Some existingPromise => (Promise existingPromise, s)
  | None =>
      if inherited key then (Inherited key, s)
      else
        let '(token, s1) := get key s in
        if negb (truthy token) then
          (* Promise.reject(e) *)
          let '(p, s2) := new_promise s1 in
          (Promise p,
           on_tm (fun t =>
              set_promises_settled
                (<[p := Failed (AuthSdkError
                         ("The tokenManager has no token for the key: "
                          +:+ key))]> (promises_settled t)) t) s2)
        else
          (* Remove existing autoRenew timeout for this key *)
          let s2 := clearExpireEventTimeout key s1 in
          (* Store the renew promise state, to avoid renewing again *)
          let s3 := log (TokenRenew token) s2 in
          let '(p, s4) := new_promise s3 in
          (Promise p,
           on_tm (fun t =>
              set_renewPromise (<[key := p]> (renewPromise t))
                (set_renewals
                   (<[p := {| renewal_key := key; renewal_token := token |}]>
                      (renewals t)) t)) s4)
  end.

(** [err.tokenKey = key; err.accessToken = ...] (lines 176-177). *)
Definition tag_error (key : string) (isAccess : bool) (e : error) : error :=
  {| err_name := err_name e; err_errorCode := err_errorCode e;
     err_message := err_message e; err_tokenKey := Some key;
     err_accessToken := Some isAccess |}.

(** The error names of line 174. *)
Definition removes_token (e : error) : bool :=
  String.eqb (err_name e) "OAuthError"
  || String.eqb (err_name e) "AuthSdkError".

(** The [then] callback (lines 161-172). *)
Definition renew_then
    (opts : Options) (key : string) (freshToken : value) (s : Sdk)
    : outcome * Sdk :=
  let '(oldToken, s1) := get key s in
  if negb (truthy oldToken) then (Fulfilled VUndefined, s1)
  else
    match add opts key freshToken s1 with
    | (Throw e, s2) => (Failed e, s2)
    | (Normal _, s2) =>
        (Fulfilled freshToken,
         emit (Renewed key freshToken oldToken) s2)
    end.

(** The [catch] callback (lines 173-181); [token] is the one [renew] read. *)
Definition renew_catch
    (key : string) (token : value) (err : error) (s : Sdk) : outcome * Sdk :=
  if removes_token err then
    let s1 := remove key s in
    let err := tag_error key (truthy (get_prop token "accessToken")) err in
    (Failed err, emitError err s1)
  else (Failed err, s).

(** The [finally] callback (lines 182-185). *)
Definition renew_finally (key : string) (s : Sdk) : Sdk :=
  on_tm (fun t => set_renewPromise (delete key (renewPromise t)) t) s.

(** The chain [.then(...).catch(...).finally(...)] of lines 160-185, run on
    what the promise of [sdk.token.renew(token)] settled with; the result is
    what the promise handed out by [renew] settles with. *)
Definition renew_chain
    (opts : Options) (key : string) (token : value) (provider : outcome)
    (s : Sdk) : outcome * Sdk :=
  let '(o1, s1) :=
    match provider with
    | Fulfilled freshToken => renew_then opts key freshToken s
    | Failed err => (Failed err, s)
    end in
  let '(o2, s2) :=
    match o1 with
    | Fulfilled v => (Fulfilled v, s1)
    | Failed err => renew_catch key token err s1
    end in
  (o2, renew_finally key s2).

(** The provider call behind promise [p] settles with [provider]: the
    callbacks of [p] run and [p] settles. *)
Definition onRenewSettled
    (opts : Options) (p : nat) (provider : outcome) (s : Sdk) : Sdk :=
  match renewals (tm s) !! p with
  | Some r =>
      let '(o, s1) :=
        renew_chain opts (renewal_key r) (renewal_token r) provider s in
      on_tm (fun t =>
        set_promises_settled (<[p := o]> (promises_settled t))
          (set_renewals (delete p (renewals t)) t)) s1
  | None => s
  end.

(** TokenManager.ts, clear (lines 190-193). *)
Definition clear (s : Sdk) : Sdk :=
  clearStorage (clearExpireEventTimeoutAll s).

(** The listener of [expired] (lines 290-297); the promise of [renew] is
    dropped, its rejection swallowed.  Where [renew] hands back an inherited
    member, which has no [catch], the listener throws once [renew] has
    returned; the state is the one [renew] left. *)
Definition onTokenExpiredHandler (opts : Options) (key : string) (s : Sdk) : Sdk :=
  if autoRenew opts then snd (renew key s) else remove key s.

(** TokenManager.ts, emitExpired. *)
Definition emitExpired
    (opts : Options) (key : string) (token : value) (s : Sdk) : Sdk :=
  onTokenExpiredHandler opts key (emit (Expired key token) s).

(** The timer with handle [h] fires (lines 76-78). *)
Definition fire (opts : Options) (h : nat) (s : Sdk) : Sdk :=
  match timers (tm s) !! h with
  | Some t =>
      emitExpired opts (timer_key t) (timer_token t)
        (on_tm (fun m => set_timers (delete h (timers m)) m) s)
  | None => s
  end.

(** [clock.now()] reads [d] seconds more than before; it is the host's
    clock, which may also be set back. *)
Definition tick (d : Z) (s : Sdk) : Sdk :=
  on_tm (fun t => set_clock_now (clock_now t + d) t) s.

(** ** browser.ts *)

(** The error [closeSession] absorbs (line 238). *)
Definition session_not_found (e : error) : bool :=
  String.eqb (err_name e) "AuthApiError"
  && match err_errorCode e with
     | Some code => String.eqb code "E0000007"
     | None => false
     end.

(** browser.ts, closeSession (lines 232-244); [closed] is what the promise of
    [session.close()] settles with. *)
Definition closeSession (closed : outcome) (s : Sdk) : outcome * Sdk :=
  (* Clear all local tokens *)
  let s1 := clear s in
  let s2 := log SessionClose s1 in
  match closed with
  | Fulfilled v => (Fulfilled v, s2)
  | Failed e =>
      if session_not_found e then (Fulfilled VUndefined, s2)
      else (Failed e, s2)
  end.

(** browser.ts, revokeAccessToken (lines 247-257); [revoked] is what the
    promise of [token.revoke] settles with. *)
Definition revokeAccessToken
    (accessToken : value) (revoked : outcome) (s : Sdk) : outcome * Sdk :=
  let '(accessToken, s1) :=
    if negb (truthy accessToken) then
      let '(stored, s1) := get ACCESS_TOKEN_STORAGE_KEY s in
      (stored, remove ACCESS_TOKEN_STORAGE_KEY s1)
    else (accessToken, s) in
  (* Access token may have been removed. In this case, we will silently succeed. *)
  if negb (truthy accessToken) then (Fulfilled VUndefined, s1)
  else (revoked, log (TokenRevoke accessToken) s1).

(** The options object of [signOut]; an absent token option is
    [VUndefined]. *)
Record SignoutOptions : Type := {
  opt_postLogoutRedirectUri : option string;
  opt_accessToken : value;
  opt_revokeAccessToken : option bool;
  opt_idToken : value;
  opt_state : option string;
}.

(** [a || b] on an optional string. *)
Definition or_else (a : option string) (b : string) : string :=
  match a with
  | Some x => if String.eqb x "" then b else x
  | None => b
  end.

Definition is_undefined (v : value) : bool :=
  match v with
  | VUndefined => true
  | _ => false
  end.

(** Lines 305-313: the logout redirect. *)
Definition logoutUri
    (opts : Options) (idToken : value) (postLogoutRedirectUri : string)
    (state : option string) : string :=
  let idTokenHint := get_prop idToken "idToken" in
  let uri :=
    logoutUrl opts +:+ "?id_token_hint="
      +:+ encodeURIComponent (to_string idTokenHint)
      +:+ "&post_logout_redirect_uri="
      +:+ encodeURIComponent postLogoutRedirectUri in
  (* State allows option parameters to be passed to logout redirect uri *)
  match state with
  | Some st =>
      if negb (String.eqb st "") then
        uri +:+ "&state=" +:+ encodeURIComponent st
      else uri
  | None => uri
  end.

(** browser.ts, signOut (lines 260-316). *)
Definition signOut
    (opts : Options) (window : Window) (options : SignoutOptions)
    (revoked closed : outcome) (s : Sdk) : outcome * Sdk :=
  let defaultUri := location_origin window in
  let currentUri := location_href window in
  let postLogoutRedirectUri :=
    or_else (opt_postLogoutRedirectUri options)
      (or_else (postLogoutRedirectUriOption opts) defaultUri) in
  let accessToken := opt_accessToken options in
  let revokeAccessToken_ :=
    match opt_revokeAccessToken options with
    | Some false => false
    | _ => true
    end in
  let idToken := opt_idToken options in
  let '(idToken, s1) :=
    if is_undefined idToken then get ID_TOKEN_STORAGE_KEY s
    else (idToken, s) in
  let '(accessToken, s2) :=
    if revokeAccessToken_ && is_undefined accessToken then
      get ACCESS_TOKEN_STORAGE_KEY s1
    else (accessToken, s1) in
  (* Clear all local tokens *)
  let s3 := clear s2 in
  let '(r, s4) :=
    if revokeAccessToken_ && truthy accessToken then
      revokeAccessToken accessToken revoked s3
    else (Fulfilled VUndefined, s3) in
  match r with
  | Failed e => (Failed e, s4)
  | Fulfilled _ =>
      if negb (truthy idToken) then
        match closeSession closed s4 with
        | (Failed e, s5) => (Failed e, s5)
        | (Fulfilled _, s5) =>
            if String.eqb postLogoutRedirectUri currentUri then
              (Fulfilled VUndefined, log LocationReload s5)
            else
              (Fulfilled VUndefined,
               log (LocationAssign postLogoutRedirectUri) s5)
        end
      else
        (Fulfilled VUndefined,
         log (LocationAssign
                (logoutUri opts idToken postLogoutRedirectUri
                   (opt_state options))) s4)
  end.

(** ** The SDK after construction, and its runs *)

(** The error of a property read on [null] or [undefined]; its message is
    the engine's. *)
Definition TypeError : error :=
  {| err_name := "TypeError"; err_errorCode := None; err_message := "";
     err_tokenKey := None; err_accessToken := None |}.

(** TokenManager.ts, setExpireEventTimeoutAll (lines 84-101).
    [read_failure] is the error [storage.getStorage()] throws at line 86, if
    it throws: the [catch] emits it and returns.  Otherwise every persisted
    entry gets a timer; [getExpireTime] reads [token.expiresAt] (line 30),
    which throws on an entry that is [null] or [undefined], and nothing
    catches that: the constructor is left by the exception, and there is no
    SDK (the timers scheduled before the throw stay with the host). *)
Definition setExpireEventTimeoutAll
    (opts : Options) (read_failure : option error) (s : Sdk)
    : completion Sdk :=
  match read_failure with
  | Some e => Normal (emitError e (log GetStorage s))
  | None =>
      let '(tokenStorage, s1) := getStorage s in
      if existsb (fun kv => is_nullish (snd kv)) (map_to_list tokenStorage)
      then Throw TypeError
      else
        Normal
          (foldr (fun kv => setExpireEventTimeout opts (fst kv) (snd kv)) s1
                 (map_to_list tokenStorage))
  end.

(** The state the constructors start from: the defaults of TokenManager.ts
    lines 273-279 and AuthStateManager.ts lines 29-31. *)
Definition initial_sdk (persisted : gmap string value) (now : Z) : Sdk :=
  {| tm := {| storage := persisted; expireTimeouts := ∅; renewPromise := ∅;
              clock_now := now; timers := ∅; promises_settled := ∅;
              renewals := ∅; next_handle := 0 |};
     asm := {| authState := {| ref := 0; fields_of := DEFAULT_AUTH_STATE |};
               updateAuthStatePromise := None; canceledTimes := 0;
               recomputes := ∅; next_recompute := 0; next_ref := 1 |};
     trace := [] |}.

(** browser.ts lines 207-209: the emitter, the token manager
    (TokenManager.ts lines 273-299), then the auth state manager
    (AuthStateManager.ts lines 29-31) with its defaults.  [persisted] is
    what the store holds, [now] what the clock reads. *)
Definition construct
    (opts : Options) (persisted : gmap string value) (now : Z)
    (read_failure : option error) : completion Sdk :=
  setExpireEventTimeoutAll opts read_failure (initial_sdk persisted now).

(** One turn of the event loop: a call of the public surface or a
    continuation that became ready. *)
Inductive turn : Type :=
| CallAdd (key : string) (token : value)
| CallRemove (key : string)
| CallRenew (key : string)
| CallClear
| CallUpdateAuthState
| CallCloseSession (closed : outcome)
| CallRevokeAccessToken (accessToken : value) (revoked : outcome)
| CallSignOut (window : Window) (options : SignoutOptions)
              (revoked closed : outcome)
| RenewSettled (p : nat) (provider : outcome)
| TokensRead (p : nat)                        (* lines 85-99, if attached *)
| AuthResolved (p : nat) (resolved : bool)    (* lines 101-116, if attached *)
| TimerFired (h : nat)
| ClockTick (d : Z).

Definition run_turn (opts : Options) (t : turn) (s : Sdk) : Sdk :=
  match t with
  | CallAdd key token => snd (add opts key token s)
  | CallRemove key => remove key s
  | CallRenew key => snd (renew key s)
  | CallClear => clear s
  | CallUpdateAuthState => updateAuthState s
  | CallCloseSession closed => snd (closeSession closed s)
  | CallRevokeAccessToken accessToken revoked =>
      snd (revokeAccessToken accessToken revoked s)
  | CallSignOut window options revoked closed =>
      snd (signOut opts window options revoked closed s)
  | RenewSettled p provider => onRenewSettled opts p provider s
  | TokensRead p => onTokens opts p s
  | AuthResolved p resolved => onAuth p resolved s
  | TimerFired h => fire opts h s
  | ClockTick d => tick d s
  end.

Definition run (opts : Options) (ts : list turn) (s : Sdk) : Sdk :=
  fold_left (fun s t => run_turn opts t s) ts s.

(** The states the SDK can be in. *)
Definition reachable (opts : Options) (s : Sdk) : Prop :=
  exists persisted now read_failure ts s0,
    construct opts persisted now read_failure = Normal s0
    /\ s = run opts ts s0.

(** ** Observations on a trace *)

(** The events emitted, in order. *)
Definition emitted (tr : list effect) : list event :=
  omap (fun e => match e with Emit ev => Some ev | _ => None end) tr.

(** The calls to the navigation collaborator, in order. *)
Definition navigations (tr : list effect) : list effect :=
  List.filter (fun e => match e with
                        | LocationAssign _ | LocationReload => true
                        | _ => false
                        end) tr.

(** The calls to [sdk.token.renew]. *)
Definition renew_calls (tr : list effect) : list value :=
  omap (fun e => match e with TokenRenew t => Some t | _ => None end) tr.

(** A renewal for [key] is outstanding behind promise [p]: its provider
    call was made and its callbacks have not run yet. *)
Definition outstanding (key : string) (p : nat) (s : Sdk) : Prop :=
  exists token,
    renewals (tm s) !! p
    = Some {| renewal_key := key; renewal_token := token |}.

(** Several calls in a row. *)
Definition logs (es : list effect) (s : Sdk) : Sdk :=
  fold_left (fun s e => log e s) es s.

(** What holds of the auth state manager at every turn: the cancellation
    counter is within its ceiling, recomputations are numbered below
    [next_recompute], and the promise in [_pending] is one that is neither
    settled nor canceled. *)
Definition asm_inv (a : AuthMgr) : Prop :=
  (canceledTimes a <= MAX_PROMISE_CANCEL_TIMES)%nat
  /\ (forall p rc, recomputes a !! p = Some rc -> (p < next_recompute a)%nat)
  /\ (forall p, updateAuthStatePromise a = Some p ->
        exists st, recomputes a !! p
                   = Some {| rc_stage := st; rc_isCanceled := false |}
                   /\ st <> Done).


(** ** Sample data *)

Definition sample_accessToken : value :=
  VObj [("accessToken", VStr "raw-access"); ("expiresAt", VNum 1000);
        ("scopes", VArr [VStr "openid"])].

Definition sample_idToken : value :=
  VObj [("idToken", VStr "raw id/token"); ("expiresAt", VNum 1000);
        ("scopes", VArr [VStr "openid"])].

(** The SDK constructed over an empty store at time 100. *)
Definition sample_sdk : Sdk := log GetStorage (initial_sdk ∅ 100).

Definition sample_window : Window :=
  {| location_origin := "https://app.example";
     location_href := "https://app.example/profile" |}.

(** A token object that carries both raw token strings. *)
Definition both_variants_token : value :=
  VObj [("idToken", VStr "raw-id"); ("accessToken", VStr "raw-access");
        ("expiresAt", VNum 0); ("scopes", VArr [VStr "openid"])].

(** A token object whose [expiresAt] is not a number. *)
Definition string_expiry_token : value :=
  VObj [("idToken", VStr "raw-id"); ("expiresAt", VStr "never");
        ("scopes", VArr [VStr "openid"])].

(** [typeof v === 'number'] *)
Definition is_number (v : value) : bool :=
  match v with
  | VNum _ => true
  | _ => false
  end.

(** The logout redirect as the specification words it:
    [<logoutEndpoint>?id_token_hint=<urlencode(idToken)>
     &post_logout_redirect_uri=<urlencode(uri)>[&state=<urlencode(state)>]],
    the last part present if and only if a state was supplied. *)
Definition logoutUri_as_specified
    (logoutEndpoint idTokenString uri : string) (state : option string)
    : string :=
  logoutEndpoint +:+ "?id_token_hint=" +:+ encodeURIComponent idTokenString
    +:+ "&post_logout_redirect_uri=" +:+ encodeURIComponent uri
    +:+ match state with
        | Some st => "&state=" +:+ encodeURIComponent st
        | None => ""
        end.

Definition sample_options : Options :=
  {| autoRenew := true; expireEarlySeconds := 30;
     isAuthenticatedOption := false; postLogoutRedirectUriOption := None;
     logoutUrl := "https://idp.example/oauth2/v1/logout" |}.

(** Sign-out options with nothing supplied but [state]. *)
Definition only_state (state : option string) : SignoutOptions :=
  {| opt_postLogoutRedirectUri := None; opt_accessToken := VUndefined;
     opt_revokeAccessToken := None; opt_idToken := VUndefined;
     opt_state := state |}.

(** An SDK holding an id token and an access token. *)
Definition signed_in_sdk : Sdk :=
  run DEFAULT_OPTIONS
      [CallAdd ID_TOKEN_STORAGE_KEY sample_idToken;
       CallAdd ACCESS_TOKEN_STORAGE_KEY sample_accessToken] sample_sdk.

(** ** browser.ts: the remaining token and logout entry points *)

(** browser.ts, getIdToken (lines 346-353).  The [catch] returns
    [undefined] when the read throws; the storage of this model does not. *)
Definition getIdToken (s : Sdk) : value * Sdk :=
  let '(idToken, s1) := get ID_TOKEN_STORAGE_KEY s in
  (if truthy idToken then get_prop idToken "idToken" else VUndefined, s1).

(** browser.ts, getAccessToken (lines 355-362). *)
Definition getAccessToken (s : Sdk) : value * Sdk :=
  let '(accessToken, s1) := get ACCESS_TOKEN_STORAGE_KEY s in
  (if truthy accessToken then get_prop accessToken "accessToken"
   else VUndefined, s1).

(** The [tokens] of what [token.parseFromUrl()] resolves with. *)
Record ParsedTokens : Type := {
  parsed_idToken : value;
  parsed_accessToken : value;
}.

(** browser.ts, handleAuthentication (lines 407-415); [parsed] is what the
    promise of [token.parseFromUrl()] settles with. *)
Definition handleAuthentication
    (opts : Options) (parsed : ParsedTokens + error) (s : Sdk)
    : outcome * Sdk :=
  match parsed with
  | inr e => (Failed e, s)
  | inl tokens =>
      let '(r1, s1) :=
        if truthy (parsed_idToken tokens)
        then add opts ID_TOKEN_STORAGE_KEY (parsed_idToken tokens) s
        else (Normal tt, s) in
      match r1 with
      | Throw e => (Failed e, s1)
      | Normal _ =>
          let '(r2, s2) :=
            if truthy (parsed_accessToken tokens)
            then add opts ACCESS_TOKEN_STORAGE_KEY
                     (parsed_accessToken tokens) s1
            else (Normal tt, s1) in
          match r2 with
          | Throw e => (Failed e, s2)
          | Normal _ => (Fulfilled VUndefined, s2)
          end
      end
  end.

(** The options object [{}]. *)
Definition no_options : SignoutOptions :=
  {| opt_postLogoutRedirectUri := None; opt_accessToken := VUndefined;
     opt_revokeAccessToken := None; opt_idToken := VUndefined;
     opt_state := None |}.

(** What [logout] can be called with: nothing, a URI, or sign-out options. *)
Inductive LogoutArgument : Type :=
| LogoutDefault
| LogoutUri (redirectUri : string)
| LogoutOptions (options : SignoutOptions).

(** [s.charAt(0) === '/'] *)
Definition starts_with_slash (s : string) : bool :=
  match s with
  | String c _ => Ascii.eqb c "/"
  | EmptyString => false
  end.

(** browser.ts, logout (lines 381-394): the options handed to [signOut].
    The empty string is falsy, so [options || {}] turns it into [{}]. *)
Definition logout_options (window : Window) (arg : LogoutArgument)
    : SignoutOptions :=
  match arg with
  | LogoutDefault => no_options
  | LogoutUri redirectUri =>
      if String.eqb redirectUri "" then no_options
      else
        (* If a relative path was passed, convert to absolute URI *)
        let redirectUri :=
          if starts_with_slash redirectUri
          then location_origin window +:+ redirectUri
          else redirectUri in
        {| opt_postLogoutRedirectUri := Some redirectUri;
           opt_accessToken := VUndefined; opt_revokeAccessToken := None;
           opt_idToken := VUndefined; opt_state := None |}
  | LogoutOptions options => options
  end.

(** browser.ts, logout. *)
Definition logout
    (opts : Options) (window : Window) (arg : LogoutArgument)
    (revoked closed : outcome) (s : Sdk) : outcome * Sdk :=
  signOut opts window (logout_options window arg) revoked closed s.

(** ** browser.ts: the referrer kept in sessionStorage *)

(** lib/constants is not part of the sources; the value is the one the
    tests of setFromUri read back (test/spec/browser.js). *)
Definition REFERRER_PATH_STORAGE_KEY : string := "referrerPath".

(** browser.ts, setFromUri (lines 417-425), on the page's sessionStorage. *)
Definition setFromUri
    (window : Window) (fromUri : option string)
    (sessionStorage : gmap string string) : gmap string string :=
  (* Use current location if fromUri was not passed *)
  let fromUri := or_else fromUri (location_href window) in
  (* If a relative path was passed, convert to absolute URI *)
  let fromUri :=
    if starts_with_slash fromUri
    then location_origin window +:+ fromUri
    else fromUri in
  <[REFERRER_PATH_STORAGE_KEY := fromUri]> sessionStorage.

(** browser.ts, getFromUri (lines 427-437).  [relative_part] stands for
    [new URL(u)] followed by [pathname + search + hash], which throws on a
    string that is no URL. *)
Definition getFromUri
    (window : Window) (relative_part : string -> completion string)
    (relative : bool) (sessionStorage : gmap string string)
    : completion string * gmap string string :=
  let fromUri :=
    or_else (sessionStorage !! REFERRER_PATH_STORAGE_KEY)
            (location_origin window) in
  let sessionStorage := delete REFERRER_PATH_STORAGE_KEY sessionStorage in
  if negb relative then (Normal fromUri, sessionStorage)
  else (relative_part fromUri, sessionStorage).

(** ** TokenManager.ts: the choice of the storage provider *)

Inductive StorageProvider : Type :=
| BrowserLocalStorage
| BrowserSessionStorage
| CookieStorage
| InMemoryStorage
| CustomStorage (provider : value).

(** TokenManager.ts, constructor (lines 206-269): from [options.storage]
    and the two feature tests to the provider, with the warnings printed on
    the way.  [removeNils] drops a [null] or [undefined] option, so that the
    default, ['localStorage'], applies. *)
Definition select_storage
    (storage : value) (browserHasLocalStorage browserHasSessionStorage : bool)
    : completion StorageProvider * list string :=
  let storage :=
    match storage with
    | VUndefined | VNull => VStr "localStorage"
    | v => v
    end in
  let '(storage, w1) :=
    match storage with
    | VStr name =>
        if String.eqb name "localStorage" && negb browserHasLocalStorage
        then (VStr "sessionStorage",
              ["This browser doesn't support localStorage. Switching to sessionStorage."])
        else (storage, [])
    | _ => (storage, [])
    end in
  let '(storage, w2) :=
    match storage with
    | VStr name =>
        if String.eqb name "sessionStorage" && negb browserHasSessionStorage
        then (VStr "cookie",
              ["This browser doesn't support sessionStorage. Switching to cookie-based storage."])
        else (storage, [])
    | _ => (storage, [])
    end in
  let provider :=
    match storage with
    | VObj _ | VArr _ =>
        (* A custom storage provider *)
        Normal (CustomStorage storage)
    | VStr name =>
        if String.eqb name "localStorage" then Normal BrowserLocalStorage
        else if String.eqb name "sessionStorage" then Normal BrowserSessionStorage
        else if String.eqb name "cookie" then Normal CookieStorage
        else if String.eqb name "memory" then Normal InMemoryStorage
        else Throw (AuthSdkError "Unrecognized storage option")
    | _ => Throw (AuthSdkError "Unrecognized storage option")
    end in
  (provider, w1 ++ w2).

(** ** What holds of the timers at every turn *)

(** Every live timer has a handle below [next_handle]; and unless its key is
    [__proto__], for which [expireTimeouts] records nothing, it is the one
    its key's entry of [expireTimeouts] names and carries the token stored
    under that key. *)
Definition timers_ok
    (st : gmap string value) (et : gmap string nat) (tmrs : gmap nat Timer)
    (nh : nat) : Prop :=
  forall h tmr,
    tmrs !! h = Some tmr ->
    (h < nh)%nat
    /\ (timer_key tmr <> "__proto__" ->
        et !! timer_key tmr = Some h
        /\ st !! timer_key tmr = Some (timer_token tmr)).

Definition tm_inv (t : TokenMgr) : Prop :=
  timers_ok (storage t) (expireTimeouts t) (timers t) (next_handle t).

(** An SDK constructed over a store that already holds both tokens. *)
Definition persisted_tokens : gmap string value :=
  <[ID_TOKEN_STORAGE_KEY := sample_idToken]>
    (<[ACCESS_TOKEN_STORAGE_KEY := sample_accessToken]> ∅).

(** A token object without [scopes]. *)
Definition token_without_scopes : value :=
  VObj [("accessToken", VStr "raw-access"); ("expiresAt", VNum 1000)].

(** The default options with auto-renew switched off. *)
Definition options_without_autoRenew : Options :=
  {| autoRenew := false; expireEarlySeconds := 30;
     isAuthenticatedOption := false; postLogoutRedirectUriOption := None;
     logoutUrl := "" |}.

(** The calls to the identity provider, in order. *)
Definition provider_calls (tr : list effect) : list effect :=
  List.filter (fun e => match e with
                        | TokenRenew _ | TokenRevoke _ | SessionClose => true
                        | _ => false
                        end) tr.

(** Sign-out options that supply [false] for the id token. *)
Definition without_id_token : SignoutOptions :=
  {| opt_postLogoutRedirectUri := None; opt_accessToken := VUndefined;
     opt_revokeAccessToken := None; opt_idToken := VBool false;
     opt_state := None |}.

(** A failure that is not the absorbed one. *)
Definition network_error : error :=
  {| err_name := "AuthApiError"; err_errorCode := None;
     err_message := "offline"; err_tokenKey := None;
     err_accessToken := None |}.


(** What holds of the renewal cache at every turn: a key with a cached
    renewal promise has no entry in the timer table. *)
Definition cache_inv (t : TokenMgr) : Prop :=
  forall k, is_Some (renewPromise t !! k) -> expireTimeouts t !! k = None.

(** The timer table has no entry for [__proto__]; the handle of an entry is
    below [next_handle], and a live timer with that handle was scheduled
    for the entry's key. *)
Definition table_ok
    (et : gmap string nat) (tmrs : gmap nat Timer) (nh : nat) : Prop :=
  forall k h,
    et !! k = Some h ->
    (h < nh)%nat
    /\ k <> "__proto__"
    /\ forall tmr, tmrs !! h = Some tmr -> timer_key tmr = k.

(** What holds of the two tables at every turn: the timer table is in order
    and no key of the renewal cache names a member of [Object.prototype]. *)
Definition tables_inv (t : TokenMgr) : Prop :=
  table_ok (expireTimeouts t) (timers t) (next_handle t)
  /\ (forall k, is_Some (renewPromise t !! k) -> inherited k = false).

(** The snapshots published: the payloads of the [authStateChange] events. *)
Definition published (tr : list effect) : list obj :=
  omap (fun e => match e with
                 | Emit (AuthStateChange payload) => Some payload
                 | _ => None
                 end) tr.

(** No recomputation got past its executor, and the auth state is the one
    the constructor made. *)
Definition stalled (a : AuthMgr) : Prop :=
  authState a = {| ref := 0; fields_of := DEFAULT_AUTH_STATE |}
  /\ forall p rc, recomputes a !! p = Some rc -> rc_stage rc = Threw.

(** A store with an entry that is [null]. *)
Definition persisted_null : gmap string value :=
  <[ACCESS_TOKEN_STORAGE_KEY := VNull]> persisted_tokens.

(** The error of a store that cannot be parsed. *)
Definition unreadable : error :=
  {| err_name := "SyntaxError"; err_errorCode := None;
     err_message := "Unexpected token"; err_tokenKey := None;
     err_accessToken := None |}.

(** * Properties *)

(** ** Frame lemmas: what the helpers leave alone *)

Lemma clearExpireEventTimeout_storage key s :
  storage (tm (clearExpireEventTimeout key s)) = storage (tm s).
Proof.
  unfold clearExpireEventTimeout, clearTimeout.
  destruct (expireTimeouts (tm s) !! key); reflexivity.
Qed.

Lemma clearExpireEventTimeout_trace key s :
  trace (clearExpireEventTimeout key s) = trace s.
Proof.
  unfold clearExpireEventTimeout, clearTimeout.
  destruct (expireTimeouts (tm s) !! key); reflexivity.
Qed.

Lemma clearExpireEventTimeout_asm key s :
  asm (clearExpireEventTimeout key s) = asm s.
Proof.
  unfold clearExpireEventTimeout, clearTimeout.
  destruct (expireTimeouts (tm s) !! key); reflexivity.
Qed.

Lemma clearExpireEventTimeout_next_handle key s :
  next_handle (tm (clearExpireEventTimeout key s)) = next_handle (tm s).
Proof.
  unfold clearExpireEventTimeout, clearTimeout.
  destruct (expireTimeouts (tm s) !! key); reflexivity.
Qed.

Lemma clearExpireEventTimeout_clock key s :
  clock_now (tm (clearExpireEventTimeout key s)) = clock_now (tm s).
Proof.
  unfold clearExpireEventTimeout, clearTimeout.
  destruct (expireTimeouts (tm s) !! key); reflexivity.
Qed.

Lemma clearExpireEventTimeout_renewPromise key s :
  renewPromise (tm (clearExpireEventTimeout key s))
  = delete key (renewPromise (tm s)).
Proof.
  unfold clearExpireEventTimeout, clearTimeout.
  destruct (expireTimeouts (tm s) !! key); reflexivity.
Qed.

Lemma clearExpireEventTimeout_expireTimeouts key s :
  expireTimeouts (tm (clearExpireEventTimeout key s))
  = delete key (expireTimeouts (tm s)).
Proof.
  unfold clearExpireEventTimeout, clearTimeout.
  destruct (expireTimeouts (tm s) !! key); reflexivity.
Qed.

Lemma clearExpireEventTimeout_timers key s :
  timers (tm (clearExpireEventTimeout key s))
  = match expireTimeouts (tm s) !! key with
    | Some h => delete h (timers (tm s))
    | None => timers (tm s)
    end.
Proof.
  unfold clearExpireEventTimeout, clearTimeout.
  destruct (expireTimeouts (tm s) !! key); reflexivity.
Qed.

Lemma clearExpireEventTimeout_renewals key s :
  renewals (tm (clearExpireEventTimeout key s)) = renewals (tm s).
Proof.
  unfold clearExpireEventTimeout, clearTimeout.
  destruct (expireTimeouts (tm s) !! key); reflexivity.
Qed.

Lemma clearExpireEventTimeout_promises key s :
  promises_settled (tm (clearExpireEventTimeout key s))
  = promises_settled (tm s).
Proof.
  unfold clearExpireEventTimeout, clearTimeout.
  destruct (expireTimeouts (tm s) !! key); reflexivity.
Qed.

Lemma setExpireEventTimeout_storage opts key token s :
  storage (tm (setExpireEventTimeout opts key token s)) = storage (tm s).
Proof.
  unfold setExpireEventTimeout. cbn.
  apply clearExpireEventTimeout_storage.
Qed.

Lemma setExpireEventTimeout_trace opts key token s :
  trace (setExpireEventTimeout opts key token s) = trace s.
Proof.
  unfold setExpireEventTimeout. cbn.
  apply clearExpireEventTimeout_trace.
Qed.

Lemma setExpireEventTimeout_asm opts key token s :
  asm (setExpireEventTimeout opts key token s) = asm s.
Proof.
  unfold setExpireEventTimeout. cbn.
  apply clearExpireEventTimeout_asm.
Qed.

Lemma setExpireEventTimeout_renewPromise opts key token s :
  renewPromise (tm (setExpireEventTimeout opts key token s))
  = delete key (renewPromise (tm s)).
Proof.
  unfold setExpireEventTimeout. cbn.
  apply clearExpireEventTimeout_renewPromise.
Qed.

Lemma cancel_tm p s : tm (cancel p s) = tm s.
Proof.
  unfold cancel. destruct (recomputes (asm s) !! p) as [rc|]; [|reflexivity].
  destruct (is_done (rc_stage rc) || rc_isCanceled rc); reflexivity.
Qed.

Lemma cancel_trace p s : trace (cancel p s) = trace s.
Proof.
  unfold cancel. destruct (recomputes (asm s) !! p) as [rc|]; [|reflexivity].
  destruct (is_done (rc_stage rc) || rc_isCanceled rc); reflexivity.
Qed.

Lemma start_recompute_tm s : tm (start_recompute s) = tm s.
Proof. reflexivity. Qed.

Lemma start_recompute_trace s : trace (start_recompute s) = trace s.
Proof. reflexivity. Qed.

Lemma updateAuthState_tm s : tm (updateAuthState s) = tm s.
Proof.
  unfold updateAuthState.
  destruct (updateAuthStatePromise (asm s)) as [p|]; [|reflexivity].
  destruct (MAX_PROMISE_CANCEL_TIMES <=? canceledTimes (asm s))%nat;
    [reflexivity|].
  rewrite start_recompute_tm. apply cancel_tm.
Qed.

Lemma updateAuthState_trace s : trace (updateAuthState s) = trace s.
Proof.
  unfold updateAuthState.
  destruct (updateAuthStatePromise (asm s)) as [p|]; [|reflexivity].
  destruct (MAX_PROMISE_CANCEL_TIMES <=? canceledTimes (asm s))%nat;
    [reflexivity|].
  rewrite start_recompute_trace. apply cancel_trace.
Qed.

Lemma emitted_app a b : emitted (a ++ b) = emitted a ++ emitted b.
Proof. apply omap_app. Qed.

Lemma updateAuthState_emitted s :
  emitted (trace (updateAuthState s)) = emitted (trace s).
Proof. by rewrite updateAuthState_trace. Qed.

Lemma emit_tm e s : tm (emit e s) = tm s.
Proof.
  unfold emit. destruct e; try reflexivity; by rewrite updateAuthState_tm.
Qed.

Lemma emit_emitted e s : emitted (trace (emit e s)) = emitted (trace s) ++ [e].
Proof.
  unfold emit.
  destruct e; rewrite ?updateAuthState_emitted; cbn; by rewrite emitted_app.
Qed.

Lemma emit_trace e s : trace (emit e s) = trace s ++ [Emit e].
Proof. unfold emit. destruct e; by rewrite ?updateAuthState_trace. Qed.

Lemma emit_trace_prefix e s :
  exists rest, trace (emit e s) = trace s ++ Emit e :: rest.
Proof. exists []. apply emit_trace. Qed.

(** ** add *)

#[local] Arguments clearExpireEventTimeout : simpl never.
#[local] Arguments updateAuthState : simpl never.
#[local] Arguments emit : simpl never.

Lemma getStorage_eq s : getStorage s = (storage (tm s), log GetStorage s).
Proof. reflexivity. Qed.

(** [add] on a well-formed token: the two storage calls, then the timer. *)
Lemma add_accepted opts key token s :
  malformed token = false ->
  add opts key token s
  = (Normal tt,
     setExpireEventTimeout opts key token
       (setStorage (<[key := token]> (storage (tm s))) (log GetStorage s))).
Proof. intros Hok. unfold add. by rewrite getStorage_eq, Hok. Qed.

Lemma setExpireEventTimeout_expireTimeouts opts key token s :
  expireTimeouts (tm (setExpireEventTimeout opts key token s))
  = if String.eqb key "__proto__" then delete key (expireTimeouts (tm s))
    else <[key := next_handle (tm s)]> (expireTimeouts (tm s)).
Proof.
  unfold setExpireEventTimeout, assign. cbn.
  rewrite clearExpireEventTimeout_expireTimeouts,
    clearExpireEventTimeout_next_handle.
  destruct (String.eqb key "__proto__"); [reflexivity|].
  apply insert_delete_eq.
Qed.

(** C1: for every key and every well-formed token, [add] returns normally,
    writes the token into the token store and replaces the expiration timer
    of the key by a new one, which the timer table records under the key
    (under [__proto__] it records nothing); it makes exactly two calls, both
    to the storage adapter, so that no [added] event (indeed no event at
    all) is emitted. *)
Theorem add_writes_and_schedules_but_emits_nothing opts key token s :
  malformed token = false ->
  let s' := snd (add opts key token s) in
  fst (add opts key token s) = Normal tt
  /\ storage (tm s') = <[key := token]> (storage (tm s))
  /\ expireTimeouts (tm s')
     = (if String.eqb key "__proto__" then delete key (expireTimeouts (tm s))
        else <[key := next_handle (tm s)]> (expireTimeouts (tm s)))
  /\ timers (tm s')
     = <[next_handle (tm s) :=
           {| timer_delay :=
                timeout_delay (num_sub (getExpireTime opts token)
                                       (Some (clock_now (tm s))));
              timer_key := key; timer_token := token |}]>
         (match expireTimeouts (tm s) !! key with
          | Some h => delete h (timers (tm s))
          | None => timers (tm s)
          end)
  /\ trace s' = trace s ++ [GetStorage; SetStorage]
  /\ emitted (trace s') = emitted (trace s).
Proof.
  intros Hok s'. subst s'. rewrite (add_accepted _ _ _ _ Hok).
  cbn [fst snd].
  repeat split.
  - by rewrite setExpireEventTimeout_storage.
  - by rewrite setExpireEventTimeout_expireTimeouts.
  - unfold setExpireEventTimeout. cbn.
    rewrite clearExpireEventTimeout_timers,
      clearExpireEventTimeout_next_handle. cbn.
    reflexivity.
  - rewrite setExpireEventTimeout_trace. cbn. by rewrite <- app_assoc.
  - rewrite setExpireEventTimeout_trace. cbn.
    rewrite <- app_assoc, emitted_app. cbn. apply app_nil_r.
Qed.

Lemma add_writes_and_schedules_but_emits_nothing_witness :
  malformed sample_accessToken = false
  /\ storage (tm (snd (add DEFAULT_OPTIONS "k" sample_accessToken sample_sdk)))
       !! "k" = Some sample_accessToken
  /\ emitted (trace (snd (add DEFAULT_OPTIONS "k" sample_accessToken sample_sdk)))
     = [].
Proof.
  assert (H : malformed sample_accessToken = false) by reflexivity.
  pose proof (add_writes_and_schedules_but_emits_nothing
                DEFAULT_OPTIONS "k" sample_accessToken sample_sdk H)
    as (_ & Hs & _ & _ & _ & He).
  split; [exact H|]. split.
  - rewrite Hs. apply lookup_insert_eq.
  - rewrite He. reflexivity.
Defined.

Lemma is_zero_spec v : is_zero v = true <-> v = VNum 0.
Proof.
  destruct v; cbn; try (split; [discriminate | discriminate]).
  rewrite Z.eqb_eq. split; [by intros -> | by intros [= ->]].
Qed.

Lemma malformed_false_iff token :
  malformed token = false
  <-> isObject token = true
      /\ truthy (get_prop token "scopes") = true
      /\ (truthy (get_prop token "expiresAt") = true
          \/ get_prop token "expiresAt" = VNum 0)
      /\ (isIDToken token = true \/ isAccessToken token = true).
Proof.
  unfold malformed. rewrite <- is_zero_spec.
  destruct (isObject token), (truthy (get_prop token "scopes")),
    (truthy (get_prop token "expiresAt")),
    (is_zero (get_prop token "expiresAt")),
    (isIDToken token), (isAccessToken token); cbn; intuition discriminate.
Qed.

Lemma malformed_false_truthy token : malformed token = false -> truthy token = true.
Proof.
  intros H. apply malformed_false_iff in H as (Ho & _).
  by destruct token.
Qed.

(** C9 (as amended): [add] returns normally exactly for the objects that
    carry a truthy [scopes], an [expiresAt] that is truthy or exactly 0, and
    at least one of the two variants' raw token string; every other value
    makes it throw an [AuthSdkError] with the token manager (store, timers,
    renewal cache) and the auth state manager left as they were. *)
Theorem add_accepts_exactly_the_well_formed opts key token s :
  let well_formed :=
    isObject token = true
    /\ truthy (get_prop token "scopes") = true
    /\ (truthy (get_prop token "expiresAt") = true
        \/ get_prop token "expiresAt" = VNum 0)
    /\ (isIDToken token = true \/ isAccessToken token = true) in
  (fst (add opts key token s) = Normal tt <-> well_formed)
  /\ (~ well_formed ->
      (exists msg, fst (add opts key token s) = Throw (AuthSdkError msg))
      /\ tm (snd (add opts key token s)) = tm s
      /\ asm (snd (add opts key token s)) = asm s).
Proof.
  intros well_formed. subst well_formed.
  rewrite <- malformed_false_iff.
  unfold add. rewrite getStorage_eq.
  destruct (malformed token); cbn [fst snd]; split.
  - split; discriminate.
  - intros _. split; [eexists; reflexivity | split; reflexivity].
  - split; reflexivity.
  - intros H. by destruct H.
Qed.

Lemma add_accepts_exactly_the_well_formed_witness :
  fst (add DEFAULT_OPTIONS "k" sample_idToken sample_sdk) = Normal tt
  /\ tm (snd (add DEFAULT_OPTIONS "k" (VStr "token") sample_sdk))
     = tm sample_sdk.
Proof.
  split.
  - apply (add_accepts_exactly_the_well_formed
             DEFAULT_OPTIONS "k" sample_idToken sample_sdk).
    cbn. repeat split; auto.
  - apply (add_accepts_exactly_the_well_formed
             DEFAULT_OPTIONS "k" (VStr "token") sample_sdk).
    intros (H & _). discriminate H.
Defined.

(** C9 (as stated) fails: [add] accepts an object that satisfies both
    variant predicates, and one whose [expiresAt] is a string. *)
Lemma add_accepts_both_variants_and_string_expiry :
  (fst (add DEFAULT_OPTIONS "k" both_variants_token sample_sdk) = Normal tt
   /\ xorb (isIDToken both_variants_token)
           (isAccessToken both_variants_token) = false)
  /\ (fst (add DEFAULT_OPTIONS "k" string_expiry_token sample_sdk) = Normal tt
      /\ is_number (get_prop string_expiry_token "expiresAt") = false).
Proof. repeat split. Qed.

(** ** clear, closeSession, revokeAccessToken *)

Lemma clearExpireEventTimeout_fold_frame keys s :
  storage (tm (foldr clearExpireEventTimeout s keys)) = storage (tm s)
  /\ trace (foldr clearExpireEventTimeout s keys) = trace s
  /\ asm (foldr clearExpireEventTimeout s keys) = asm s.
Proof.
  induction keys as [|k keys (IH1 & IH2 & IH3)]; cbn [foldr]; [done|].
  rewrite clearExpireEventTimeout_storage, clearExpireEventTimeout_trace,
    clearExpireEventTimeout_asm. done.
Qed.

Lemma clear_storage s : storage (tm (clear s)) = ∅.
Proof. reflexivity. Qed.

Lemma clear_trace s : trace (clear s) = trace s ++ [ClearStorage].
Proof.
  unfold clear, clearStorage, clearExpireEventTimeoutAll. cbn.
  by destruct (clearExpireEventTimeout_fold_frame
                 (List.map fst (map_to_list (expireTimeouts (tm s)))) s)
    as (_ & -> & _).
Qed.

Lemma clear_asm s : asm (clear s) = asm s.
Proof.
  unfold clear, clearStorage, clearExpireEventTimeoutAll. cbn.
  by destruct (clearExpireEventTimeout_fold_frame
                 (List.map fst (map_to_list (expireTimeouts (tm s)))) s)
    as (_ & _ & ->).
Qed.

#[local] Arguments clear : simpl never.
#[local] Arguments remove : simpl never.

Lemma session_not_found_spec e :
  session_not_found e = true
  <-> err_name e = "AuthApiError" /\ err_errorCode e = Some "E0000007".
Proof.
  unfold session_not_found. rewrite andb_true_iff, String.eqb_eq.
  destruct (err_errorCode e) as [code|].
  - rewrite String.eqb_eq. split; intros [H1 H2]; split; congruence.
  - split; intros [H1 H2]; discriminate.
Qed.

(** C8: [closeSession] wipes the token store, then calls the provider's
    session close, and nothing else.  It resolves exactly when that call
    resolves or fails with the error named [AuthApiError] whose code is
    [E0000007]; any other failure is the failure of [closeSession],
    unchanged. *)
Theorem closeSession_absorbs_only_session_not_found closed s :
  let r := fst (closeSession closed s) in
  let s' := snd (closeSession closed s) in
  storage (tm s') = ∅
  /\ trace s' = trace s ++ [ClearStorage; SessionClose]
  /\ ((exists v, r = Fulfilled v)
      <-> (exists v, closed = Fulfilled v)
          \/ (exists e, closed = Failed e
                        /\ err_name e = "AuthApiError"
                        /\ err_errorCode e = Some "E0000007"))
  /\ (forall e, closed = Failed e ->
        ~ (err_name e = "AuthApiError" /\ err_errorCode e = Some "E0000007") ->
        r = Failed e).
Proof.
  intros r s'. subst r s'. unfold closeSession.
  split; [|split; [|split]].
  - destruct closed as [v|e]; [|destruct (session_not_found e)]; reflexivity.
  - assert (trace (log SessionClose (clear s))
            = trace s ++ [ClearStorage; SessionClose]) as Ht.
    { cbn. rewrite clear_trace. by rewrite <- app_assoc. }
    destruct closed as [v|e]; [|destruct (session_not_found e)]; exact Ht.
  - destruct closed as [v|e].
    + split; [intros _; left; by exists v | intros _; by exists v].
    + destruct (session_not_found e) eqn:He; cbn [fst].
      * split; [|intros _; by eexists].
        intros _. right. exists e. split; [done|].
        by apply session_not_found_spec.
      * split; [intros [v [=]]|].
        intros [[v [=]] | (e' & [= <-] & Hn)].
        apply session_not_found_spec in Hn. congruence.
  - intros e -> Hn.
    destruct (session_not_found e) eqn:He; [|reflexivity].
    apply session_not_found_spec in He. contradiction.
Qed.

Lemma closeSession_absorbs_only_session_not_found_witness :
  fst (closeSession
         (Failed {| err_name := "AuthApiError"; err_errorCode := Some "E0000008";
                    err_message := "unknown"; err_tokenKey := None;
                    err_accessToken := None |}) sample_sdk)
  = Failed {| err_name := "AuthApiError"; err_errorCode := Some "E0000008";
              err_message := "unknown"; err_tokenKey := None;
              err_accessToken := None |}.
Proof.
  apply (closeSession_absorbs_only_session_not_found
           (Failed {| err_name := "AuthApiError";
                      err_errorCode := Some "E0000008";
                      err_message := "unknown"; err_tokenKey := None;
                      err_accessToken := None |}) sample_sdk).
  - reflexivity.
  - cbn. intros [_ H]. discriminate H.
Defined.

Lemma remove_storage key s :
  storage (tm (remove key s)) = delete key (storage (tm s)).
Proof.
  unfold remove, emitRemoved. rewrite getStorage_eq, emit_tm. cbn.
  by rewrite clearExpireEventTimeout_storage.
Qed.

Lemma remove_trace key s :
  exists rest,
    trace (remove key s)
    = trace s ++ [GetStorage; SetStorage; Emit (Removed key)] ++ rest.
Proof.
  unfold remove, emitRemoved. rewrite getStorage_eq.
  match goal with
  | |- context [emit ?e ?x] => destruct (emit_trace_prefix e x) as [rest ->]
  end.
  exists rest. cbn. rewrite clearExpireEventTimeout_trace.
  by rewrite <- !app_assoc.
Qed.

Lemma revokeAccessToken_truthy accessToken revoked s :
  truthy accessToken = true ->
  revokeAccessToken accessToken revoked s
  = (revoked, log (TokenRevoke accessToken) s).
Proof.
  intros Ht. unfold revokeAccessToken. rewrite Ht. cbn. by rewrite Ht.
Qed.

(** C10: called with a token (any truthy value), [revokeAccessToken] makes
    one call, the provider's revoke with that token, settles as that call
    does and leaves the token manager and the auth state manager as they
    were: the store is neither read nor written.  Called without a token it
    first reads the store, then removes the stored access token. *)
Theorem revokeAccessToken_supplied_token_leaves_store accessToken revoked s :
  (truthy accessToken = true ->
   revokeAccessToken accessToken revoked s
   = (revoked, log (TokenRevoke accessToken) s)
   /\ tm (snd (revokeAccessToken accessToken revoked s)) = tm s
   /\ asm (snd (revokeAccessToken accessToken revoked s)) = asm s
   /\ trace (snd (revokeAccessToken accessToken revoked s))
      = trace s ++ [TokenRevoke accessToken])
  /\ (accessToken = VUndefined ->
      storage (tm (snd (revokeAccessToken accessToken revoked s)))
      = delete ACCESS_TOKEN_STORAGE_KEY (storage (tm s))
      /\ exists rest,
           trace (snd (revokeAccessToken accessToken revoked s))
           = trace s
             ++ [GetStorage; GetStorage; SetStorage;
                 Emit (Removed ACCESS_TOKEN_STORAGE_KEY)] ++ rest).
Proof.
  split.
  - intros Ht. rewrite (revokeAccessToken_truthy _ _ _ Ht). repeat split.
  - intros ->. unfold revokeAccessToken. cbn [truthy negb].
    unfold get. rewrite getStorage_eq.
    set (stored := default VUndefined
                     (storage (tm s) !! ACCESS_TOKEN_STORAGE_KEY)).
    destruct (remove_trace ACCESS_TOKEN_STORAGE_KEY (log GetStorage s))
      as [rest Hr].
    destruct (negb (truthy stored)); cbn [fst snd].
    + split; [by rewrite remove_storage|].
      exists rest. rewrite Hr. cbn. by rewrite <- !app_assoc.
    + split; [cbn; by rewrite remove_storage|].
      exists (rest ++ [TokenRevoke stored]). cbn. rewrite Hr. cbn.
      by rewrite <- !app_assoc.
Qed.

Lemma revokeAccessToken_supplied_token_leaves_store_witness :
  trace (snd (revokeAccessToken sample_accessToken (Fulfilled VUndefined)
                                sample_sdk))
  = trace sample_sdk ++ [TokenRevoke sample_accessToken]
  /\ storage (tm (snd (revokeAccessToken VUndefined (Fulfilled VUndefined)
                                         sample_sdk)))
     = delete ACCESS_TOKEN_STORAGE_KEY (storage (tm sample_sdk)).
Proof.
  split.
  - apply (revokeAccessToken_supplied_token_leaves_store
             sample_accessToken (Fulfilled VUndefined) sample_sdk).
    reflexivity.
  - apply (revokeAccessToken_supplied_token_leaves_store
             VUndefined (Fulfilled VUndefined) sample_sdk).
    reflexivity.
Defined.

(** ** renew *)

Lemma get_eq key s :
  get key s = (default VUndefined (storage (tm s) !! key), log GetStorage s).
Proof. reflexivity. Qed.

Lemma onRenewSettled_eq opts p r provider s :
  renewals (tm s) !! p = Some r ->
  onRenewSettled opts p provider s
  = on_tm (fun t =>
      set_promises_settled
        (<[p := fst (renew_chain opts (renewal_key r) (renewal_token r)
                                 provider s)]> (promises_settled t))
        (set_renewals (delete p (renewals t)) t))
      (snd (renew_chain opts (renewal_key r) (renewal_token r) provider s)).
Proof.
  intros Hr. unfold onRenewSettled. rewrite Hr.
  by destruct (renew_chain opts (renewal_key r) (renewal_token r) provider s).
Qed.

Lemma removes_token_spec e :
  removes_token e = true
  <-> err_name e = "OAuthError" \/ err_name e = "AuthSdkError".
Proof.
  unfold removes_token. by rewrite orb_true_iff, !String.eqb_eq.
Qed.

Lemma renew_chain_failed opts key token err s :
  renew_chain opts key token (Failed err) s
  = if removes_token err then
      let err' := tag_error key (truthy (get_prop token "accessToken")) err in
      (Failed err', renew_finally key (emitError err' (remove key s)))
    else (Failed err, renew_finally key s).
Proof.
  unfold renew_chain, renew_catch. by destruct (removes_token err).
Qed.

(** C5: when the provider call of a renewal of [key] fails with an error
    named [OAuthError] or [AuthSdkError], the key is deleted from the token
    store and the events emitted are [removed(key)] followed by [error] with
    the failure, which now carries [key] and whether the token read by
    [renew] has an [accessToken]; the promise of [renew] rejects with it.
    With any other error the promise rejects with the error as it came, and
    there is no call at all (no storage call, no event): the store, the
    timers and the auth state manager are as before. *)
Theorem renew_failure_removes_token_only_for_known_errors opts p r err s :
  renewals (tm s) !! p = Some r ->
  let key := renewal_key r in
  let s' := onRenewSettled opts p (Failed err) s in
  (err_name err = "OAuthError" \/ err_name err = "AuthSdkError" ->
   exists err',
     err' = tag_error key (truthy (get_prop (renewal_token r) "accessToken")) err
     /\ err_tokenKey err' = Some key
     /\ err_accessToken err'
        = Some (truthy (get_prop (renewal_token r) "accessToken"))
     /\ storage (tm s') = delete key (storage (tm s))
     /\ emitted (trace s') = emitted (trace s) ++ [Removed key; Error err']
     /\ promises_settled (tm s') !! p = Some (Failed err'))
  /\ (err_name err <> "OAuthError" -> err_name err <> "AuthSdkError" ->
      storage (tm s') = storage (tm s)
      /\ trace s' = trace s
      /\ expireTimeouts (tm s') = expireTimeouts (tm s)
      /\ timers (tm s') = timers (tm s)
      /\ asm s' = asm s
      /\ promises_settled (tm s') !! p = Some (Failed err)).
Proof.
  intros Hr key s'. subst key s'.
  rewrite (onRenewSettled_eq _ _ _ _ _ Hr), renew_chain_failed.
  split.
  - intros Hn. apply removes_token_spec in Hn. rewrite Hn.
    eexists. split; [reflexivity|]. cbn [fst snd].
    repeat split.
    + cbn. unfold emitError. by rewrite emit_tm, remove_storage.
    + cbn. unfold emitError. rewrite emit_emitted.
      unfold remove, emitRemoved. rewrite getStorage_eq, emit_emitted. cbn.
      rewrite clearExpireEventTimeout_trace.
      rewrite !emitted_app. cbn. rewrite !app_nil_r.
      by rewrite <- app_assoc.
    + cbn. apply lookup_insert_eq.
  - intros H1 H2.
    destruct (removes_token err) eqn:Hn.
    { apply removes_token_spec in Hn. tauto. }
    cbn. repeat split. apply lookup_insert_eq.
Qed.

Lemma renew_failure_removes_token_only_for_known_errors_witness :
  let s := snd (renew "k" (snd (add DEFAULT_OPTIONS "k" sample_accessToken
                                    sample_sdk))) in
  let oauth := {| err_name := "OAuthError"; err_errorCode := Some "invalid_grant";
                  err_message := "expired"; err_tokenKey := None;
                  err_accessToken := None |} in
  let network := {| err_name := "AuthApiError"; err_errorCode := None;
                    err_message := "offline"; err_tokenKey := None;
                    err_accessToken := None |} in
  storage (tm (onRenewSettled DEFAULT_OPTIONS 1 (Failed oauth) s)) !! "k" = None
  /\ trace (onRenewSettled DEFAULT_OPTIONS 1 (Failed network) s) = trace s.
Proof.
  intros s oauth network.
  assert (Hr : renewals (tm s) !! 1%nat
               = Some {| renewal_key := "k";
                         renewal_token := sample_accessToken |})
    by (vm_compute; reflexivity).
  destruct (renew_failure_removes_token_only_for_known_errors
              DEFAULT_OPTIONS 1 _ oauth s Hr) as [H1 _].
  destruct (renew_failure_removes_token_only_for_known_errors
              DEFAULT_OPTIONS 1 _ network s Hr) as [_ H2].
  split.
  - destruct (H1 (or_introl eq_refl)) as (e' & _ & _ & _ & Hs & _).
    rewrite Hs. apply lookup_delete_eq.
  - apply H2; cbn; discriminate.
Defined.

#[local] Arguments add : simpl never.

Lemma renew_chain_fulfilled opts key token fresh s :
  malformed fresh = false ->
  renew_chain opts key token (Fulfilled fresh) s
  = let old := default VUndefined (storage (tm s) !! key) in
    if truthy old then
      (Fulfilled fresh,
       renew_finally key
         (emit (Renewed key fresh old)
               (snd (add opts key fresh (log GetStorage s)))))
    else (Fulfilled VUndefined, renew_finally key (log GetStorage s)).
Proof.
  intros Hok. unfold renew_chain, renew_then. rewrite get_eq. cbn zeta.
  destruct (truthy (default VUndefined (storage (tm s) !! key)));
    cbn [negb]; [|reflexivity].
  unfold add at 1. rewrite getStorage_eq, Hok.
  unfold add. rewrite getStorage_eq, Hok. reflexivity.
Qed.

(** C6: when the provider call of a renewal of [key] resolves with a
    well-formed token, and the store still holds a token under [key], the
    fresh token is written over it by [add] (which also replaces the
    expiration timer: the timer table names the new one, unless the key is
    [__proto__]), exactly one event, [renewed(key, fresh, old)], is
    emitted, and the promise of [renew] resolves with the fresh token.  When
    the store holds nothing under [key] any more, the only call made is the
    read of the store: the store is not written, no event is emitted, and
    the promise resolves with [undefined]. *)
Theorem renew_success_replaces_token_only_if_still_stored
    opts p r fresh s :
  renewals (tm s) !! p = Some r ->
  malformed fresh = false ->
  let key := renewal_key r in
  let old := default VUndefined (storage (tm s) !! key) in
  let s' := onRenewSettled opts p (Fulfilled fresh) s in
  (truthy old = true ->
   storage (tm s') = <[key := fresh]> (storage (tm s))
   /\ (key <> "__proto__" ->
       expireTimeouts (tm s') !! key = Some (next_handle (tm s)))
   /\ emitted (trace s') = emitted (trace s) ++ [Renewed key fresh old]
   /\ promises_settled (tm s') !! p = Some (Fulfilled fresh))
  /\ (truthy old = false ->
      storage (tm s') = storage (tm s)
      /\ trace s' = trace s ++ [GetStorage]
      /\ emitted (trace s') = emitted (trace s)
      /\ promises_settled (tm s') !! p = Some (Fulfilled VUndefined)).
Proof.
  intros Hr Hok key old s'. subst key old s'.
  rewrite (onRenewSettled_eq _ _ _ _ _ Hr), (renew_chain_fulfilled _ _ _ _ _ Hok).
  cbn zeta.
  rewrite (add_accepted _ _ _ _ Hok). cbn [snd].
  split; intros Ht; rewrite Ht; cbn [fst snd].
  - split; [|split; [|split]].
    + cbn. by rewrite emit_tm, setExpireEventTimeout_storage.
    + intros Hk. apply String.eqb_neq in Hk. cbn.
      by rewrite emit_tm, setExpireEventTimeout_expireTimeouts, Hk,
        lookup_insert_eq.
    + cbn. rewrite emit_emitted, setExpireEventTimeout_trace. cbn.
      rewrite !emitted_app. cbn. by rewrite !app_nil_r.
    + cbn. apply lookup_insert_eq.
  - repeat split.
    + cbn. rewrite emitted_app. cbn. by rewrite app_nil_r.
    + cbn. apply lookup_insert_eq.
Qed.

Lemma renew_success_replaces_token_only_if_still_stored_witness :
  let s := snd (renew "k" (snd (add DEFAULT_OPTIONS "k" sample_accessToken
                                    sample_sdk))) in
  storage (tm (onRenewSettled DEFAULT_OPTIONS 1 (Fulfilled sample_idToken) s))
    !! "k" = Some sample_idToken
  /\ storage (tm (onRenewSettled DEFAULT_OPTIONS 1 (Fulfilled sample_idToken)
                                 (remove "k" s))) !! "k" = None.
Proof.
  intros s.
  assert (Hr : renewals (tm s) !! 1%nat
               = Some {| renewal_key := "k";
                         renewal_token := sample_accessToken |})
    by (vm_compute; reflexivity).
  assert (Hr' : renewals (tm (remove "k" s)) !! 1%nat
                = Some {| renewal_key := "k";
                          renewal_token := sample_accessToken |})
    by (vm_compute; reflexivity).
  assert (Hok : malformed sample_idToken = false) by reflexivity.
  destruct (renew_success_replaces_token_only_if_still_stored
              DEFAULT_OPTIONS 1 _ sample_idToken s Hr Hok) as [H1 _].
  destruct (renew_success_replaces_token_only_if_still_stored
              DEFAULT_OPTIONS 1 _ sample_idToken (remove "k" s) Hr' Hok)
    as [_ H2].
  split.
  - destruct H1 as (Hs & _); [vm_compute; reflexivity|].
    rewrite Hs. apply lookup_insert_eq.
  - destruct H2 as (Hs & _); [vm_compute; reflexivity|].
    rewrite Hs, remove_storage. apply lookup_delete_eq.
Defined.

Lemma renew_cached key p s :
  renewPromise (tm s) !! key = Some p -> renew key s = (Promise p, s).
Proof. intros H. unfold renew. by rewrite H. Qed.

Lemma renew_inherited key s :
  renewPromise (tm s) !! key = None -> inherited key = true ->
  renew key s = (Inherited key, s).
Proof. intros Hc Hi. unfold renew. by rewrite Hc, Hi. Qed.

Lemma renew_fresh key s :
  renewPromise (tm s) !! key = None ->
  inherited key = false ->
  truthy (default VUndefined (storage (tm s) !! key)) = true ->
  let token := default VUndefined (storage (tm s) !! key) in
  let p := next_handle (tm s) in
  fst (renew key s) = Promise p
  /\ trace (snd (renew key s)) = trace s ++ [GetStorage; TokenRenew token]
  /\ renewPromise (tm (snd (renew key s))) !! key = Some p
  /\ renewals (tm (snd (renew key s))) !! p
     = Some {| renewal_key := key; renewal_token := token |}.
Proof.
  intros Hc Hi Ht. unfold renew. rewrite Hc, Hi, get_eq. cbn zeta. rewrite Ht.
  cbn [negb]. unfold new_promise. cbn.
  rewrite clearExpireEventTimeout_next_handle. cbn.
  rewrite clearExpireEventTimeout_trace, clearExpireEventTimeout_renewals.
  cbn. rewrite !lookup_insert_eq, <- app_assoc. done.
Qed.

Lemma renew_chain_clears_cache opts key token provider s :
  renewPromise (tm (snd (renew_chain opts key token provider s))) !! key = None.
Proof.
  unfold renew_chain.
  destruct (match provider with
            | Fulfilled freshToken => renew_then opts key freshToken s
            | Failed err => (Failed err, s)
            end) as [o1 s1].
  destruct (match o1 with
            | Fulfilled v => (Fulfilled v, s1)
            | Failed err => renew_catch key token err s1
            end) as [o2 s2].
  cbn. apply lookup_delete_eq.
Qed.

(** C2 (as amended): while the renewal cache holds a promise for [key],
    [renew(key)] hands back that very promise and does nothing else, in
    particular it makes no provider call.  For a key that names no member of
    [Object.prototype], a [renew(key)] that finds no cached promise and a
    stored token makes one provider call and caches the promise it returns,
    so that the next [renew(key)] returns the same one.  When the provider
    call of a renewal of [key] settles, with success or with failure, the
    callbacks settle the promise once, with one outcome, and the cache holds
    no promise for [key] afterwards.  The cache loses the promise of [key]
    earlier when a well-formed token is added under [key]: the [renew(key)]
    that follows the [add] calls the provider again, with the added token,
    and returns a promise created after every promise there was, whether or
    not an earlier renewal has settled. *)
Theorem renew_returns_cached_promise_until_settled opts key s :
  (forall p,
     renewPromise (tm s) !! key = Some p -> renew key s = (Promise p, s))
  /\ (renewPromise (tm s) !! key = None ->
      inherited key = false ->
      truthy (default VUndefined (storage (tm s) !! key)) = true ->
      exists p,
        let s1 := snd (renew key s) in
        fst (renew key s) = Promise p
        /\ renew_calls (trace s1)
           = renew_calls (trace s)
               ++ [default VUndefined (storage (tm s) !! key)]
        /\ outstanding key p s1
        /\ renew key s1 = (Promise p, s1))
  /\ (forall p provider,
        outstanding key p s ->
        let s' := onRenewSettled opts p provider s in
        renewPromise (tm s') !! key = None
        /\ (exists o, promises_settled (tm s') !! p = Some o)
        /\ ~ outstanding key p s')
  /\ (forall token,
        malformed token = false ->
        let s' := snd (add opts key token s) in
        renewPromise (tm s') !! key = None
        /\ (inherited key = false ->
            exists q,
              let s2 := snd (renew key s') in
              fst (renew key s') = Promise q
              /\ renew_calls (trace s2) = renew_calls (trace s) ++ [token]
              /\ outstanding key q s2
              /\ (next_handle (tm s) < q)%nat)).
Proof.
  split; [|split; [|split]].
  - intros p. apply renew_cached.
  - intros Hc Hi Ht.
    destruct (renew_fresh key s Hc Hi Ht) as (Hp & Htr & Hrp & Hrn).
    exists (next_handle (tm s)). cbn zeta.
    split; [exact Hp|]. split; [|split].
    + rewrite Htr. unfold renew_calls. rewrite omap_app. reflexivity.
    + eexists. exact Hrn.
    + by apply renew_cached.
  - intros p provider [token Hr] s'. subst s'.
    rewrite (onRenewSettled_eq _ _ _ _ _ Hr). cbn.
    split; [apply renew_chain_clears_cache|]. split.
    + eexists. apply lookup_insert_eq.
    + intros [token' H]. cbn in H. by rewrite lookup_delete_eq in H.
  - intros token Hok s'. subst s'.
    rewrite (add_accepted _ _ _ _ Hok). cbn [snd].
    set (s' := setExpireEventTimeout opts key token _).
    assert (Hc : renewPromise (tm s') !! key = None).
    { subst s'. rewrite setExpireEventTimeout_renewPromise.
      apply lookup_delete_eq. }
    split; [exact Hc|]. intros Hi.
    assert (Hst : storage (tm s') = <[key := token]> (storage (tm s))).
    { subst s'. by rewrite setExpireEventTimeout_storage. }
    assert (Ht : truthy (default VUndefined (storage (tm s') !! key)) = true).
    { rewrite Hst, lookup_insert_eq. cbn.
      by apply malformed_false_truthy. }
    destruct (renew_fresh key s' Hc Hi Ht) as (Hp & Htr & Hrp & Hrn).
    exists (next_handle (tm s')). cbn zeta.
    split; [exact Hp|]. split; [|split].
    + rewrite Htr, Hst, lookup_insert_eq. cbn [default].
      subst s'. rewrite setExpireEventTimeout_trace. cbn.
      unfold renew_calls. rewrite <- !app_assoc, !omap_app. cbn.
      reflexivity.
    + eexists. exact Hrn.
    + subst s'. unfold setExpireEventTimeout. cbn.
      rewrite clearExpireEventTimeout_next_handle. cbn. lia.
Qed.

Lemma renew_returns_cached_promise_until_settled_witness :
  let s := snd (add DEFAULT_OPTIONS "k" sample_accessToken sample_sdk) in
  let s1 := snd (renew "k" s) in
  renew "k" s1 = (Promise 1, s1)
  /\ renewPromise
       (tm (onRenewSettled DEFAULT_OPTIONS 1 (Fulfilled sample_idToken) s1))
       !! "k" = None
  /\ renew_calls
       (trace (snd (renew "k" (snd (add DEFAULT_OPTIONS "k" sample_idToken
                                        s1)))))
     = [sample_accessToken; sample_idToken].
Proof.
  intros s s1.
  destruct (renew_returns_cached_promise_until_settled
              DEFAULT_OPTIONS "k" s) as (_ & H2 & _).
  destruct (renew_returns_cached_promise_until_settled
              DEFAULT_OPTIONS "k" s1) as (_ & _ & H3 & H4).
  split; [|split].
  - destruct H2 as (p & Hp & _ & _ & H); [vm_compute; reflexivity ..|].
    refine (eq_trans H _). f_equal.
    refine (eq_trans (eq_sym Hp) _). vm_compute. reflexivity.
  - destruct (H3 1%nat (Fulfilled sample_idToken)) as (H & _); [|exact H].
    exists sample_accessToken. vm_compute. reflexivity.
  - destruct (H4 sample_idToken) as (_ & H); [reflexivity|].
    destruct H as (q & _ & H & _); [reflexivity|].
    refine (eq_trans H _). vm_compute. reflexivity.
Defined.

(** C2 (as stated) fails: [add] drops the cached promise of its key, so a
    [renew] that follows it, while the first renewal is still outstanding,
    returns another promise and calls the provider a second time. *)
Lemma renew_after_add_calls_provider_again :
  let s := run DEFAULT_OPTIONS
               [CallAdd "k" sample_accessToken; CallRenew "k";
                CallAdd "k" sample_accessToken] sample_sdk in
  reachable DEFAULT_OPTIONS s
  /\ outstanding "k" 1 s
  /\ fst (renew "k" s) <> Promise 1
  /\ renew_calls (trace (snd (renew "k" s)))
     = [sample_accessToken; sample_accessToken].
Proof.
  intros s. split; [|split; [|split]].
  - exists ∅, 100, None. do 2 eexists. split; reflexivity.
  - exists sample_accessToken. vm_compute. reflexivity.
  - vm_compute. discriminate.
  - vm_compute. reflexivity.
Qed.

(** ** signOut *)

#[local] Arguments revokeAccessToken : simpl never.
#[local] Arguments closeSession : simpl never.
#[local] Arguments logoutUri : simpl never.

Lemma logoutUri_eq opts idToken uri state hint :
  get_prop idToken "idToken" = VStr hint ->
  logoutUri opts idToken uri state
  = let base :=
      logoutUrl opts +:+ "?id_token_hint=" +:+ encodeURIComponent hint
        +:+ "&post_logout_redirect_uri=" +:+ encodeURIComponent uri in
    match state with
    | Some st =>
        if String.eqb st "" then base
        else base +:+ "&state=" +:+ encodeURIComponent st
    | None => base
    end.
Proof.
  intros Hh. unfold logoutUri. rewrite Hh. cbn [to_string].
  destruct state as [st|]; [|reflexivity].
  by destruct (String.eqb st "").
Qed.

Lemma logs_trace es s : trace (logs es s) = trace s ++ es.
Proof.
  revert s. induction es as [|e es IH]; intros s; cbn.
  - by rewrite app_nil_r.
  - unfold logs in IH. rewrite IH. cbn. by rewrite <- app_assoc.
Qed.

(** C7 (as amended): take a [signOut] call whose id token, the option or
    else the stored one, is present and carries the raw token string [hint].
    If the revocation is skipped or succeeds, the calls made are, in order:
    the store reads for the tokens not supplied, the wiping of the store,
    the provider's revoke if an access token is to be revoked, and one
    navigation, [location.assign], to
    [logoutUrl?id_token_hint=enc(hint)&post_logout_redirect_uri=enc(uri)]
    followed by [&state=enc(state)] exactly when a non-empty state was
    supplied; the session close is never called.  If the revocation fails,
    [signOut] fails with the same error and does not navigate. *)
Theorem signOut_with_id_token_redirects_to_logout
    opts window options revoked closed s hint :
  let revoke :=
    match opt_revokeAccessToken options with
    | Some false => false
    | _ => true
    end in
  let idToken :=
    if is_undefined (opt_idToken options)
    then default VUndefined (storage (tm s) !! ID_TOKEN_STORAGE_KEY)
    else opt_idToken options in
  let accessToken :=
    if revoke && is_undefined (opt_accessToken options)
    then default VUndefined (storage (tm s) !! ACCESS_TOKEN_STORAGE_KEY)
    else opt_accessToken options in
  let uri :=
    or_else (opt_postLogoutRedirectUri options)
      (or_else (postLogoutRedirectUriOption opts) (location_origin window)) in
  let reads :=
    (if is_undefined (opt_idToken options) then [GetStorage] else [])
    ++ (if revoke && is_undefined (opt_accessToken options)
        then [GetStorage] else []) in
  let base :=
    logoutUrl opts +:+ "?id_token_hint=" +:+ encodeURIComponent hint
      +:+ "&post_logout_redirect_uri=" +:+ encodeURIComponent uri in
  let url :=
    match opt_state options with
    | Some st =>
        if String.eqb st "" then base
        else base +:+ "&state=" +:+ encodeURIComponent st
    | None => base
    end in
  let r := fst (signOut opts window options revoked closed s) in
  let s' := snd (signOut opts window options revoked closed s) in
  truthy idToken = true ->
  get_prop idToken "idToken" = VStr hint ->
  (revoke && truthy accessToken = false \/ (exists v, revoked = Fulfilled v) ->
   r = Fulfilled VUndefined
   /\ trace s'
      = trace s ++ reads ++ [ClearStorage]
          ++ (if revoke && truthy accessToken
              then [TokenRevoke accessToken] else [])
          ++ [LocationAssign url])
  /\ (revoke && truthy accessToken = true ->
      forall e, revoked = Failed e ->
      r = Failed e
      /\ trace s'
         = trace s ++ reads ++ [ClearStorage; TokenRevoke accessToken]).
Proof.
  intros revoke idToken accessToken uri reads base url r s' Hid Hhint.
  assert (Hsplit :
    signOut opts window options revoked closed s
    = let s3 := clear (logs reads s) in
      let rs4 :=
        if revoke && truthy accessToken
        then (revoked, log (TokenRevoke accessToken) s3)
        else (Fulfilled VUndefined, s3) in
      match fst rs4 with
      | Failed e => (Failed e, snd rs4)
      | Fulfilled _ => (Fulfilled VUndefined, log (LocationAssign url) (snd rs4))
      end).
  { unfold signOut. fold revoke.
    subst idToken accessToken reads url base uri.
    revert Hid Hhint.
    destruct (is_undefined (opt_idToken options)),
      (revoke && is_undefined (opt_accessToken options)); cbn zeta;
      repeat (rewrite get_eq; cbn [log tm]);
      intros Hid Hhint; rewrite Hid; cbn [negb];
      rewrite (logoutUri_eq _ _ _ _ _ Hhint); cbn zeta;
      match goal with
      | |- context [revoke && truthy ?t] =>
          destruct (revoke && truthy t) eqn:Hrv
      end;
      try (apply andb_true_iff in Hrv as [_ Hrv];
           rewrite (revokeAccessToken_truthy _ _ _ Hrv));
      cbn [fst snd];
      try destruct revoked; reflexivity. }
  subst r s'. rewrite Hsplit. clear Hsplit. cbn zeta.
  destruct (revoke && truthy accessToken) eqn:Hrv; cbn [fst snd].
  - split.
    + intros [[=] | [v ->]]. cbn. split; [reflexivity|].
      rewrite clear_trace, logs_trace. cbn. by rewrite <- !app_assoc.
    + intros _ e ->. cbn. split; [reflexivity|].
      rewrite clear_trace, logs_trace. cbn. by rewrite <- !app_assoc.
  - split; [|intros [=]].
    intros _. cbn. split; [reflexivity|].
    rewrite clear_trace, logs_trace. cbn. by rewrite <- !app_assoc.
Qed.

Lemma signOut_with_id_token_redirects_to_logout_witness :
  trace (snd (signOut sample_options sample_window (only_state (Some "a=b"))
                      (Fulfilled VUndefined) (Fulfilled VUndefined)
                      signed_in_sdk))
  = trace signed_in_sdk
    ++ [GetStorage; GetStorage; ClearStorage; TokenRevoke sample_accessToken;
        LocationAssign
          "https://idp.example/oauth2/v1/logout?id_token_hint=raw%20id%2Ftoken&post_logout_redirect_uri=https%3A%2F%2Fapp.example&state=a%3Db"].
Proof.
  assert (Hid : truthy (default VUndefined
                          (storage (tm signed_in_sdk) !! ID_TOKEN_STORAGE_KEY))
                = true) by (vm_compute; reflexivity).
  assert (Hh : get_prop (default VUndefined
                           (storage (tm signed_in_sdk) !! ID_TOKEN_STORAGE_KEY))
                        "idToken" = VStr "raw id/token")
    by (vm_compute; reflexivity).
  destruct (signOut_with_id_token_redirects_to_logout
              sample_options sample_window (only_state (Some "a=b"))
              (Fulfilled VUndefined) (Fulfilled VUndefined) signed_in_sdk
              "raw id/token" Hid Hh) as [H _].
  specialize (H (or_intror (ex_intro _ VUndefined eq_refl))).
  destruct H as [_ Ht].
  rewrite Ht. f_equal.
Defined.

(** C7 (as stated) fails: with the empty string supplied as [state], the
    redirect carries no [&state=] parameter. *)
Lemma signOut_omits_empty_state :
  navigations
    (trace (snd (signOut sample_options sample_window (only_state (Some ""))
                         (Fulfilled VUndefined) (Fulfilled VUndefined)
                         signed_in_sdk)))
  = [LocationAssign
       (logoutUri_as_specified (logoutUrl sample_options) "raw id/token"
                               "https://app.example" None)]
  /\ logoutUri_as_specified (logoutUrl sample_options) "raw id/token"
                            "https://app.example" None
     <> logoutUri_as_specified (logoutUrl sample_options) "raw id/token"
                               "https://app.example" (Some "").
Proof.
  split.
  - vm_compute. reflexivity.
  - vm_compute. discriminate.
Qed.

(** ** updateAuthState *)

Lemma set_stage_lookup p st a rc :
  recomputes a !! p = Some rc ->
  recomputes (set_stage p st a) !! p
  = Some {| rc_stage := st; rc_isCanceled := rc_isCanceled rc |}.
Proof. intros H. unfold set_stage. rewrite H. cbn. apply lookup_insert_eq. Qed.

Lemma set_stage_frame p st a :
  authState (set_stage p st a) = authState a
  /\ updateAuthStatePromise (set_stage p st a) = updateAuthStatePromise a
  /\ canceledTimes (set_stage p st a) = canceledTimes a
  /\ next_recompute (set_stage p st a) = next_recompute a
  /\ next_ref (set_stage p st a) = next_ref a.
Proof. unfold set_stage. by destruct (recomputes a !! p). Qed.

(** What the first callback does to a recomputation that was not
    canceled. *)
Lemma onTokens_uncanceled opts p accessToken idToken s :
  recomputes (asm s) !! p
  = Some {| rc_stage := AwaitTokens accessToken idToken;
            rc_isCanceled := false |} ->
  let accessToken' := demote opts s accessToken in
  let idToken' := demote opts s idToken in
  let s1 := onTokens opts p s in
  recomputes (asm s1) !! p
  = Some {| rc_stage :=
              AwaitAuth accessToken' idToken'
                (if isAuthenticatedOption opts then None
                 else Some (truthy accessToken' && truthy idToken'));
            rc_isCanceled := false |}
  /\ tm s1 = tm s
  /\ authState (asm s1) = authState (asm s)
  /\ next_ref (asm s1) = next_ref (asm s)
  /\ emitted (trace s1) = emitted (trace s).
Proof.
  intros Hp. cbn zeta. unfold onTokens. rewrite Hp. cbn [rc_stage rc_isCanceled].
  destruct (isAuthenticatedOption opts).
  - cbn. split; [by apply (set_stage_lookup _ _ _ _ Hp)|].
    destruct (set_stage_frame p
                (AwaitAuth (demote opts s accessToken) (demote opts s idToken) None)
                (asm s)) as (-> & _ & _ & _ & ->).
    repeat split. rewrite emitted_app. cbn. apply app_nil_r.
  - cbn. split; [by apply (set_stage_lookup _ _ _ _ Hp)|].
    match goal with
    | |- context [set_stage p ?st (asm s)] =>
        destruct (set_stage_frame p st (asm s)) as (-> & _ & _ & _ & ->)
    end.
    repeat split.
Qed.


(** ** The invariant of the auth state manager *)

Lemma start_recompute_asm s :
  asm (start_recompute s)
  = let p := next_recompute (asm s) in
    set_updateAuthStatePromise (Some p)
      (set_next_recompute (S p)
         (set_recomputes
            (<[p := {| rc_stage := Threw; rc_isCanceled := false |}]> (recomputes (asm s)))
            (asm s))).
Proof. reflexivity. Qed.

Lemma cancel_asm_in_flight p st s :
  recomputes (asm s) !! p = Some {| rc_stage := st; rc_isCanceled := false |} ->
  st <> Done ->
  asm (cancel p s)
  = set_canceledTimes (S (canceledTimes (asm s)))
      (set_updateAuthStatePromise None
         (set_recomputes
            (<[p := {| rc_stage := st; rc_isCanceled := true |}]>
               (recomputes (asm s))) (asm s))).
Proof.
  intros Hp Hst. unfold cancel. rewrite Hp. cbn [rc_stage rc_isCanceled].
  destruct st; try contradiction; reflexivity.
Qed.

Lemma start_recompute_inv s :
  updateAuthStatePromise (asm s) = None \/ True ->
  (canceledTimes (asm s) <= MAX_PROMISE_CANCEL_TIMES)%nat ->
  (forall p rc, recomputes (asm s) !! p = Some rc ->
                (p < next_recompute (asm s))%nat) ->
  asm_inv (asm (start_recompute s)).
Proof.
  intros _ H1 H2. rewrite start_recompute_asm. cbn zeta.
  split; [exact H1|]. split.
  - intros p rc. cbn. rewrite lookup_insert.
    case_decide as Hd; [intros _; subst; lia|].
    intros H. apply H2 in H. lia.
  - intros p. cbn. intros [= <-]. eexists. split.
    + apply lookup_insert_eq.
    + discriminate.
Qed.

Lemma updateAuthState_inv s :
  asm_inv (asm s) -> asm_inv (asm (updateAuthState s)).
Proof.
  intros Hi. pose proof Hi as (H1 & H2 & H3). unfold updateAuthState.
  destruct (updateAuthStatePromise (asm s)) as [p|] eqn:Hp.
  - destruct (Nat.leb_spec MAX_PROMISE_CANCEL_TIMES (canceledTimes (asm s)))
      as [Hle|Hlt]; [exact Hi|].
    destruct (H3 p eq_refl) as (st & Hrc & Hst).
    apply start_recompute_inv; [by right | |];
      rewrite (cancel_asm_in_flight _ _ _ Hrc Hst); cbn.
    + lia.
    + intros q rc. rewrite lookup_insert.
      case_decide; [intros _; subst; by eapply H2 | apply H2].
  - apply start_recompute_inv; [by left | done | done].
Qed.

Lemma set_stage_inv p st a :
  asm_inv a ->
  (updateAuthStatePromise a = Some p -> st <> Done) ->
  asm_inv (set_stage p st a).
Proof.
  intros Hi Hst. pose proof Hi as (H1 & H2 & H3). unfold set_stage.
  destruct (recomputes a !! p) as [rc|] eqn:Hp;
    [|exact Hi].
  split; [exact H1|]. split.
  - intros q rc'. cbn. rewrite lookup_insert.
    case_decide; [intros _; subst; by eapply H2 | apply H2].
  - intros q. cbn. intros Hq. destruct (H3 q Hq) as (st' & Hrc & Hd).
    rewrite lookup_insert. case_decide as Heq.
    + subst q. rewrite Hp in Hrc. injection Hrc as ->. cbn.
      eexists. split; [reflexivity|]. by apply Hst.
    + eexists. by split.
Qed.

Lemma onTokens_inv opts p s :
  asm_inv (asm s) -> asm_inv (asm (onTokens opts p s)).
Proof.
  intros Hi. unfold onTokens.
  destruct (recomputes (asm s) !! p) as [rc|] eqn:Hp; [|done].
  destruct (rc_stage rc) eqn:Hs; try done.
  destruct (rc_isCanceled rc) eqn:Hc.
  - cbn. apply set_stage_inv; [done|].
    intros Hq. destruct Hi as (_ & _ & H3).
    destruct (H3 p Hq) as (st' & Hrc & _). rewrite Hp in Hrc.
    injection Hrc as ->. discriminate.
  - destruct (isAuthenticatedOption opts); cbn;
      (apply set_stage_inv; [done | discriminate]).
Qed.

Lemma onAuth_inv p resolved s :
  asm_inv (asm s) -> asm_inv (asm (onAuth p resolved s)).
Proof.
  intros Hi. unfold onAuth.
  destruct (recomputes (asm s) !! p) as [rc|] eqn:Hp; [|done].
  destruct (rc_stage rc) eqn:Hs; try done.
  destruct (rc_isCanceled rc) eqn:Hc.
  - cbn. apply set_stage_inv; [done|].
    intros Hq. destruct Hi as (_ & _ & H3).
    destruct (H3 p Hq) as (st' & Hrc & _). rewrite Hp in Hrc.
    injection Hrc as ->. discriminate.
  - unfold emitAuthStateChange, emit. cbn -[set_stage].
    apply set_stage_inv; [|discriminate].
    destruct Hi as (H1 & H2 & H3).
    split; [cbn; lia|]. split; [exact H2|]. intros q. discriminate.
Qed.

(** ** Every turn acts on the auth state manager through updateAuthState
    and the two callbacks only *)

Lemma add_asm opts key token s : asm (snd (add opts key token s)) = asm s.
Proof.
  unfold add. rewrite getStorage_eq.
  destruct (malformed token); cbn [snd]; [reflexivity|].
  by rewrite setExpireEventTimeout_asm.
Qed.

Lemma renew_asm key s : asm (snd (renew key s)) = asm s.
Proof.
  unfold renew. destruct (renewPromise (tm s) !! key); [reflexivity|].
  destruct (inherited key); [reflexivity|].
  rewrite get_eq. cbn zeta.
  destruct (negb (truthy (default VUndefined (storage (tm s) !! key))));
    [reflexivity|].
  cbn. by rewrite clearExpireEventTimeout_asm.
Qed.

Section Preservation.
Variable opts : Options.
Variable I : AuthMgr -> Prop.
Hypothesis I_updateAuthState :
  forall s, I (asm s) -> I (asm (updateAuthState s)).
Hypothesis I_onTokens :
  forall p s, I (asm s) -> I (asm (onTokens opts p s)).
Hypothesis I_onAuth :
  forall p resolved s, I (asm s) -> I (asm (onAuth p resolved s)).

Lemma emit_preserves e s : I (asm s) -> I (asm (emit e s)).
Proof.
  intros H. unfold emit. destruct e; try exact H;
    by apply I_updateAuthState.
Qed.

Lemma remove_preserves key s : I (asm s) -> I (asm (remove key s)).
Proof.
  intros H. unfold remove, emitRemoved. rewrite getStorage_eq.
  apply emit_preserves. cbn. by rewrite clearExpireEventTimeout_asm.
Qed.

Lemma renew_chain_preserves key token provider s :
  I (asm s) -> I (asm (snd (renew_chain opts key token provider s))).
Proof.
  intros H. unfold renew_chain.
  assert (H1 : I (asm (snd (match provider with
                            | Fulfilled freshToken =>
                                renew_then opts key freshToken s
                            | Failed err => (Failed err, s)
                            end)))).
  { destruct provider as [fresh|err]; [|exact H].
    unfold renew_then. rewrite get_eq. cbn zeta.
    destruct (negb (truthy (default VUndefined (storage (tm s) !! key))));
      [exact H|].
    pose proof (add_asm opts key fresh (log GetStorage s)) as Ha.
    destruct (add opts key fresh (log GetStorage s)) as [[u|e] s2];
      cbn [snd] in *.
    - apply emit_preserves. by rewrite Ha.
    - by rewrite Ha. }
  destruct (match provider with
            | Fulfilled freshToken => renew_then opts key freshToken s
            | Failed err => (Failed err, s)
            end) as [o1 s1]. cbn [snd] in H1.
  assert (H2 : I (asm (snd (match o1 with
                            | Fulfilled v => (Fulfilled v, s1)
                            | Failed err => renew_catch key token err s1
                            end)))).
  { destruct o1 as [v|err]; [exact H1|].
    unfold renew_catch. destruct (removes_token err); [|exact H1].
    cbn [snd]. unfold emitError. apply emit_preserves.
    by apply remove_preserves. }
  destruct (match o1 with
            | Fulfilled v => (Fulfilled v, s1)
            | Failed err => renew_catch key token err s1
            end) as [o2 s2]. exact H2.
Qed.

Lemma onRenewSettled_preserves p provider s :
  I (asm s) -> I (asm (onRenewSettled opts p provider s)).
Proof.
  intros H. unfold onRenewSettled.
  destruct (renewals (tm s) !! p) as [r|]; [|exact H].
  pose proof (renew_chain_preserves (renewal_key r) (renewal_token r)
                                    provider s H) as Hc.
  by destruct (renew_chain opts (renewal_key r) (renewal_token r) provider s).
Qed.

Lemma fire_preserves h s : I (asm s) -> I (asm (fire opts h s)).
Proof.
  intros H. unfold fire. destruct (timers (tm s) !! h) as [t|]; [|exact H].
  unfold emitExpired, onTokenExpiredHandler.
  destruct (autoRenew opts).
  - rewrite renew_asm. by apply emit_preserves.
  - apply remove_preserves. by apply emit_preserves.
Qed.

Lemma closeSession_preserves closed s :
  I (asm s) -> I (asm (snd (closeSession closed s))).
Proof.
  intros H. unfold closeSession.
  assert (I (asm (log SessionClose (clear s)))) as Hc
    by (cbn; by rewrite clear_asm).
  destruct closed as [v|e]; [|destruct (session_not_found e)]; exact Hc.
Qed.

Lemma revokeAccessToken_preserves accessToken revoked s :
  I (asm s) -> I (asm (snd (revokeAccessToken accessToken revoked s))).
Proof.
  intros H. unfold revokeAccessToken.
  destruct (negb (truthy accessToken)).
  - rewrite get_eq.
    assert (I (asm (remove ACCESS_TOKEN_STORAGE_KEY (log GetStorage s))))
      as Hr by (by apply remove_preserves).
    destruct (negb (truthy (default VUndefined
                (storage (tm s) !! ACCESS_TOKEN_STORAGE_KEY)))); exact Hr.
  - destruct (negb (truthy accessToken)); exact H.
Qed.

Lemma signOut_preserves window options revoked closed s :
  I (asm s) -> I (asm (snd (signOut opts window options revoked closed s))).
Proof.
  intros H. unfold signOut.
  set (revoke := match opt_revokeAccessToken options with
                 | Some false => false
                 | _ => true
                 end).
  set (uri := or_else _ _).
  assert (Hget : forall k x, I (asm x) -> I (asm (snd (get k x))))
    by (intros k x Hx; exact Hx).
  destruct (if is_undefined (opt_idToken options)
            then get ID_TOKEN_STORAGE_KEY s
            else (opt_idToken options, s)) as [idToken s1] eqn:E1.
  assert (H1 : I (asm s1)).
  { destruct (is_undefined (opt_idToken options));
      injection E1 as _ <-; exact H. }
  destruct (if revoke && is_undefined (opt_accessToken options)
            then get ACCESS_TOKEN_STORAGE_KEY s1
            else (opt_accessToken options, s1)) as [accessToken s2] eqn:E2.
  assert (H2 : I (asm s2)).
  { destruct (revoke && is_undefined (opt_accessToken options));
      injection E2 as _ <-; exact H1. }
  assert (H3 : I (asm (clear s2))) by (by rewrite clear_asm).
  destruct (if revoke && truthy accessToken
            then revokeAccessToken accessToken revoked (clear s2)
            else (Fulfilled VUndefined, clear s2)) as [r s4] eqn:E4.
  assert (H4 : I (asm s4)).
  { destruct (revoke && truthy accessToken).
    - pose proof (revokeAccessToken_preserves accessToken revoked _ H3) as Hr.
      rewrite E4 in Hr. exact Hr.
    - injection E4 as _ <-. exact H3. }
  destruct r as [v|e]; [|exact H4].
  destruct (negb (truthy idToken)); [|exact H4].
  pose proof (closeSession_preserves closed s4 H4) as H5.
  destruct (closeSession closed s4) as [[v'|e'] s5]; [|exact H5].
  destruct (String.eqb uri (location_href window)); exact H5.
Qed.

Lemma run_turn_preserves t s : I (asm s) -> I (asm (run_turn opts t s)).
Proof.
  intros H. destruct t; cbn [run_turn].
  - by rewrite add_asm.
  - by apply remove_preserves.
  - by rewrite renew_asm.
  - by rewrite clear_asm.
  - by apply I_updateAuthState.
  - by apply closeSession_preserves.
  - by apply revokeAccessToken_preserves.
  - by apply signOut_preserves.
  - by apply onRenewSettled_preserves.
  - by apply I_onTokens.
  - by apply I_onAuth.
  - by apply fire_preserves.
  - exact H.
Qed.

Lemma run_preserves ts s : I (asm s) -> I (asm (run opts ts s)).
Proof.
  revert s. induction ts as [|t ts IH]; intros s H; [exact H|].
  cbn. apply IH. by apply run_turn_preserves.
Qed.
End Preservation.

Lemma construct_asm opts persisted now read_failure s0 :
  construct opts persisted now read_failure = Normal s0 ->
  asm s0
  = {| authState := {| ref := 0; fields_of := DEFAULT_AUTH_STATE |};
       updateAuthStatePromise := None; canceledTimes := 0;
       recomputes := ∅; next_recompute := 0; next_ref := 1 |}.
Proof.
  unfold construct, setExpireEventTimeoutAll.
  destruct read_failure as [e|]; [by intros [= <-]|].
  rewrite getStorage_eq. cbn [tm storage initial_sdk].
  destruct (existsb _ _); [discriminate|]. intros [= <-].
  induction (map_to_list persisted) as [|[k v] l IH]; [reflexivity|].
  cbn [foldr fst snd]. by rewrite setExpireEventTimeout_asm.
Qed.

Lemma reachable_inv opts s : reachable opts s -> asm_inv (asm s).
Proof.
  intros (persisted & now & read_failure & ts & s0 & Hc & ->).
  apply run_preserves.
  - apply updateAuthState_inv.
  - intros p s. apply onTokens_inv.
  - intros p resolved s. apply onAuth_inv.
  - rewrite (construct_asm _ _ _ _ _ Hc).
    split; [cbn; unfold MAX_PROMISE_CANCEL_TIMES; lia|].
    split; [intros p rc; cbn; by rewrite lookup_empty | discriminate].
Qed.

(** ** Canceled recomputations *)






Lemma updateAuthState_supersedes p st s :
  updateAuthStatePromise (asm s) = Some p ->
  recomputes (asm s) !! p = Some {| rc_stage := st; rc_isCanceled := false |} ->
  st <> Done ->
  (canceledTimes (asm s) < MAX_PROMISE_CANCEL_TIMES)%nat ->
  asm (updateAuthState s)
  = let q := next_recompute (asm s) in
    set_updateAuthStatePromise (Some q)
      (set_next_recompute (S q)
         (set_recomputes
            (<[q := {| rc_stage := Threw; rc_isCanceled := false |}]>
               (<[p := {| rc_stage := st; rc_isCanceled := true |}]>
                  (recomputes (asm s))))
            (set_canceledTimes (S (canceledTimes (asm s))) (asm s)))).
Proof.
  intros Hq Hp Hd Hlt. unfold updateAuthState. rewrite Hq.
  destruct (Nat.leb_spec MAX_PROMISE_CANCEL_TIMES (canceledTimes (asm s)));
    [lia|].
  rewrite start_recompute_asm, (cancel_asm_in_flight _ _ _ Hp Hd).
  reflexivity.
Qed.



Lemma cancel_next_recompute p s :
  next_recompute (asm (cancel p s)) = next_recompute (asm s).
Proof.
  unfold cancel. destruct (recomputes (asm s) !! p) as [rc|]; [|reflexivity].
  destruct (is_done (rc_stage rc) || rc_isCanceled rc); reflexivity.
Qed.

(** * Further properties of the token manager *)

(** ** Expiry and the expiration timer *)

Lemma hasExpired_numeric opts s token e :
  get_prop token "expiresAt" = VNum e ->
  hasExpired opts s token
  = (e - expireEarlySeconds opts <=? clock_now (tm s)).
Proof. intros He. unfold hasExpired, getExpireTime. by rewrite He. Qed.

Lemma setExpireEventTimeout_timer opts key token s :
  timers (tm (setExpireEventTimeout opts key token s)) !! next_handle (tm s)
  = Some {| timer_delay :=
              timeout_delay (num_sub (getExpireTime opts token)
                                     (Some (clock_now (tm s))));
            timer_key := key; timer_token := token |}.
Proof.
  unfold setExpireEventTimeout. cbn.
  rewrite clearExpireEventTimeout_next_handle. apply lookup_insert_eq.
Qed.

(** X1: [add] of a well-formed token whose [expiresAt] is the number [e]
    schedules a new timer for the key, the one the timer table then names
    for it (unless the key is [__proto__]), with delay 0 when the token has
    already expired ([e - expireEarlySeconds <= now]) and otherwise with the
    positive number of milliseconds left until [e - expireEarlySeconds]. *)
Theorem add_schedules_expiry_at_early_time opts key token e s :
  malformed token = false ->
  get_prop token "expiresAt" = VNum e ->
  let s' := snd (add opts key token s) in
  let left := e - expireEarlySeconds opts - clock_now (tm s) in
  exists h tmr,
    h = next_handle (tm s)
    /\ (key <> "__proto__" -> expireTimeouts (tm s') !! key = Some h)
    /\ timers (tm s') !! h = Some tmr
    /\ timer_key tmr = key
    /\ timer_token tmr = token
    /\ (hasExpired opts s token = true -> left <= 0 /\ timer_delay tmr = 0)
    /\ (hasExpired opts s token = false ->
        0 < left /\ timer_delay tmr = left * 1000).
Proof.
  intros Hok He s' left. subst s' left.
  rewrite (add_accepted _ _ _ _ Hok). cbn [snd].
  eexists _, _. split; [reflexivity|]. split; [|split].
  - intros Hk. apply String.eqb_neq in Hk.
    rewrite setExpireEventTimeout_expireTimeouts, Hk. apply lookup_insert_eq.
  - exact (setExpireEventTimeout_timer opts key token
             (setStorage (<[key := token]> (storage (tm s)))
                         (log GetStorage s))).
  - cbn [timer_key timer_token timer_delay].
    split; [reflexivity|]. split; [reflexivity|].
    rewrite (hasExpired_numeric _ _ _ _ He).
    unfold getExpireTime. rewrite He. cbn.
    split; intros H.
    + apply Z.leb_le in H. split; [lia|]. rewrite Z.max_r; lia.
    + apply Z.leb_gt in H. split; [lia|]. rewrite Z.max_l; lia.
Qed.

Lemma add_schedules_expiry_at_early_time_witness :
  exists h tmr,
    expireTimeouts
      (tm (snd (add DEFAULT_OPTIONS "k" sample_accessToken sample_sdk))) !! "k"
    = Some h
    /\ timers
         (tm (snd (add DEFAULT_OPTIONS "k" sample_accessToken sample_sdk))) !! h
       = Some tmr
    /\ timer_delay tmr = 870000.
Proof.
  destruct (add_schedules_expiry_at_early_time
              DEFAULT_OPTIONS "k" sample_accessToken 1000 sample_sdk
              eq_refl eq_refl) as (h & tmr & _ & H1 & H2 & _ & _ & _ & H3).
  exists h, tmr. split; [apply H1; discriminate|]. split; [exact H2|].
  destruct H3 as [_ ->]; [vm_compute; reflexivity|].
  vm_compute. reflexivity.
Defined.

(** ** add, get, remove *)

Lemma get_value key s :
  fst (get key s) = default VUndefined (storage (tm s) !! key).
Proof. reflexivity. Qed.

(** X2: after [add] of a well-formed token under [key], [get(key)] returns
    that token, and [get] of every other key returns what it returned
    before. *)
Theorem get_after_add opts key token s :
  malformed token = false ->
  let s' := snd (add opts key token s) in
  fst (get key s') = token
  /\ forall key', key' <> key -> fst (get key' s') = fst (get key' s).
Proof.
  intros Hok s'. subst s'. rewrite (add_accepted _ _ _ _ Hok). cbn [snd].
  split.
  - rewrite get_value, setExpireEventTimeout_storage. cbn.
    by rewrite lookup_insert_eq.
  - intros key' Hne. rewrite !get_value, setExpireEventTimeout_storage. cbn.
    by rewrite lookup_insert_ne.
Qed.

Lemma get_after_add_witness :
  fst (get "k" (snd (add DEFAULT_OPTIONS "k" sample_idToken sample_sdk)))
  = sample_idToken.
Proof.
  apply (get_after_add DEFAULT_OPTIONS "k" sample_idToken sample_sdk).
  reflexivity.
Defined.

Lemma remove_tm_fields key s :
  storage (tm (remove key s)) = delete key (storage (tm s))
  /\ expireTimeouts (tm (remove key s)) = delete key (expireTimeouts (tm s))
  /\ renewPromise (tm (remove key s)) = delete key (renewPromise (tm s))
  /\ timers (tm (remove key s))
     = match expireTimeouts (tm s) !! key with
       | Some h => delete h (timers (tm s))
       | None => timers (tm s)
       end
  /\ next_handle (tm (remove key s)) = next_handle (tm s)
  /\ clock_now (tm (remove key s)) = clock_now (tm s)
  /\ renewals (tm (remove key s)) = renewals (tm s)
  /\ promises_settled (tm (remove key s)) = promises_settled (tm s).
Proof.
  unfold remove, emitRemoved. rewrite getStorage_eq, emit_tm. cbn.
  rewrite clearExpireEventTimeout_storage, clearExpireEventTimeout_expireTimeouts,
    clearExpireEventTimeout_renewPromise, clearExpireEventTimeout_timers,
    clearExpireEventTimeout_next_handle, clearExpireEventTimeout_clock,
    clearExpireEventTimeout_renewals, clearExpireEventTimeout_promises.
  repeat split.
Qed.

(** X3: [remove(key)], whether or not a token is stored under [key]:
    afterwards [get(key)] returns [undefined], the key has neither a timer
    entry nor a cached renewal promise, its scheduled timer is gone from the
    timer queue, every other key reads as before, and exactly one event,
    [removed(key)], is emitted, after the store was written. *)
Theorem remove_forgets_key_and_always_emits key s :
  let s' := remove key s in
  fst (get key s') = VUndefined
  /\ expireTimeouts (tm s') !! key = None
  /\ renewPromise (tm s') !! key = None
  /\ (forall h, expireTimeouts (tm s) !! key = Some h ->
                timers (tm s') !! h = None)
  /\ (forall key', key' <> key -> fst (get key' s') = fst (get key' s))
  /\ emitted (trace s') = emitted (trace s) ++ [Removed key]
  /\ exists rest,
       trace s'
       = trace s ++ [GetStorage; SetStorage; Emit (Removed key)] ++ rest.
Proof.
  intros s'. subst s'.
  destruct (remove_tm_fields key s) as (Hs & He & Hr & Ht & _).
  split; [|split; [|split; [|split; [|split; [|split]]]]].
  - by rewrite get_value, Hs, lookup_delete_eq.
  - by rewrite He, lookup_delete_eq.
  - by rewrite Hr, lookup_delete_eq.
  - intros h Hh. rewrite Ht, Hh. apply lookup_delete_eq.
  - intros key' Hne. by rewrite !get_value, Hs, lookup_delete_ne.
  - unfold remove, emitRemoved. rewrite getStorage_eq, emit_emitted. cbn.
    rewrite clearExpireEventTimeout_trace, !emitted_app. cbn.
    by rewrite !app_nil_r.
  - apply remove_trace.
Qed.

Lemma remove_forgets_key_and_always_emits_witness :
  fst (get "k" (remove "k" (snd (add DEFAULT_OPTIONS "k" sample_idToken
                                     sample_sdk)))) = VUndefined
  /\ emitted (trace (remove "absent" sample_sdk)) = [Removed "absent"].
Proof.
  split.
  - apply (remove_forgets_key_and_always_emits "k").
  - destruct (remove_forgets_key_and_always_emits "absent" sample_sdk)
      as (_ & _ & _ & _ & _ & H & _).
    exact H.
Defined.

(** ** renew: the paths that do not reach the provider or do not store *)

#[local] Arguments emitted : simpl never.

Lemma emitted_quiet tr e :
  match e with Emit _ => False | _ => True end ->
  emitted (tr ++ [e]) = emitted tr.
Proof.
  intros He. rewrite emitted_app. destruct e; try contradiction;
    apply app_nil_r.
Qed.

Lemma emitted_emit tr ev : emitted (tr ++ [Emit ev]) = emitted tr ++ [ev].
Proof. by rewrite emitted_app. Qed.

(** X4: [renew(key)], for a key that names no member of
    [Object.prototype], with nothing stored under [key] and no cached
    promise, returns a new promise that is already rejected with the
    [AuthSdkError] "The tokenManager has no token for the key: key".  The
    only call made is the read of the store: the provider is not contacted,
    no event is emitted, and the store, the timers and the renewal cache are
    as before. *)
Theorem renew_without_token_rejects key s :
  inherited key = false ->
  renewPromise (tm s) !! key = None ->
  truthy (default VUndefined (storage (tm s) !! key)) = false ->
  let p := next_handle (tm s) in
  let s' := snd (renew key s) in
  fst (renew key s) = Promise p
  /\ promises_settled (tm s') !! p
     = Some (Failed (AuthSdkError
                       ("The tokenManager has no token for the key: "
                        +:+ key)))
  /\ trace s' = trace s ++ [GetStorage]
  /\ storage (tm s') = storage (tm s)
  /\ expireTimeouts (tm s') = expireTimeouts (tm s)
  /\ timers (tm s') = timers (tm s)
  /\ renewPromise (tm s') = renewPromise (tm s)
  /\ renewals (tm s') = renewals (tm s)
  /\ asm s' = asm s.
Proof.
  intros Hi Hc Ht. cbn zeta. unfold renew. rewrite Hc, Hi, get_eq. cbn zeta.
  rewrite Ht. cbn. rewrite lookup_insert_eq. repeat split.
Qed.

Lemma renew_without_token_rejects_witness :
  trace (snd (renew "k" sample_sdk)) = trace sample_sdk ++ [GetStorage]
  /\ renew_calls (trace (snd (renew "k" sample_sdk))) = [].
Proof.
  destruct (renew_without_token_rejects "k" sample_sdk eq_refl eq_refl eq_refl)
    as (_ & _ & Ht & _).
  split; [exact Ht|]. rewrite Ht. reflexivity.
Defined.

Lemma add_rejected opts key token s :
  malformed token = true ->
  add opts key token s
  = (Throw (AuthSdkError
       "Token must be an Object with scopes, expiresAt, and an idToken or accessToken properties"),
     log GetStorage s).
Proof. intros Hbad. unfold add. by rewrite getStorage_eq, Hbad. Qed.

(** X5: when the provider call of a renewal of [key] resolves with a value
    that [add] rejects, while a token is still stored under [key], the
    renewal fails: the stored token is removed, the events emitted are
    [removed(key)] and then [error] with the [AuthSdkError] of [add], tagged
    with [key] and with whether the renewed token had an [accessToken], and
    the promise of [renew] rejects with that error.  No [renewed] event is
    emitted and the malformed value is not stored. *)
Theorem renew_with_malformed_fresh_token_removes_key opts p r fresh s :
  renewals (tm s) !! p = Some r ->
  malformed fresh = true ->
  truthy (default VUndefined (storage (tm s) !! renewal_key r)) = true ->
  let key := renewal_key r in
  let s' := onRenewSettled opts p (Fulfilled fresh) s in
  let err :=
    tag_error key (truthy (get_prop (renewal_token r) "accessToken"))
      (AuthSdkError
         "Token must be an Object with scopes, expiresAt, and an idToken or accessToken properties") in
  storage (tm s') = delete key (storage (tm s))
  /\ emitted (trace s') = emitted (trace s) ++ [Removed key; Error err]
  /\ promises_settled (tm s') !! p = Some (Failed err)
  /\ renewPromise (tm s') !! key = None.
Proof.
  intros Hr Hbad Ht. cbn zeta.
  rewrite (onRenewSettled_eq _ _ _ _ _ Hr).
  unfold renew_chain, renew_then. rewrite get_eq. cbn zeta. rewrite Ht.
  cbn [negb]. rewrite (add_rejected _ _ _ _ Hbad).
  unfold renew_catch. cbn [removes_token AuthSdkError err_name].
  replace (removes_token _) with true by reflexivity.
  cbn [fst snd]. unfold emitError.
  split; [|split; [|split]].
  - cbn. by rewrite emit_tm, remove_storage.
  - cbn. rewrite emit_emitted.
    unfold remove, emitRemoved. rewrite getStorage_eq, emit_emitted. cbn.
    rewrite clearExpireEventTimeout_trace. cbn.
    rewrite !emitted_quiet by exact I. by rewrite <- app_assoc.
  - cbn. apply lookup_insert_eq.
  - cbn. apply lookup_delete_eq.
Qed.

Lemma renew_with_malformed_fresh_token_removes_key_witness :
  let s := snd (renew "k" (snd (add DEFAULT_OPTIONS "k" sample_accessToken
                                    sample_sdk))) in
  storage (tm (onRenewSettled DEFAULT_OPTIONS 1 (Fulfilled token_without_scopes)
                              s)) !! "k" = None.
Proof.
  intros s.
  assert (Hr : renewals (tm s) !! 1%nat
               = Some {| renewal_key := "k";
                         renewal_token := sample_accessToken |})
    by (vm_compute; reflexivity).
  destruct (renew_with_malformed_fresh_token_removes_key
              DEFAULT_OPTIONS 1 _ token_without_scopes s Hr eq_refl)
    as (Hs & _); [vm_compute; reflexivity|].
  rewrite Hs. apply lookup_delete_eq.
Defined.

(** ** Every turn acts on the token manager through add, remove, renew,
    clear, a fired timer's removal, the clock and bookkeeping of promises *)

Lemma onTokens_tm opts p s : tm (onTokens opts p s) = tm s.
Proof.
  unfold onTokens. destruct (recomputes (asm s) !! p) as [rc|]; [|done].
  destruct (rc_stage rc); try done.
  destruct (rc_isCanceled rc); [done|].
  by destruct (isAuthenticatedOption opts).
Qed.

Lemma onAuth_tm p resolved s : tm (onAuth p resolved s) = tm s.
Proof.
  unfold onAuth. destruct (recomputes (asm s) !! p) as [rc|]; [|done].
  destruct (rc_stage rc); try done.
  destruct (rc_isCanceled rc); [done|].
  unfold emitAuthStateChange. cbn. by rewrite emit_tm.
Qed.

Section TokenManagerPreservation.
Variable opts : Options.
Variable P : TokenMgr -> Prop.
Hypothesis P_add :
  forall key token s, P (tm s) -> P (tm (snd (add opts key token s))).
Hypothesis P_remove : forall key s, P (tm s) -> P (tm (remove key s)).
Hypothesis P_renew : forall key s, P (tm s) -> P (tm (snd (renew key s))).
Hypothesis P_clear : forall s, P (tm s) -> P (tm (clear s)).
Hypothesis P_fired :
  forall h t, P t -> P (set_timers (delete h (timers t)) t).
Hypothesis P_tick :
  forall d t, P t -> P (set_clock_now (clock_now t + d) t).
Hypothesis P_bookkeeping :
  forall t t',
    storage t' = storage t -> expireTimeouts t' = expireTimeouts t ->
    timers t' = timers t -> next_handle t' = next_handle t ->
    clock_now t' = clock_now t ->
    (forall k, is_Some (renewPromise t' !! k) -> is_Some (renewPromise t !! k)) ->
    P t -> P t'.

Lemma renew_chain_keeps key token provider s :
  P (tm s) -> P (tm (snd (renew_chain opts key token provider s))).
Proof.
  intros H. unfold renew_chain.
  assert (H1 : P (tm (snd (match provider with
                            | Fulfilled freshToken =>
                                renew_then opts key freshToken s
                            | Failed err => (Failed err, s)
                            end)))).
  { destruct provider as [fresh|err]; [|exact H].
    unfold renew_then. rewrite get_eq. cbn zeta.
    destruct (negb (truthy (default VUndefined (storage (tm s) !! key))));
      [exact H|].
    pose proof (P_add key fresh (log GetStorage s) H) as Ha.
    destruct (add opts key fresh (log GetStorage s)) as [[u|e] s2];
      cbn [snd] in *; [|exact Ha].
    by rewrite emit_tm. }
  destruct (match provider with
            | Fulfilled freshToken => renew_then opts key freshToken s
            | Failed err => (Failed err, s)
            end) as [o1 s1]. cbn [snd] in H1.
  assert (H2 : P (tm (snd (match o1 with
                            | Fulfilled v => (Fulfilled v, s1)
                            | Failed err => renew_catch key token err s1
                            end)))).
  { destruct o1 as [v|err]; [exact H1|].
    unfold renew_catch. destruct (removes_token err); [|exact H1].
    cbn [snd]. unfold emitError. rewrite emit_tm. by apply P_remove. }
  destruct (match o1 with
            | Fulfilled v => (Fulfilled v, s1)
            | Failed err => renew_catch key token err s1
            end) as [o2 s2]. cbn [snd] in *.
  revert H2. apply P_bookkeeping; try reflexivity.
  intros k. cbn. rewrite lookup_delete_is_Some. by intros [_ ?].
Qed.

Lemma onRenewSettled_keeps p provider s :
  P (tm s) -> P (tm (onRenewSettled opts p provider s)).
Proof.
  intros H. unfold onRenewSettled.
  destruct (renewals (tm s) !! p) as [r|]; [|exact H].
  pose proof (renew_chain_keeps (renewal_key r) (renewal_token r) provider s H)
    as Hc.
  destruct (renew_chain opts (renewal_key r) (renewal_token r) provider s)
    as [o s1]. cbn [snd] in Hc.
  revert Hc. by apply P_bookkeeping.
Qed.

Lemma fire_keeps h s : P (tm s) -> P (tm (fire opts h s)).
Proof.
  intros H. unfold fire. destruct (timers (tm s) !! h) as [t|]; [|exact H].
  unfold emitExpired, onTokenExpiredHandler.
  assert (Hx : P (tm (emit (Expired (timer_key t) (timer_token t))
                           (on_tm (fun m => set_timers (delete h (timers m)) m)
                                  s))))
    by (rewrite emit_tm; cbn; by apply P_fired).
  destruct (autoRenew opts); [by apply P_renew | by apply P_remove].
Qed.

Lemma closeSession_keeps closed s :
  P (tm s) -> P (tm (snd (closeSession closed s))).
Proof.
  intros H. unfold closeSession.
  assert (P (tm (log SessionClose (clear s)))) as Hc
    by (cbn; by apply P_clear).
  destruct closed as [v|e]; [|destruct (session_not_found e)]; exact Hc.
Qed.

Lemma revokeAccessToken_keeps accessToken revoked s :
  P (tm s) -> P (tm (snd (revokeAccessToken accessToken revoked s))).
Proof.
  intros H. unfold revokeAccessToken.
  destruct (negb (truthy accessToken)).
  - rewrite get_eq.
    assert (P (tm (remove ACCESS_TOKEN_STORAGE_KEY (log GetStorage s))))
      as Hr by (by apply P_remove).
    destruct (negb (truthy (default VUndefined
                (storage (tm s) !! ACCESS_TOKEN_STORAGE_KEY)))); exact Hr.
  - destruct (negb (truthy accessToken)); exact H.
Qed.

Lemma signOut_keeps window options revoked closed s :
  P (tm s) -> P (tm (snd (signOut opts window options revoked closed s))).
Proof.
  intros H. unfold signOut.
  set (revoke := match opt_revokeAccessToken options with
                 | Some false => false
                 | _ => true
                 end).
  set (uri := or_else _ _).
  destruct (if is_undefined (opt_idToken options)
            then get ID_TOKEN_STORAGE_KEY s
            else (opt_idToken options, s)) as [idToken s1] eqn:E1.
  assert (H1 : P (tm s1)).
  { destruct (is_undefined (opt_idToken options));
      injection E1 as _ <-; exact H. }
  destruct (if revoke && is_undefined (opt_accessToken options)
            then get ACCESS_TOKEN_STORAGE_KEY s1
            else (opt_accessToken options, s1)) as [accessToken s2] eqn:E2.
  assert (H2 : P (tm s2)).
  { destruct (revoke && is_undefined (opt_accessToken options));
      injection E2 as _ <-; exact H1. }
  assert (H3 : P (tm (clear s2))) by (by apply P_clear).
  destruct (if revoke && truthy accessToken
            then revokeAccessToken accessToken revoked (clear s2)
            else (Fulfilled VUndefined, clear s2)) as [r s4] eqn:E4.
  assert (H4 : P (tm s4)).
  { destruct (revoke && truthy accessToken).
    - pose proof (revokeAccessToken_keeps accessToken revoked _ H3) as Hr.
      rewrite E4 in Hr. exact Hr.
    - injection E4 as _ <-. exact H3. }
  destruct r as [v|e]; [|exact H4].
  destruct (negb (truthy idToken)); [|exact H4].
  pose proof (closeSession_keeps closed s4 H4) as H5.
  destruct (closeSession closed s4) as [[v'|e'] s5]; [|exact H5].
  destruct (String.eqb uri (location_href window)); exact H5.
Qed.

Lemma run_turn_keeps t s : P (tm s) -> P (tm (run_turn opts t s)).
Proof.
  intros H. destruct t; cbn [run_turn].
  - by apply P_add.
  - by apply P_remove.
  - by apply P_renew.
  - by apply P_clear.
  - by rewrite updateAuthState_tm.
  - by apply closeSession_keeps.
  - by apply revokeAccessToken_keeps.
  - by apply signOut_keeps.
  - by apply onRenewSettled_keeps.
  - by rewrite onTokens_tm.
  - by rewrite onAuth_tm.
  - by apply fire_keeps.
  - cbn. by apply P_tick.
Qed.

Lemma run_keeps ts s : P (tm s) -> P (tm (run opts ts s)).
Proof.
  revert s. induction ts as [|t ts IH]; intros s H; [exact H|].
  cbn. apply IH. by apply run_turn_keeps.
Qed.
End TokenManagerPreservation.

(** ** The invariant of the timers *)

Lemma timers_ok_clear st et tmrs nh k :
  timers_ok st et tmrs nh ->
  timers_ok st (delete k et)
    (match et !! k with Some h => delete h tmrs | None => tmrs end) nh.
Proof.
  intros Hok h tmr Hh.
  assert (Hold : tmrs !! h = Some tmr /\ et !! k <> Some h).
  { destruct (et !! k) as [h0|] eqn:Hk.
    - apply lookup_delete_Some in Hh as [Hne Hh]. split; congruence.
    - split; [exact Hh | discriminate]. }
  destruct Hold as [Hh' Hne].
  destruct (Hok h tmr Hh') as (Hlt & Hk).
  split; [exact Hlt|]. intros Hp. destruct (Hk Hp) as (He & Hs).
  split; [|exact Hs].
  rewrite lookup_delete_ne; [exact He|]. intros Heq.
  rewrite <- Heq in He. congruence.
Qed.

Lemma timers_ok_storage st st' et tmrs nh k :
  timers_ok st et tmrs nh -> et !! k = None ->
  (forall k', k' <> k -> st' !! k' = st !! k') ->
  timers_ok st' et tmrs nh.
Proof.
  intros Hok Hk Hst h tmr Hh.
  destruct (Hok h tmr Hh) as (Hlt & H).
  split; [exact Hlt|]. intros Hp. destruct (H Hp) as (He & Hs).
  split; [exact He|]. rewrite Hst; [exact Hs|].
  intros Heq. rewrite Heq in He. congruence.
Qed.

Lemma timers_ok_schedule st et tmrs nh k token d :
  timers_ok st et tmrs nh -> et !! k = None -> st !! k = Some token ->
  timers_ok st (assign k nh et)
    (<[nh := {| timer_delay := d; timer_key := k; timer_token := token |}]>
       tmrs) (S nh).
Proof.
  intros Hok Hk Hst h tmr Hh. unfold assign.
  apply lookup_insert_Some in Hh as [[<- <-] | [Hne Hh]]; cbn.
  - split; [lia|]. intros Hp. apply String.eqb_neq in Hp.
    by rewrite Hp, lookup_insert_eq.
  - destruct (Hok h tmr Hh) as (Hlt & H). split; [lia|].
    intros Hp. destruct (H Hp) as (He & Hs). split; [|exact Hs].
    destruct (String.eqb k "__proto__"); [exact He|].
    rewrite lookup_insert_ne; [exact He|]. intros Heq.
    rewrite <- Heq in He. congruence.
Qed.

Lemma timers_ok_next st et tmrs nh nh' :
  timers_ok st et tmrs nh -> (nh <= nh')%nat -> timers_ok st et tmrs nh'.
Proof.
  intros Hok Hle h tmr Hh. destruct (Hok h tmr Hh) as (Hlt & H).
  split; [lia | exact H].
Qed.

Lemma timers_ok_fired st et tmrs nh h :
  timers_ok st et tmrs nh -> timers_ok st et (delete h tmrs) nh.
Proof.
  intros Hok h' tmr Hh. apply lookup_delete_Some in Hh as [_ Hh].
  by apply Hok.
Qed.

Lemma clearExpireEventTimeout_inv key s :
  tm_inv (tm s) -> tm_inv (tm (clearExpireEventTimeout key s)).
Proof.
  intros H. unfold tm_inv.
  rewrite clearExpireEventTimeout_storage,
    clearExpireEventTimeout_expireTimeouts, clearExpireEventTimeout_timers,
    clearExpireEventTimeout_next_handle.
  by apply timers_ok_clear.
Qed.

Lemma setExpireEventTimeout_fields opts key token s :
  storage (tm (setExpireEventTimeout opts key token s)) = storage (tm s)
  /\ expireTimeouts (tm (setExpireEventTimeout opts key token s))
     = assign key (next_handle (tm s)) (delete key (expireTimeouts (tm s)))
  /\ timers (tm (setExpireEventTimeout opts key token s))
     = <[next_handle (tm s) :=
           {| timer_delay :=
                timeout_delay (num_sub (getExpireTime opts token)
                                       (Some (clock_now (tm s))));
              timer_key := key; timer_token := token |}]>
         (match expireTimeouts (tm s) !! key with
          | Some h => delete h (timers (tm s))
          | None => timers (tm s)
          end)
  /\ next_handle (tm (setExpireEventTimeout opts key token s))
     = S (next_handle (tm s))
  /\ clock_now (tm (setExpireEventTimeout opts key token s))
     = clock_now (tm s)
  /\ renewals (tm (setExpireEventTimeout opts key token s))
     = renewals (tm s).
Proof.
  unfold setExpireEventTimeout. cbn.
  rewrite clearExpireEventTimeout_storage,
    clearExpireEventTimeout_expireTimeouts, clearExpireEventTimeout_timers,
    clearExpireEventTimeout_next_handle, clearExpireEventTimeout_clock,
    clearExpireEventTimeout_renewals.
  repeat split.
Qed.

Lemma setExpireEventTimeout_inv opts key token s :
  tm_inv (tm s) -> storage (tm s) !! key = Some token ->
  tm_inv (tm (setExpireEventTimeout opts key token s)).
Proof.
  intros H Hst. unfold tm_inv.
  destruct (setExpireEventTimeout_fields opts key token s)
    as (-> & -> & -> & -> & _).
  apply timers_ok_schedule; [|apply lookup_delete_eq | exact Hst].
  by apply timers_ok_clear.
Qed.

Lemma add_inv opts key token s :
  tm_inv (tm s) -> tm_inv (tm (snd (add opts key token s))).
Proof.
  intros H. destruct (malformed token) eqn:Hm.
  - by rewrite (add_rejected _ _ _ _ Hm).
  - rewrite (add_accepted _ _ _ _ Hm). cbn [snd]. unfold tm_inv.
    destruct (setExpireEventTimeout_fields opts key token
                (setStorage (<[key := token]> (storage (tm s)))
                            (log GetStorage s)))
      as (-> & -> & -> & -> & _).
    cbn.
    apply timers_ok_schedule;
      [|apply lookup_delete_eq | apply lookup_insert_eq].
    apply (timers_ok_storage (storage (tm s)) _ _ _ _ key);
      [by apply timers_ok_clear | apply lookup_delete_eq |].
    intros k' Hne. by rewrite lookup_insert_ne.
Qed.

Lemma remove_inv key s : tm_inv (tm s) -> tm_inv (tm (remove key s)).
Proof.
  intros H. unfold tm_inv.
  destruct (remove_tm_fields key s) as (-> & -> & _ & -> & -> & _).
  apply (timers_ok_storage (storage (tm s)) _ _ _ _ key);
    [by apply timers_ok_clear | apply lookup_delete_eq |].
  intros k' Hne. by rewrite lookup_delete_ne.
Qed.

Lemma renew_inv key s : tm_inv (tm s) -> tm_inv (tm (snd (renew key s))).
Proof.
  intros H. unfold renew.
  destruct (renewPromise (tm s) !! key); [exact H|].
  destruct (inherited key); [exact H|].
  rewrite get_eq. cbn zeta.
  destruct (negb (truthy (default VUndefined (storage (tm s) !! key)))).
  - unfold tm_inv. cbn.
    apply (timers_ok_next _ _ _ (next_handle (tm s))); [exact H | lia].
  - unfold tm_inv. cbn.
    rewrite clearExpireEventTimeout_storage,
      clearExpireEventTimeout_expireTimeouts, clearExpireEventTimeout_timers,
      clearExpireEventTimeout_next_handle. cbn.
    apply (timers_ok_next _ _ _ (next_handle (tm s)));
      [by apply timers_ok_clear | lia].
Qed.

Lemma clearExpireEventTimeout_fold keys s :
  storage (tm (foldr clearExpireEventTimeout s keys)) = storage (tm s)
  /\ next_handle (tm (foldr clearExpireEventTimeout s keys))
     = next_handle (tm s)
  /\ clock_now (tm (foldr clearExpireEventTimeout s keys)) = clock_now (tm s)
  /\ renewals (tm (foldr clearExpireEventTimeout s keys)) = renewals (tm s)
  /\ expireTimeouts (tm (foldr clearExpireEventTimeout s keys))
     = foldr delete (expireTimeouts (tm s)) keys
  /\ renewPromise (tm (foldr clearExpireEventTimeout s keys))
     = foldr delete (renewPromise (tm s)) keys
  /\ (tm_inv (tm s) -> tm_inv (tm (foldr clearExpireEventTimeout s keys))).
Proof.
  induction keys as [|k keys (IH1 & IH2 & IH3 & IH4 & IH5 & IH6 & IH7)];
    cbn [foldr]; [done|].
  rewrite clearExpireEventTimeout_storage, clearExpireEventTimeout_next_handle,
    clearExpireEventTimeout_clock, clearExpireEventTimeout_renewals,
    clearExpireEventTimeout_expireTimeouts,
    clearExpireEventTimeout_renewPromise, IH1, IH2, IH3, IH4, IH5, IH6.
  do 6 (split; [reflexivity|]).
  intros Hinv. apply clearExpireEventTimeout_inv. by apply IH7.
Qed.

(** The timers [clearExpireEventTimeoutAll] leaves are timers there were,
    and it leaves every timer that no entry of the timer table names. *)
Lemma clearExpireEventTimeout_fold_timers keys s h :
  (forall tmr,
     timers (tm (foldr clearExpireEventTimeout s keys)) !! h = Some tmr ->
     timers (tm s) !! h = Some tmr)
  /\ ((forall k, expireTimeouts (tm s) !! k <> Some h) ->
      timers (tm (foldr clearExpireEventTimeout s keys)) !! h
      = timers (tm s) !! h).
Proof.
  induction keys as [|k keys [IH1 IH2]]; cbn [foldr]; [done|].
  rewrite clearExpireEventTimeout_timers.
  destruct (clearExpireEventTimeout_fold keys s)
    as (_ & _ & _ & _ & He & _).
  split.
  - intros tmr Hh. apply IH1.
    destruct (expireTimeouts _ !! k); [|exact Hh].
    by apply lookup_delete_Some in Hh as [_ Hh].
  - intros Hno. rewrite <- (IH2 Hno).
    destruct (expireTimeouts (tm (foldr clearExpireEventTimeout s keys)) !! k)
      as [h0|] eqn:Hk; [|reflexivity].
    apply lookup_delete_ne. intros ->.
    rewrite He in Hk.
    assert (Hin : expireTimeouts (tm s) !! k = Some h); [|by apply Hno in Hin].
    clear -Hk. induction keys as [|k' keys IH]; cbn [foldr] in Hk; [exact Hk|].
    apply lookup_delete_Some in Hk as [_ Hk]. by apply IH.
Qed.

Lemma foldr_delete_lookup {V} (m : gmap string V) keys k :
  foldr delete m keys !! k = if decide (k ∈ keys) then None else m !! k.
Proof.
  induction keys as [|k' keys IH]; cbn [foldr].
  - rewrite decide_False; [done|]. by apply not_elem_of_nil.
  - destruct (decide (k = k')) as [<-|Hne].
    + rewrite lookup_delete_eq, decide_True; [done|]. by left.
    + rewrite lookup_delete_ne, IH by congruence.
      destruct (decide (k ∈ keys)) as [Hin|Hout].
      * rewrite decide_True; [done|]. by right.
      * rewrite decide_False; [done|].
        intros [Heq|Hin]%elem_of_cons; congruence.
Qed.

Lemma foldr_delete_all_keys {V} (m : gmap string V) :
  foldr delete m (List.map fst (map_to_list m)) = ∅.
Proof.
  apply map_eq. intros k. rewrite foldr_delete_lookup, lookup_empty.
  case_decide as Hin; [done|].
  destruct (m !! k) as [v|] eqn:Hk; [|done].
  exfalso. apply Hin. apply list_elem_of_fmap. exists (k, v).
  split; [done|]. by apply elem_of_map_to_list.
Qed.

Lemma timers_ok_empty st tmrs nh h tmr :
  timers_ok st ∅ tmrs nh -> tmrs !! h = Some tmr ->
  timer_key tmr = "__proto__".
Proof.
  intros Hok Hh. destruct (Hok h tmr Hh) as (_ & H).
  destruct (decide (timer_key tmr = "__proto__")) as [Hp|Hp]; [exact Hp|].
  destruct (H Hp) as (He & _). by rewrite lookup_empty in He.
Qed.

(** What [clear] leaves of the token manager whose timers are in order. *)
Lemma clear_fields s :
  storage (tm (clear s)) = ∅
  /\ expireTimeouts (tm (clear s)) = ∅
  /\ next_handle (tm (clear s)) = next_handle (tm s)
  /\ clock_now (tm (clear s)) = clock_now (tm s)
  /\ renewals (tm (clear s)) = renewals (tm s)
  /\ (tm_inv (tm s) ->
      forall h tmr,
        timers (tm (clear s)) !! h = Some tmr ->
        timer_key tmr = "__proto__" /\ timers (tm s) !! h = Some tmr).
Proof.
  unfold clear, clearStorage, clearExpireEventTimeoutAll. cbn.
  destruct (clearExpireEventTimeout_fold
              (List.map fst (map_to_list (expireTimeouts (tm s)))) s)
    as (_ & -> & -> & -> & He & _ & Hinv).
  rewrite He, foldr_delete_all_keys. do 5 (split; [reflexivity|]).
  intros H h tmr Hh. specialize (Hinv H). unfold tm_inv in Hinv.
  rewrite He, foldr_delete_all_keys in Hinv.
  split; [by apply (timers_ok_empty _ _ _ _ _ Hinv Hh)|].
  by apply (clearExpireEventTimeout_fold_timers
              (List.map fst (map_to_list (expireTimeouts (tm s)))) s h).
Qed.

Lemma clear_inv s : tm_inv (tm s) -> tm_inv (tm (clear s)).
Proof.
  intros H. unfold tm_inv.
  destruct (clear_fields s) as (-> & -> & -> & _ & _ & Ht).
  intros h tmr Hh. destruct (Ht H h tmr Hh) as (Hp & Hold).
  destruct (H h tmr Hold) as (Hlt & _). split; [exact Hlt|]. by intros [].
Qed.

Lemma run_inv opts ts s : tm_inv (tm s) -> tm_inv (tm (run opts ts s)).
Proof.
  apply run_keeps.
  - apply add_inv.
  - apply remove_inv.
  - apply renew_inv.
  - apply clear_inv.
  - intros h t H. by apply timers_ok_fired.
  - intros d t H. exact H.
  - intros t t' E1 E2 E3 E4 _ _ H. unfold tm_inv. by rewrite E1, E2, E3, E4.
Qed.

(** ** The invariant of the two tables *)

Lemma table_ok_clear et tmrs nh k :
  table_ok et tmrs nh ->
  table_ok (delete k et)
    (match et !! k with Some h => delete h tmrs | None => tmrs end) nh.
Proof.
  intros Hok k' h [Hne Hk']%lookup_delete_Some.
  destruct (Hok k' h Hk') as (Hlt & Hp & Ht).
  split; [exact Hlt|]. split; [exact Hp|].
  intros tmr Hh. apply Ht.
  destruct (et !! k); [|exact Hh].
  by apply lookup_delete_Some in Hh as [_ Hh].
Qed.

Lemma table_ok_schedule et tmrs nh k token d :
  table_ok et tmrs nh ->
  table_ok (assign k nh et)
    (<[nh := {| timer_delay := d; timer_key := k; timer_token := token |}]>
       tmrs) (S nh).
Proof.
  intros Hok k' h. unfold assign.
  assert (Hold : et !! k' = Some h ->
                 (h < S nh)%nat /\ k' <> "__proto__"
                 /\ forall tmr,
                      <[nh := {| timer_delay := d; timer_key := k;
                                 timer_token := token |}]> tmrs !! h
                      = Some tmr -> timer_key tmr = k').
  { intros Hk'. destruct (Hok k' h Hk') as (Hlt & Hp & Ht).
    split; [lia|]. split; [exact Hp|].
    intros tmr. rewrite lookup_insert_ne by lia. apply Ht. }
  destruct (String.eqb_spec k "__proto__") as [_|Hp]; [exact Hold|].
  rewrite lookup_insert. case_decide as Hd; [|exact Hold].
  subst k'. intros [= <-]. split; [lia|]. split; [exact Hp|].
  intros tmr. rewrite lookup_insert_eq. by intros [= <-].
Qed.

Lemma table_ok_next et tmrs nh nh' :
  table_ok et tmrs nh -> (nh <= nh')%nat -> table_ok et tmrs nh'.
Proof.
  intros Hok Hle k h Hk. destruct (Hok k h Hk) as (Hlt & H).
  split; [lia | exact H].
Qed.

Lemma renew_tables key s :
  tables_inv (tm s) -> tables_inv (tm (snd (renew key s))).
Proof.
  intros [H1 H2]. unfold renew.
  destruct (renewPromise (tm s) !! key); [by split|].
  destruct (inherited key) eqn:Hi; [by split|].
  rewrite get_eq. cbn zeta.
  destruct (negb (truthy (default VUndefined (storage (tm s) !! key)))).
  - split; cbn; [|exact H2].
    apply (table_ok_next _ _ (next_handle (tm s))); [exact H1 | lia].
  - split; cbn.
    + rewrite clearExpireEventTimeout_expireTimeouts,
        clearExpireEventTimeout_timers, clearExpireEventTimeout_next_handle.
      cbn.
      apply (table_ok_next _ _ (next_handle (tm s)));
        [by apply table_ok_clear | lia].
    + rewrite clearExpireEventTimeout_renewPromise. cbn. intros k.
      rewrite lookup_insert. case_decide as Hd; [by subst|].
      rewrite lookup_delete_is_Some. intros [_ Hk]. by apply H2.
Qed.

Lemma add_tables opts key token s :
  tables_inv (tm s) -> tables_inv (tm (snd (add opts key token s))).
Proof.
  intros [H1 H2]. destruct (malformed token) eqn:Hm.
  - by rewrite (add_rejected _ _ _ _ Hm).
  - rewrite (add_accepted _ _ _ _ Hm). cbn [snd].
    unfold tables_inv. rewrite setExpireEventTimeout_renewPromise.
    destruct (setExpireEventTimeout_fields opts key token
                (setStorage (<[key := token]> (storage (tm s)))
                            (log GetStorage s)))
      as (_ & -> & -> & -> & _).
    cbn. split.
    + apply table_ok_schedule. by apply table_ok_clear.
    + intros k. rewrite lookup_delete_is_Some. intros [_ Hk]. by apply H2.
Qed.

Lemma clear_renewPromise_sub s k :
  is_Some (renewPromise (tm (clear s)) !! k) ->
  is_Some (renewPromise (tm s) !! k).
Proof.
  unfold clear, clearStorage, clearExpireEventTimeoutAll. cbn.
  destruct (clearExpireEventTimeout_fold
              (List.map fst (map_to_list (expireTimeouts (tm s)))) s)
    as (_ & _ & _ & _ & _ & -> & _).
  rewrite foldr_delete_lookup. case_decide; [by intros [? [=]]|done].
Qed.

Lemma run_tables opts ts s :
  tables_inv (tm s) -> tables_inv (tm (run opts ts s)).
Proof.
  apply run_keeps.
  - apply add_tables.
  - intros key x [H1 H2].
    destruct (remove_tm_fields key x) as (_ & He & Hr & Ht & Hn & _).
    split.
    + rewrite He, Ht, Hn. by apply table_ok_clear.
    + intros k. rewrite Hr, lookup_delete_is_Some. intros [_ Hk].
      by apply H2.
  - apply renew_tables.
  - intros x [H1 H2].
    destruct (clear_fields x) as (_ & He & Hn & _). split.
    + intros k h. by rewrite He, lookup_empty.
    + intros k Hk. apply H2. by apply clear_renewPromise_sub.
  - intros h t [H1 H2]. split; [|exact H2]. cbn.
    intros k h' Hk. destruct (H1 k h' Hk) as (Hlt & Hp & Ht).
    split; [exact Hlt|]. split; [exact Hp|].
    intros tmr [_ Hh]%lookup_delete_Some. by apply Ht.
  - intros d t H. exact H.
  - intros t t' _ E2 E3 E4 _ Hsub [H1 H2]. split.
    + by rewrite E2, E3, E4.
    + intros k Hk. by apply H2, Hsub.
Qed.

(** The timers [clear] leaves are those scheduled under [__proto__]. *)
Lemma clear_timers s h tmr :
  tm_inv (tm s) -> tables_inv (tm s) ->
  timers (tm (clear s)) !! h = Some tmr
  <-> timers (tm s) !! h = Some tmr /\ timer_key tmr = "__proto__".
Proof.
  intros Hinv [Htab _].
  destruct (clear_fields s) as (_ & _ & _ & _ & _ & Ht).
  split; [intros Hh; by destruct (Ht Hinv h tmr Hh)|].
  intros [Hh Hp].
  unfold clear, clearStorage, clearExpireEventTimeoutAll. cbn.
  destruct (clearExpireEventTimeout_fold_timers
              (List.map fst (map_to_list (expireTimeouts (tm s)))) s h)
    as [_ Hkeep].
  rewrite Hkeep; [exact Hh|].
  intros k Hk. destruct (Htab k h Hk) as (_ & Hne & Hkey).
  apply Hne. rewrite <- (Hkey tmr Hh). exact Hp.
Qed.

(** ** Construction *)

Lemma schedule_all opts (l : list (string * value)) s0 :
  NoDup (l.*1) ->
  (forall k v, (k, v) ∈ l -> storage (tm s0) !! k = Some v) ->
  tm_inv (tm s0) ->
  expireTimeouts (tm s0) = ∅ ->
  renewPromise (tm s0) = ∅ ->
  let s := foldr (fun kv => setExpireEventTimeout opts (fst kv) (snd kv)) s0 l in
  storage (tm s) = storage (tm s0)
  /\ clock_now (tm s) = clock_now (tm s0)
  /\ trace s = trace s0
  /\ asm s = asm s0
  /\ renewPromise (tm s) = ∅
  /\ tm_inv (tm s)
  /\ table_ok (expireTimeouts (tm s)) (timers (tm s)) (next_handle (tm s))
  /\ (forall k, k ∉ l.*1 -> expireTimeouts (tm s) !! k = None)
  /\ (forall k v, (k, v) ∈ l ->
        exists h,
          (k <> "__proto__" -> expireTimeouts (tm s) !! k = Some h)
          /\ timers (tm s) !! h
             = Some {| timer_delay :=
                         timeout_delay
                           (num_sub (getExpireTime opts v)
                                    (Some (clock_now (tm s0))));
                       timer_key := k; timer_token := v |}).
Proof.
  intros Hnd Hst Hinv Hempty Hcache. cbn zeta.
  induction l as [|[k v] l IH]; cbn [foldr fst snd].
  - do 4 (split; [done|]). split; [exact Hcache|]. split; [exact Hinv|].
    split; [|split].
    + intros k h. by rewrite Hempty, lookup_empty.
    + intros k _. by rewrite Hempty, lookup_empty.
    + intros k v Hin. by apply elem_of_nil in Hin.
  - cbn in Hnd. apply NoDup_cons in Hnd as [Hk Hnd].
    destruct IH as (IH1 & IH2 & IH3 & IHa & IHc & IH4 & IHt & IH5 & IH6);
      [exact Hnd | intros k' v' Hin; apply Hst; by right |].
    set (si := foldr (fun kv => setExpireEventTimeout opts (fst kv) (snd kv))
                     s0 l) in *.
    destruct (setExpireEventTimeout_fields opts k v si)
      as (F1 & F2 & F3 & F4 & F5 & _).
    assert (Hnone : expireTimeouts (tm si) !! k = None) by (by apply IH5).
    pose proof F3 as F3r. rewrite Hnone in F3.
    split; [by rewrite F1|]. split; [by rewrite F5|].
    split; [by rewrite setExpireEventTimeout_trace|].
    split; [by rewrite setExpireEventTimeout_asm|].
    split.
    { rewrite setExpireEventTimeout_renewPromise, IHc. apply delete_empty. }
    split.
    { apply setExpireEventTimeout_inv; [exact IH4|].
      rewrite IH1. apply Hst. by left. }
    split.
    { rewrite F2, F3r, F4. apply table_ok_schedule.
      by apply table_ok_clear. }
    split.
    { intros k' Hout. rewrite F2.
      assert (k' <> k) by (intros ->; apply Hout; cbn; by left).
      assert (Hd : delete k (expireTimeouts (tm si)) !! k' = None).
      { rewrite lookup_delete_ne by congruence.
        apply IH5. intros Hin. apply Hout. cbn. by right. }
      unfold assign. destruct (String.eqb k "__proto__"); [exact Hd|].
      by rewrite lookup_insert_ne by congruence. }
    intros k' v' [[= -> ->]|Hin]%elem_of_cons.
    + exists (next_handle (tm si)). rewrite F2, F3, IH2. split.
      * intros Hp. apply String.eqb_neq in Hp. unfold assign.
        by rewrite Hp, lookup_insert_eq.
      * by rewrite lookup_insert_eq.
    + destruct (IH6 k' v' Hin) as (h & He & Ht).
      assert (k' <> k).
      { intros ->. apply Hk. apply list_elem_of_fmap. by exists (k, v'). }
      exists h. rewrite F2, F3. split.
      * intros Hp. unfold assign.
        destruct (String.eqb k "__proto__");
          rewrite ?lookup_insert_ne, lookup_delete_ne by congruence;
          by apply He.
      * rewrite lookup_insert_ne; [exact Ht|].
        destruct (IH4 h _ Ht) as (Hlt & _). lia.
Qed.

Lemma construct_unreadable opts persisted now e :
  construct opts persisted now (Some e)
  = Normal (emitError e (log GetStorage (initial_sdk persisted now))).
Proof. reflexivity. Qed.

Lemma construct_nullish opts persisted now :
  (exists k v, persisted !! k = Some v /\ is_nullish v = true) ->
  construct opts persisted now None = Throw TypeError.
Proof.
  intros (k & v & Hk & Hv). unfold construct, setExpireEventTimeoutAll.
  rewrite getStorage_eq. cbn [tm storage initial_sdk].
  replace (existsb _ _) with true; [reflexivity|].
  symmetry. apply existsb_exists. exists (k, v). split; [|exact Hv].
  apply list_elem_of_In. by apply elem_of_map_to_list.
Qed.

Lemma construct_facts opts persisted now s :
  construct opts persisted now None = Normal s ->
  storage (tm s) = persisted
  /\ clock_now (tm s) = now
  /\ trace s = [GetStorage]
  /\ renewPromise (tm s) = ∅
  /\ tm_inv (tm s)
  /\ tables_inv (tm s)
  /\ (forall k, persisted !! k = None -> expireTimeouts (tm s) !! k = None)
  /\ (forall k v, persisted !! k = Some v ->
        exists h,
          (k <> "__proto__" -> expireTimeouts (tm s) !! k = Some h)
          /\ timers (tm s) !! h
             = Some {| timer_delay :=
                         timeout_delay
                           (num_sub (getExpireTime opts v) (Some now));
                       timer_key := k; timer_token := v |}).
Proof.
  unfold construct, setExpireEventTimeoutAll.
  rewrite getStorage_eq. cbn [tm storage initial_sdk].
  destruct (existsb _ _); [discriminate|]. intros [= <-].
  match goal with
  | |- context [foldr _ ?s0 _] =>
      destruct (schedule_all opts (map_to_list persisted) s0)
        as (H1 & H2 & H3 & _ & Hc & H4 & Ht & H5 & H6)
  end.
  - apply NoDup_fst_map_to_list.
  - intros k v Hin. cbn. by apply elem_of_map_to_list.
  - intros h tmr Hh. cbn in Hh. by rewrite lookup_empty in Hh.
  - reflexivity.
  - reflexivity.
  - split; [exact H1|]. split; [exact H2|]. split; [exact H3|].
    split; [exact Hc|]. split; [exact H4|]. split; [|split].
    + split; [exact Ht|]. intros k. rewrite Hc, lookup_empty.
      by intros [? [=]].
    + intros k Hk. apply H5. intros [[k' v] [Heq Hin]]%list_elem_of_fmap.
      cbn in Heq. subst k'. apply elem_of_map_to_list in Hin. congruence.
    + intros k v Hk. apply H6. by apply elem_of_map_to_list.
Qed.

Lemma construct_normal opts persisted now :
  (forall k v, persisted !! k = Some v -> is_nullish v = false) ->
  exists s, construct opts persisted now None = Normal s.
Proof.
  intros Hall. unfold construct, setExpireEventTimeoutAll.
  rewrite getStorage_eq. cbn [tm storage initial_sdk].
  destruct (existsb _ _) eqn:He; [|by eexists].
  apply existsb_exists in He as ([k v] & Hin & Hv).
  apply list_elem_of_In, elem_of_map_to_list in Hin.
  cbn in Hv. rewrite (Hall _ _ Hin) in Hv. discriminate.
Qed.

(** The state the constructor leaves, whichever way it returned. *)
Lemma construct_inv opts persisted now read_failure s :
  construct opts persisted now read_failure = Normal s ->
  tm_inv (tm s) /\ tables_inv (tm s) /\ renewPromise (tm s) = ∅.
Proof.
  destruct read_failure as [e|].
  - rewrite construct_unreadable. intros [= <-].
    unfold emitError, tm_inv, tables_inv. rewrite emit_tm.
    cbn [log tm initial_sdk storage expireTimeouts timers next_handle
         renewPromise].
    split; [|split; [split|]].
    + intros h tmr Hh. by rewrite lookup_empty in Hh.
    + intros k h Hk. by rewrite lookup_empty in Hk.
    + intros k. rewrite lookup_empty. by intros [? [=]].
    + reflexivity.
  - intros Hc.
    by destruct (construct_facts _ _ _ _ Hc) as (_ & _ & _ & H1 & H2 & H3 & _).
Qed.

Lemma reachable_tm_inv opts s : reachable opts s -> tm_inv (tm s).
Proof.
  intros (persisted & now & read_failure & ts & s0 & Hc & ->).
  apply run_inv. by destruct (construct_inv _ _ _ _ _ Hc).
Qed.

Lemma reachable_tables_inv opts s : reachable opts s -> tables_inv (tm s).
Proof.
  intros (persisted & now & read_failure & ts & s0 & Hc & ->).
  apply run_tables. by destruct (construct_inv _ _ _ _ _ Hc) as (_ & H & _).
Qed.

(** X6: what the constructor does with the store it finds.  When the store
    cannot be read, it emits the error of the read as an [error] event and
    schedules nothing.  When an entry of the store is [null] or [undefined],
    it throws a TypeError.  Otherwise it schedules one expiration timer for
    every entry, carrying the entry's key and value and, for an [expiresAt]
    that is a number, the delay [add] would give it at that time; the timer
    table names that timer for the key (unless the key is [__proto__]) and
    has no entry for any other key; the store is read once and left as it
    was, and no event is emitted. *)
Theorem construct_schedules_every_persisted_token opts persisted now :
  (forall e,
     exists s,
       construct opts persisted now (Some e) = Normal s
       /\ trace s = [GetStorage; Emit (Error e)]
       /\ storage (tm s) = persisted
       /\ expireTimeouts (tm s) = ∅
       /\ timers (tm s) = ∅)
  /\ ((exists k v, persisted !! k = Some v /\ is_nullish v = true) ->
      construct opts persisted now None = Throw TypeError)
  /\ ((forall k v, persisted !! k = Some v -> is_nullish v = false) ->
      exists s,
        construct opts persisted now None = Normal s
        /\ storage (tm s) = persisted
        /\ trace s = [GetStorage]
        /\ (forall k, persisted !! k = None ->
                      expireTimeouts (tm s) !! k = None)
        /\ (forall k v, persisted !! k = Some v ->
              exists h tmr,
                timers (tm s) !! h = Some tmr
                /\ timer_key tmr = k
                /\ timer_token tmr = v
                /\ (k <> "__proto__" -> expireTimeouts (tm s) !! k = Some h)
                /\ (forall e, get_prop v "expiresAt" = VNum e ->
                      timer_delay tmr
                      = Z.max (e - expireEarlySeconds opts - now) 0 * 1000))).
Proof.
  split; [|split].
  - intros e. eexists. split; [apply construct_unreadable|].
    unfold emitError. rewrite emit_trace, emit_tm. by cbn.
  - apply construct_nullish.
  - intros Hall. destruct (construct_normal opts persisted now Hall) as [s Hc].
    exists s. split; [exact Hc|].
    destruct (construct_facts _ _ _ _ Hc)
      as (H1 & _ & H3 & _ & _ & _ & H5 & H6).
    split; [exact H1|]. split; [exact H3|]. split; [exact H5|].
    intros k v Hk. destruct (H6 k v Hk) as (h & He & Ht).
    eexists h, _. split; [exact Ht|]. cbn.
    do 2 (split; [reflexivity|]). split; [exact He|].
    intros e Hx. unfold getExpireTime. rewrite Hx. reflexivity.
Qed.

Lemma construct_schedules_every_persisted_token_witness :
  (exists s h,
     construct DEFAULT_OPTIONS persisted_tokens 100 None = Normal s
     /\ expireTimeouts (tm s) !! ID_TOKEN_STORAGE_KEY = Some h
     /\ exists tmr, timers (tm s) !! h = Some tmr
                    /\ timer_delay tmr = 870000)
  /\ construct DEFAULT_OPTIONS persisted_null 100 None = Throw TypeError
  /\ exists s,
       construct DEFAULT_OPTIONS persisted_tokens 100 (Some unreadable)
       = Normal s
       /\ emitted (trace s) = [Error unreadable].
Proof.
  destruct (construct_schedules_every_persisted_token
              DEFAULT_OPTIONS persisted_tokens 100) as (H1 & _ & H3).
  destruct (construct_schedules_every_persisted_token
              DEFAULT_OPTIONS persisted_null 100) as (_ & H2 & _).
  split; [|split].
  - destruct H3 as (s & Hc & _ & _ & _ & H).
    { intros k v Hk. unfold persisted_tokens in Hk.
      apply lookup_insert_Some in Hk as [[_ <-]|[_ Hk]]; [reflexivity|].
      apply lookup_insert_Some in Hk as [[_ <-]|[_ Hk]]; [reflexivity|].
      by rewrite lookup_empty in Hk. }
    destruct (H ID_TOKEN_STORAGE_KEY sample_idToken)
      as (h & tmr & Ht & _ & _ & He & Hd); [reflexivity|].
    exists s, h. split; [exact Hc|]. split; [by apply He|].
    exists tmr. split; [exact Ht|]. by rewrite (Hd 1000).
  - apply H2. exists ACCESS_TOKEN_STORAGE_KEY, VNull.
    split; [apply lookup_insert_eq | reflexivity].
  - destruct (H1 unreadable) as (s & Hc & Ht & _).
    exists s. split; [exact Hc|]. by rewrite Ht.
Defined.

(** ** The timers of a running SDK *)

Lemma renew_trace_extends key s :
  exists rest, trace (snd (renew key s)) = trace s ++ rest.
Proof.
  unfold renew.
  destruct (renewPromise (tm s) !! key);
    [exists []; cbn; by rewrite app_nil_r|].
  destruct (inherited key); [exists []; cbn; by rewrite app_nil_r|].
  rewrite get_eq. cbn zeta.
  destruct (negb (truthy (default VUndefined (storage (tm s) !! key)))).
  - exists [GetStorage]. reflexivity.
  - exists [GetStorage;
            TokenRenew (default VUndefined (storage (tm s) !! key))].
    cbn. rewrite clearExpireEventTimeout_trace. cbn. by rewrite <- app_assoc.
Qed.

(** X7: in every state the SDK can reach there is at most one live
    expiration timer per key other than [__proto__], and such a timer is the
    one the timer table names for its key and carries the token that is
    stored under its key at that moment: the [expired] event of a firing
    timer reports the token currently in the store. *)
Theorem live_timers_are_unique_and_current opts s :
  reachable opts s ->
  (forall h1 h2 t1 t2,
     timers (tm s) !! h1 = Some t1 -> timers (tm s) !! h2 = Some t2 ->
     timer_key t1 = timer_key t2 -> timer_key t1 <> "__proto__" -> h1 = h2)
  /\ (forall h t,
        timers (tm s) !! h = Some t ->
        (timer_key t <> "__proto__" ->
         expireTimeouts (tm s) !! timer_key t = Some h
         /\ fst (get (timer_key t) s) = timer_token t)
        /\ exists rest,
             trace (fire opts h s)
             = trace s ++ Emit (Expired (timer_key t) (timer_token t)) :: rest).
Proof.
  intros Hr. pose proof (reachable_tm_inv _ _ Hr) as Hinv. split.
  - intros h1 h2 t1 t2 H1 H2 Hk Hp.
    destruct (Hinv h1 t1 H1) as (_ & E1). destruct (Hinv h2 t2 H2) as (_ & E2).
    destruct (E1 Hp) as (E1' & _).
    destruct E2 as (E2' & _); [congruence|].
    rewrite Hk in E1'. congruence.
  - intros h t Hh. destruct (Hinv h t Hh) as (_ & H).
    split.
    { intros Hp. destruct (H Hp) as (He & Hs).
      split; [exact He|]. by rewrite get_value, Hs. }
    unfold fire. rewrite Hh. unfold emitExpired, emit.
    cbn [log trace]. unfold onTokenExpiredHandler.
    destruct (autoRenew opts).
    + match goal with
      | |- context [renew ?k ?x] =>
          destruct (renew_trace_extends k x) as [rest ->]
      end.
      cbn. exists rest. by rewrite <- app_assoc.
    + match goal with
      | |- context [remove ?k ?x] => destruct (remove_trace k x) as [rest ->]
      end.
      cbn. eexists. by rewrite <- !app_assoc.
Qed.

Lemma live_timers_are_unique_and_current_witness :
  let s := run DEFAULT_OPTIONS [CallAdd "k" sample_accessToken;
                                CallAdd "k" sample_idToken] sample_sdk in
  fst (get "k" s) = sample_idToken
  /\ timers (tm s) !! 1%nat
     = Some {| timer_delay := 870000; timer_key := "k";
               timer_token := sample_idToken |}.
Proof.
  intros s.
  assert (Hr : reachable DEFAULT_OPTIONS s)
    by (exists ∅, 100, None; do 2 eexists; split; reflexivity).
  assert (Ht : timers (tm s) !! 1%nat
               = Some {| timer_delay := 870000; timer_key := "k";
                         timer_token := sample_idToken |})
    by (vm_compute; reflexivity).
  destruct (live_timers_are_unique_and_current DEFAULT_OPTIONS s Hr)
    as (_ & H).
  destruct (H 1%nat _ Ht) as (Hg & _).
  destruct Hg as (_ & Hg); [discriminate|].
  split; [exact Hg | exact Ht].
Defined.

Lemma fire_without_timer opts h s :
  timers (tm s) !! h = None -> fire opts h s = s.
Proof. intros H. unfold fire. by rewrite H. Qed.

(** X8: in every state the SDK can reach, [clear()] empties the token store
    and the timer table with one call, the wiping of the storage, and no
    event, and [get] of every key returns [undefined] afterwards.  Of the
    timers it leaves those, and only those, that were scheduled under the
    key [__proto__]: with no such timer the timer queue is empty and no
    [expired] event can fire afterwards. *)
Theorem clear_leaves_no_token_and_no_timer opts s :
  reachable opts s ->
  let s' := clear s in
  storage (tm s') = ∅
  /\ expireTimeouts (tm s') = ∅
  /\ (forall h t,
        timers (tm s') !! h = Some t
        <-> timers (tm s) !! h = Some t /\ timer_key t = "__proto__")
  /\ trace s' = trace s ++ [ClearStorage]
  /\ (forall key, fst (get key s') = VUndefined)
  /\ ((forall h t, timers (tm s) !! h = Some t ->
                   timer_key t <> "__proto__") ->
      timers (tm s') = ∅ /\ forall h, fire opts h s' = s').
Proof.
  intros Hr. pose proof (reachable_tm_inv _ _ Hr) as Hinv.
  pose proof (reachable_tables_inv _ _ Hr) as Htab. cbn zeta.
  destruct (clear_fields s) as (Hs & He & _).
  split; [exact Hs|]. split; [exact He|].
  split; [intros h t; by apply clear_timers|].
  split; [apply clear_trace|]. split.
  - intros key. by rewrite get_value, Hs, lookup_empty.
  - intros Hno.
    assert (Hempty : timers (tm (clear s)) = ∅).
    { apply map_empty. intros h.
      destruct (timers (tm (clear s)) !! h) as [t|] eqn:Hh; [|done].
      apply (clear_timers _ _ _ Hinv Htab) in Hh as [Hh Hp].
      by apply Hno in Hh. }
    split; [exact Hempty|].
    intros h. apply fire_without_timer. by rewrite Hempty, lookup_empty.
Qed.

Lemma clear_leaves_no_token_and_no_timer_witness :
  let s := run DEFAULT_OPTIONS [CallAdd "k" sample_accessToken] sample_sdk in
  timers (tm s) !! 0%nat <> None
  /\ timers (tm (clear s)) = ∅
  /\ fire DEFAULT_OPTIONS 0 (clear s) = clear s.
Proof.
  intros s.
  assert (Hr : reachable DEFAULT_OPTIONS s)
    by (exists ∅, 100, None; do 2 eexists; split; reflexivity).
  destruct (clear_leaves_no_token_and_no_timer DEFAULT_OPTIONS s Hr)
    as (_ & _ & _ & _ & _ & H).
  destruct H as (Ht & Hf).
  { intros h t Hh.
    assert (Hts : timers (tm s)
                  = {[ 0%nat := {| timer_delay := 870000; timer_key := "k";
                                   timer_token := sample_accessToken |} ]})
      by (vm_compute; reflexivity).
    rewrite Hts in Hh. apply lookup_singleton_Some in Hh as [_ <-].
    discriminate. }
  split; [vm_compute; discriminate|]. split; [exact Ht | apply Hf].
Defined.

(** X25: a timer scheduled under the key [__proto__] is out of the reach of
    the timer table.  [add] of a well-formed token under that key schedules
    a timer and records nothing; a second [add] under the key schedules
    another timer and leaves the first; [clear()] leaves it as well, so that
    its [expired] event is emitted after the store was cleared. *)
Theorem proto_timer_outlives_clear opts token token' s :
  reachable opts s ->
  malformed token = false ->
  malformed token' = false ->
  let h := next_handle (tm s) in
  let s1 := snd (add opts "__proto__" token s) in
  let s2 := snd (add opts "__proto__" token' s1) in
  expireTimeouts (tm s1) !! "__proto__" = None
  /\ (exists tmr,
        timer_key tmr = "__proto__" /\ timer_token tmr = token
        /\ timers (tm s1) !! h = Some tmr
        /\ timers (tm s2) !! h = Some tmr
        /\ timers (tm s2) !! S h <> None
        /\ timers (tm (clear s1)) !! h = Some tmr)
  /\ storage (tm (clear s1)) = ∅
  /\ exists rest,
       trace (fire opts h (clear s1))
       = trace (clear s1) ++ Emit (Expired "__proto__" token) :: rest.
Proof.
  intros Hr Hok Hok' h s1 s2.
  pose proof (reachable_tm_inv _ _ Hr) as Hinv.
  pose proof (reachable_tables_inv _ _ Hr) as Htab.
  assert (Hinv1 : tm_inv (tm s1)) by (by apply add_inv).
  assert (Htab1 : tables_inv (tm s1)) by (by apply add_tables).
  assert (Hnone : forall x, tables_inv (tm x) ->
                            expireTimeouts (tm x) !! "__proto__" = None).
  { intros x [Hx _].
    destruct (expireTimeouts (tm x) !! "__proto__") as [h0|] eqn:Hk; [|done].
    by destruct (Hx _ _ Hk) as (_ & Hne & _). }
  assert (Hf : forall tk x,
            malformed tk = false -> tables_inv (tm x) ->
            timers (tm (snd (add opts "__proto__" tk x)))
            = <[next_handle (tm x) :=
                  {| timer_delay :=
                       timeout_delay (num_sub (getExpireTime opts tk)
                                              (Some (clock_now (tm x))));
                     timer_key := "__proto__"; timer_token := tk |}]>
                (timers (tm x))
            /\ next_handle (tm (snd (add opts "__proto__" tk x)))
               = S (next_handle (tm x))).
  { intros tk x Htk Hx. rewrite (add_accepted _ _ _ _ Htk). cbn [snd].
    destruct (setExpireEventTimeout_fields opts "__proto__" tk
                (setStorage (<["__proto__" := tk]> (storage (tm x)))
                            (log GetStorage x)))
      as (_ & _ & -> & -> & _).
    cbn. by rewrite (Hnone x Hx). }
  destruct (Hf token s Hok Htab) as [Ht1 Hn1].
  destruct (Hf token' s1 Hok' Htab1) as [Ht2 _].
  fold s1 in Ht1, Hn1. fold s2 in Ht2.
  set (tmr := {| timer_delay :=
                   timeout_delay (num_sub (getExpireTime opts token)
                                          (Some (clock_now (tm s))));
                 timer_key := "__proto__"; timer_token := token |}) in *.
  assert (H1 : timers (tm s1) !! h = Some tmr)
    by (rewrite Ht1; apply lookup_insert_eq).
  assert (Hc : timers (tm (clear s1)) !! h = Some tmr)
    by (by apply clear_timers).
  split; [by apply Hnone|]. split; [|split].
  - exists tmr. do 2 (split; [reflexivity|]). split; [exact H1|].
    split; [|split; [|exact Hc]].
    + rewrite Ht2, Hn1. rewrite lookup_insert_ne by (subst h; lia). exact H1.
    + rewrite Ht2, Hn1. by rewrite lookup_insert_eq.
  - by destruct (clear_fields s1) as (-> & _).
  - unfold fire. rewrite Hc. unfold emitExpired, emit.
    cbn [log trace timer_key timer_token tmr]. unfold onTokenExpiredHandler.
    destruct (autoRenew opts).
    + match goal with
      | |- context [renew ?k ?x] =>
          destruct (renew_trace_extends k x) as [rest ->]
      end.
      cbn. exists rest. by rewrite <- app_assoc.
    + match goal with
      | |- context [remove ?k ?x] => destruct (remove_trace k x) as [rest ->]
      end.
      cbn. eexists. by rewrite <- !app_assoc.
Qed.

Lemma proto_timer_outlives_clear_witness :
  let s1 := snd (add DEFAULT_OPTIONS "__proto__" sample_accessToken
                     sample_sdk) in
  expireTimeouts (tm s1) !! "__proto__" = None
  /\ emitted (trace (fire DEFAULT_OPTIONS 0 (clear s1)))
     = [Expired "__proto__" sample_accessToken].
Proof.
  intros s1.
  assert (Hr : reachable DEFAULT_OPTIONS sample_sdk)
    by (exists ∅, 100, None, [], sample_sdk; split; reflexivity).
  destruct (proto_timer_outlives_clear
              DEFAULT_OPTIONS sample_accessToken sample_idToken sample_sdk
              Hr eq_refl eq_refl)
    as (H1 & _ & _ & _).
  split; [exact H1|]. vm_compute. reflexivity.
Defined.

(** ** What the SDK does when a token expires *)

Lemma remove_emitted key s :
  emitted (trace (remove key s)) = emitted (trace s) ++ [Removed key].
Proof.
  unfold remove, emitRemoved. rewrite getStorage_eq, emit_emitted. cbn.
  rewrite clearExpireEventTimeout_trace.
  by rewrite !emitted_quiet by exact I.
Qed.

Lemma renew_calls_app a b : renew_calls (a ++ b) = renew_calls a ++ renew_calls b.
Proof. apply omap_app. Qed.

Lemma updateAuthState_renew_calls s :
  renew_calls (trace (updateAuthState s)) = renew_calls (trace s).
Proof. by rewrite updateAuthState_trace. Qed.

Lemma emit_renew_calls e s :
  renew_calls (trace (emit e s)) = renew_calls (trace s).
Proof. rewrite emit_trace, renew_calls_app. apply app_nil_r. Qed.

Lemma remove_renew_calls key s :
  renew_calls (trace (remove key s)) = renew_calls (trace s).
Proof.
  unfold remove, emitRemoved. rewrite getStorage_eq, emit_renew_calls. cbn.
  rewrite clearExpireEventTimeout_trace, !renew_calls_app. cbn.
  by rewrite !app_nil_r.
Qed.

(** X10: when the timer of [key] fires and auto-renew is off, the events
    emitted are [expired(key, token)] and then [removed(key)], the token is
    deleted from the store and the timer is gone; the provider is not
    contacted. *)
Theorem expired_token_is_removed_without_autoRenew opts h t s :
  autoRenew opts = false ->
  timers (tm s) !! h = Some t ->
  let s' := fire opts h s in
  emitted (trace s')
  = emitted (trace s)
    ++ [Expired (timer_key t) (timer_token t); Removed (timer_key t)]
  /\ storage (tm s') = delete (timer_key t) (storage (tm s))
  /\ timers (tm s') !! h = None
  /\ renew_calls (trace s') = renew_calls (trace s).
Proof.
  intros Ha Hh. cbn zeta. unfold fire. rewrite Hh.
  unfold emitExpired, onTokenExpiredHandler. rewrite Ha.
  match goal with
  | |- context [remove ?k ?x] =>
      destruct (remove_tm_fields k x) as (Hs & _ & _ & Ht & _);
      rewrite Hs, Ht, (remove_emitted k x), (remove_renew_calls k x)
  end.
  rewrite emit_emitted, emit_tm, emit_renew_calls. cbn.
  split; [by rewrite <- app_assoc|]. split; [reflexivity|].
  split; [|reflexivity].
  destruct (expireTimeouts (tm s) !! timer_key t) as [h0|].
  - destruct (decide (h0 = h)) as [->|Hne]; [apply lookup_delete_eq|].
    rewrite lookup_delete_ne by done. apply lookup_delete_eq.
  - apply lookup_delete_eq.
Qed.

Lemma expired_token_is_removed_without_autoRenew_witness :
  let s := snd (add options_without_autoRenew "k" sample_accessToken
                    sample_sdk) in
  storage (tm (fire options_without_autoRenew 0 s)) !! "k" = None
  /\ emitted (trace (fire options_without_autoRenew 0 s))
     = [Expired "k" sample_accessToken; Removed "k"].
Proof.
  intros s.
  assert (Ht : timers (tm s) !! 0%nat
               = Some {| timer_delay := 870000; timer_key := "k";
                         timer_token := sample_accessToken |})
    by (vm_compute; reflexivity).
  destruct (expired_token_is_removed_without_autoRenew
              options_without_autoRenew 0 _ s eq_refl Ht)
    as (He & Hs & _).
  split.
  - rewrite Hs. apply lookup_delete_eq.
  - exact He.
Defined.

Lemma renew_storage key s :
  storage (tm (snd (renew key s))) = storage (tm s).
Proof.
  unfold renew. destruct (renewPromise (tm s) !! key); [reflexivity|].
  destruct (inherited key); [reflexivity|].
  rewrite get_eq. cbn zeta.
  destruct (negb (truthy (default VUndefined (storage (tm s) !! key))));
    [reflexivity|].
  cbn. by rewrite clearExpireEventTimeout_storage.
Qed.

(** X11: when the timer of [key] fires and auto-renew is on, with a token
    stored under [key], no renewal of [key] cached and [key] not the name
    of a member of [Object.prototype], the only event emitted is
    [expired(key, token)] and one renewal is started: the provider is called
    once, with the token stored under [key], and the promise is cached.  The
    store is left as it is. *)
Theorem expired_token_is_renewed_with_autoRenew opts h t s :
  autoRenew opts = true ->
  timers (tm s) !! h = Some t ->
  inherited (timer_key t) = false ->
  renewPromise (tm s) !! timer_key t = None ->
  truthy (default VUndefined (storage (tm s) !! timer_key t)) = true ->
  let s' := fire opts h s in
  emitted (trace s')
  = emitted (trace s) ++ [Expired (timer_key t) (timer_token t)]
  /\ renew_calls (trace s')
     = renew_calls (trace s)
       ++ [default VUndefined (storage (tm s) !! timer_key t)]
  /\ storage (tm s') = storage (tm s)
  /\ exists p, renewPromise (tm s') !! timer_key t = Some p
               /\ outstanding (timer_key t) p s'.
Proof.
  intros Ha Hh Hi Hc Ht. cbn zeta. unfold fire. rewrite Hh.
  unfold emitExpired, onTokenExpiredHandler. rewrite Ha.
  set (x := emit (Expired (timer_key t) (timer_token t))
                 (on_tm (fun m => set_timers (delete h (timers m)) m) s)).
  assert (Hx : tm x
               = set_timers (delete h (timers (tm s))) (tm s))
    by (subst x; by rewrite emit_tm).
  destruct (renew_fresh (timer_key t) x) as (Hp & Htr & Hrp & Hrn);
    [by rewrite Hx | exact Hi | by rewrite Hx |].
  rewrite Hx in Htr, Hrn. cbn [storage set_timers] in Htr, Hrn.
  split; [|split; [|split]].
  - rewrite Htr. rewrite emitted_app. subst x. rewrite emit_emitted. cbn.
    by rewrite app_nil_r.
  - rewrite Htr, renew_calls_app. subst x. rewrite emit_renew_calls. cbn.
    reflexivity.
  - by rewrite renew_storage, Hx.
  - eexists. split; [exact Hrp|]. eexists. exact Hrn.
Qed.

Lemma expired_token_is_renewed_with_autoRenew_witness :
  let s := snd (add DEFAULT_OPTIONS "k" sample_accessToken sample_sdk) in
  renew_calls (trace (fire DEFAULT_OPTIONS 0 s)) = [sample_accessToken].
Proof.
  intros s.
  assert (Ht : timers (tm s) !! 0%nat
               = Some {| timer_delay := 870000; timer_key := "k";
                         timer_token := sample_accessToken |})
    by (vm_compute; reflexivity).
  destruct (expired_token_is_renewed_with_autoRenew
              DEFAULT_OPTIONS 0 _ s eq_refl Ht)
    as (_ & Hc & _); [vm_compute; reflexivity ..|].
  exact Hc.
Defined.

(** X26: a key that names a member of [Object.prototype] is never renewed.
    In every state the SDK can reach, [renew] of such a key hands back the
    inherited member and does nothing else: it does not read the store and
    does not call the provider.  When the timer of a token stored under
    such a key fires with auto-renew on, the [expired] event is all that
    happens: the token stays in the store and no renewal is started. *)
Theorem inherited_key_is_never_renewed opts key s :
  reachable opts s ->
  inherited key = true ->
  renew key s = (Inherited key, s)
  /\ forall h t,
       autoRenew opts = true ->
       timers (tm s) !! h = Some t -> timer_key t = key ->
       let s' := fire opts h s in
       trace s' = trace s ++ [Emit (Expired key (timer_token t))]
       /\ storage (tm s') = storage (tm s)
       /\ renewPromise (tm s') = renewPromise (tm s)
       /\ renewals (tm s') = renewals (tm s)
       /\ timers (tm s') = delete h (timers (tm s)).
Proof.
  intros Hr Hi. pose proof (reachable_tables_inv _ _ Hr) as [_ Hc].
  assert (Hnone : renewPromise (tm s) !! key = None).
  { destruct (renewPromise (tm s) !! key) as [p|] eqn:Hk; [|done].
    rewrite Hc in Hi; [discriminate | by rewrite Hk]. }
  split; [by apply renew_inherited|].
  intros h t Ha Hh <-. cbn zeta. unfold fire. rewrite Hh.
  unfold emitExpired, onTokenExpiredHandler. rewrite Ha.
  rewrite renew_inherited; [|by rewrite emit_tm | exact Hi].
  cbn [snd]. rewrite emit_trace, emit_tm. by cbn.
Qed.

Lemma inherited_key_is_never_renewed_witness :
  let s := snd (add DEFAULT_OPTIONS "toString" sample_accessToken
                    sample_sdk) in
  renew "toString" s = (Inherited "toString", s)
  /\ renew_calls (trace (fire DEFAULT_OPTIONS 0 s)) = [].
Proof.
  intros s.
  assert (Hr : reachable DEFAULT_OPTIONS s)
    by (exists ∅, 100, None, [CallAdd "toString" sample_accessToken],
          sample_sdk; split; reflexivity).
  destruct (inherited_key_is_never_renewed DEFAULT_OPTIONS "toString" s
              Hr eq_refl)
    as (H1 & H2).
  split; [exact H1|].
  destruct (H2 0%nat {| timer_delay := 870000; timer_key := "toString";
                        timer_token := sample_accessToken |})
    as (Ht & _); [reflexivity | vm_compute; reflexivity | reflexivity |].
  rewrite Ht. vm_compute. reflexivity.
Defined.

(** * Further properties of the sign-out flow *)

Lemma navigations_app a b : navigations (a ++ b) = navigations a ++ navigations b.
Proof. apply List.filter_app. Qed.

Lemma provider_calls_app a b :
  provider_calls (a ++ b) = provider_calls a ++ provider_calls b.
Proof. apply List.filter_app. Qed.

Lemma updateAuthState_provider_calls s :
  provider_calls (trace (updateAuthState s)) = provider_calls (trace s).
Proof. by rewrite updateAuthState_trace. Qed.

Lemma remove_provider_calls key s :
  provider_calls (trace (remove key s)) = provider_calls (trace s).
Proof.
  unfold remove, emitRemoved, emit. rewrite getStorage_eq.
  rewrite updateAuthState_provider_calls. cbn.
  rewrite clearExpireEventTimeout_trace, !provider_calls_app. cbn.
  by rewrite !app_nil_r.
Qed.

(** [signOut], with its reads and its clearing of the store put first. *)
Lemma signOut_eq opts window options revoked closed s :
  let revoke :=
    match opt_revokeAccessToken options with
    | Some false => false
    | _ => true
    end in
  let idToken :=
    if is_undefined (opt_idToken options)
    then default VUndefined (storage (tm s) !! ID_TOKEN_STORAGE_KEY)
    else opt_idToken options in
  let accessToken :=
    if revoke && is_undefined (opt_accessToken options)
    then default VUndefined (storage (tm s) !! ACCESS_TOKEN_STORAGE_KEY)
    else opt_accessToken options in
  let uri :=
    or_else (opt_postLogoutRedirectUri options)
      (or_else (postLogoutRedirectUriOption opts) (location_origin window)) in
  let reads :=
    (if is_undefined (opt_idToken options) then [GetStorage] else [])
    ++ (if revoke && is_undefined (opt_accessToken options)
        then [GetStorage] else []) in
  signOut opts window options revoked closed s
  = let s3 := clear (logs reads s) in
    let rs4 :=
      if revoke && truthy accessToken
      then (revoked, log (TokenRevoke accessToken) s3)
      else (Fulfilled VUndefined, s3) in
    match fst rs4 with
    | Failed e => (Failed e, snd rs4)
    | Fulfilled _ =>
        if negb (truthy idToken) then
          match closeSession closed (snd rs4) with
          | (Failed e, s5) => (Failed e, s5)
          | (Fulfilled _, s5) =>
              if String.eqb uri (location_href window)
              then (Fulfilled VUndefined, log LocationReload s5)
              else (Fulfilled VUndefined, log (LocationAssign uri) s5)
          end
        else
          (Fulfilled VUndefined,
           log (LocationAssign (logoutUri opts idToken uri (opt_state options)))
               (snd rs4))
    end.
Proof.
  intros revoke idToken accessToken uri reads.
  unfold signOut. fold revoke. subst idToken accessToken reads uri.
  destruct (is_undefined (opt_idToken options)),
    (revoke && is_undefined (opt_accessToken options)); cbn zeta;
    repeat (rewrite get_eq; cbn [log tm]);
    match goal with
    | |- context [revoke && truthy ?t] =>
        destruct (revoke && truthy t) eqn:Hrv
    end;
    try (apply andb_true_iff in Hrv as [_ Hrv];
         rewrite (revokeAccessToken_truthy _ _ _ Hrv));
    reflexivity.
Qed.

Lemma closeSession_eq closed s :
  closeSession closed s
  = (match closed with
     | Fulfilled v => Fulfilled v
     | Failed e => if session_not_found e then Fulfilled VUndefined
                   else Failed e
     end, log SessionClose (clear s)).
Proof.
  unfold closeSession.
  destruct closed as [v|e]; [|destruct (session_not_found e)]; reflexivity.
Qed.

(** X12: a [signOut] call without an id token (none stored, or [false]
    supplied), whose revocation is skipped or succeeds, falls back to
    [closeSession]: the store is cleared again and the session close is
    called once.  If that resolves, or fails with the absorbed "not found"
    error, [signOut] resolves after one navigation: a reload when the
    redirect URI equals the current page's URL, otherwise an assign to the
    redirect URI.  If it fails with any other error, [signOut] fails with
    that error and does not navigate. *)
Theorem signOut_without_id_token_closes_session
    opts window options revoked closed s :
  let revoke :=
    match opt_revokeAccessToken options with
    | Some false => false
    | _ => true
    end in
  let idToken :=
    if is_undefined (opt_idToken options)
    then default VUndefined (storage (tm s) !! ID_TOKEN_STORAGE_KEY)
    else opt_idToken options in
  let accessToken :=
    if revoke && is_undefined (opt_accessToken options)
    then default VUndefined (storage (tm s) !! ACCESS_TOKEN_STORAGE_KEY)
    else opt_accessToken options in
  let uri :=
    or_else (opt_postLogoutRedirectUri options)
      (or_else (postLogoutRedirectUriOption opts) (location_origin window)) in
  let before :=
    trace s
    ++ ((if is_undefined (opt_idToken options) then [GetStorage] else [])
        ++ (if revoke && is_undefined (opt_accessToken options)
            then [GetStorage] else []))
    ++ [ClearStorage]
    ++ (if revoke && truthy accessToken
        then [TokenRevoke accessToken] else [])
    ++ [ClearStorage; SessionClose] in
  let r := fst (signOut opts window options revoked closed s) in
  let s' := snd (signOut opts window options revoked closed s) in
  truthy idToken = false ->
  revoke && truthy accessToken = false \/ (exists v, revoked = Fulfilled v) ->
  ((exists v, closed = Fulfilled v)
   \/ (exists e, closed = Failed e /\ session_not_found e = true) ->
   r = Fulfilled VUndefined
   /\ trace s'
      = before ++ [if String.eqb uri (location_href window)
                   then LocationReload else LocationAssign uri])
  /\ (forall e, closed = Failed e -> session_not_found e = false ->
      r = Failed e /\ trace s' = before).
Proof.
  intros revoke idToken accessToken uri before r s' Hid Hrev.
  subst r s'. rewrite signOut_eq. fold revoke idToken accessToken uri.
  rewrite Hid. cbn [negb]. cbn zeta.
  assert (Hrs :
    exists s4,
      (if revoke && truthy accessToken
       then (revoked, log (TokenRevoke accessToken)
                          (clear (logs
                             ((if is_undefined (opt_idToken options)
                               then [GetStorage] else [])
                              ++ (if revoke
                                     && is_undefined (opt_accessToken options)
                                  then [GetStorage] else [])) s)))
       else (Fulfilled VUndefined,
             clear (logs
                      ((if is_undefined (opt_idToken options)
                        then [GetStorage] else [])
                       ++ (if revoke && is_undefined (opt_accessToken options)
                           then [GetStorage] else [])) s)))
      = (match revoked with
         | Fulfilled v => if revoke && truthy accessToken
                          then Fulfilled v else Fulfilled VUndefined
         | Failed e => Fulfilled VUndefined
         end, s4)
      /\ trace (log SessionClose (clear s4)) = before).
  { subst before.
    destruct (revoke && truthy accessToken) eqn:Hrv.
    - destruct Hrev as [[=]|[v ->]]. eexists. split; [reflexivity|].
      cbn. rewrite !clear_trace. cbn. rewrite clear_trace, logs_trace.
      by rewrite <- !app_assoc.
    - eexists. split; [by destruct revoked|].
      cbn. rewrite !clear_trace, logs_trace. by rewrite <- !app_assoc. }
  destruct Hrs as (s4 & -> & Hbefore).
  assert (Hful : exists v0,
            match revoked with
            | Fulfilled v => if revoke && truthy accessToken
                             then Fulfilled v else Fulfilled VUndefined
            | Failed _ => Fulfilled VUndefined
            end = Fulfilled v0).
  { destruct revoked; [destruct (revoke && truthy accessToken)|]; by eexists. }
  destruct Hful as [v0 ->]. cbn [fst snd]. rewrite closeSession_eq.
  split.
  - intros [[v ->] | (e & -> & He)]; [|rewrite He];
      destruct (String.eqb uri (location_href window)); cbn [fst snd];
      (split; [reflexivity|]); cbn [log trace]; by rewrite <- Hbefore.
  - intros e -> He. rewrite He. cbn [fst snd]. by split.
Qed.

Lemma signOut_without_id_token_closes_session_witness :
  trace (snd (signOut sample_options sample_window without_id_token
                      (Fulfilled VUndefined) (Fulfilled VUndefined)
                      signed_in_sdk))
  = trace signed_in_sdk
    ++ [GetStorage; ClearStorage; TokenRevoke sample_accessToken;
        ClearStorage; SessionClose; LocationAssign "https://app.example"]
  /\ fst (signOut sample_options sample_window without_id_token
                  (Fulfilled VUndefined) (Failed network_error)
                  signed_in_sdk) = Failed network_error.
Proof.
  destruct (signOut_without_id_token_closes_session
              sample_options sample_window without_id_token
              (Fulfilled VUndefined) (Fulfilled VUndefined) signed_in_sdk
              eq_refl (or_intror (ex_intro _ VUndefined eq_refl)))
    as [H1 _].
  destruct (signOut_without_id_token_closes_session
              sample_options sample_window without_id_token
              (Fulfilled VUndefined) (Failed network_error) signed_in_sdk
              eq_refl (or_intror (ex_intro _ VUndefined eq_refl)))
    as [_ H2].
  split.
  - destruct (H1 (or_introl (ex_intro _ VUndefined eq_refl))) as [_ Ht].
    refine (eq_trans Ht _). vm_compute. reflexivity.
  - by destruct (H2 network_error eq_refl eq_refl) as [Hr _].
Defined.

Lemma log_trace e s : trace (log e s) = trace s ++ [e].
Proof. reflexivity. Qed.

Lemma clear_navigations s :
  navigations (trace (clear s)) = navigations (trace s).
Proof. rewrite clear_trace, navigations_app. apply app_nil_r. Qed.

Lemma logs_reads_quiet (a b : bool) s :
  navigations (trace (logs ((if a then [GetStorage] else [])
                            ++ (if b then [GetStorage] else [])) s))
  = navigations (trace s).
Proof.
  rewrite logs_trace, navigations_app. destruct a, b; apply app_nil_r.
Qed.

(** X13: whatever its options and whatever the provider answers, [signOut]
    leaves the token store empty; it navigates exactly once when it
    resolves, as its last call, and not at all when it fails. *)
Theorem signOut_navigates_exactly_when_it_resolves
    opts window options revoked closed s :
  let r := fst (signOut opts window options revoked closed s) in
  let s' := snd (signOut opts window options revoked closed s) in
  storage (tm s') = ∅
  /\ (forall e, r = Failed e -> navigations (trace s') = navigations (trace s))
  /\ (forall v, r = Fulfilled v ->
        exists before nav,
          trace s' = before ++ [nav]
          /\ navigations (trace s') = navigations (trace s) ++ [nav]).
Proof.
  cbn zeta. rewrite signOut_eq. cbn zeta.
  set (revoke := match opt_revokeAccessToken options with
                 | Some false => false
                 | _ => true
                 end).
  set (idToken := if is_undefined (opt_idToken options)
                  then default VUndefined
                         (storage (tm s) !! ID_TOKEN_STORAGE_KEY)
                  else opt_idToken options).
  set (accessToken := if revoke && is_undefined (opt_accessToken options)
                      then default VUndefined
                             (storage (tm s) !! ACCESS_TOKEN_STORAGE_KEY)
                      else opt_accessToken options).
  set (uri := or_else _ _).
  set (s3 := clear (logs _ s)).
  assert (H3 : storage (tm s3) = ∅ /\ navigations (trace s3) = navigations (trace s)).
  { subst s3. split; [apply clear_storage|].
    rewrite clear_navigations. apply logs_reads_quiet. }
  destruct H3 as [Hst3 Hnav3].
  set (rs4 := if revoke && truthy accessToken then _ else _).
  assert (H4 : storage (tm (snd rs4)) = ∅
               /\ navigations (trace (snd rs4)) = navigations (trace s)).
  { subst rs4. destruct (revoke && truthy accessToken); cbn [snd]; [|done].
    split; [exact Hst3|]. cbn. rewrite navigations_app, Hnav3. apply app_nil_r. }
  destruct H4 as [Hst4 Hnav4].
  destruct rs4 as [[v4|e4] s4]; cbn [fst snd] in *.
  2:{ split; [exact Hst4|]. split; [intros e _; exact Hnav4 | intros v [=]]. }
  destruct (negb (truthy idToken)).
  - rewrite closeSession_eq.
    assert (H5 : navigations (trace (log SessionClose (clear s4)))
                 = navigations (trace s)).
    { cbn. rewrite navigations_app, clear_navigations, Hnav4. apply app_nil_r. }
    destruct (match closed with
              | Fulfilled v => Fulfilled v
              | Failed e => if session_not_found e then Fulfilled VUndefined
                            else Failed e
              end) as [v5|e5].
    + destruct (String.eqb uri (location_href window)); cbn [fst snd];
        (split; [reflexivity|]); (split; [intros e [=]|]);
        intros v _; eexists _, _; (split; [apply log_trace|]);
        rewrite log_trace, navigations_app, H5; reflexivity.
    + cbn [fst snd]. split; [reflexivity|].
      split; [intros e _; exact H5 | intros v [=]].
  - cbn [fst snd]. split; [exact Hst4|]. split; [intros e [=]|].
    intros v _. eexists _, _. split; [apply log_trace|].
    rewrite log_trace, navigations_app, Hnav4. reflexivity.
Qed.

Lemma signOut_navigates_exactly_when_it_resolves_witness :
  navigations
    (trace (snd (signOut sample_options sample_window no_options
                         (Failed network_error) (Fulfilled VUndefined)
                         signed_in_sdk))) = []
  /\ storage
       (tm (snd (signOut sample_options sample_window no_options
                         (Failed network_error) (Fulfilled VUndefined)
                         signed_in_sdk))) = ∅.
Proof.
  destruct (signOut_navigates_exactly_when_it_resolves
              sample_options sample_window no_options
              (Failed network_error) (Fulfilled VUndefined) signed_in_sdk)
    as (Hs & Hf & _).
  split; [|exact Hs].
  rewrite (Hf network_error); [|vm_compute]; reflexivity.
Defined.

(** X14: [revokeAccessToken()] called without a token reads the stored
    access token and removes its key, emitting [removed].  If a token was
    stored, the provider's revoke is called once, with that token, and the
    call settles as the revoke does; if none was stored, the call resolves
    and the provider is not contacted. *)
Theorem revokeAccessToken_without_argument revoked s :
  let stored :=
    default VUndefined (storage (tm s) !! ACCESS_TOKEN_STORAGE_KEY) in
  let r := fst (revokeAccessToken VUndefined revoked s) in
  let s' := snd (revokeAccessToken VUndefined revoked s) in
  storage (tm s') = delete ACCESS_TOKEN_STORAGE_KEY (storage (tm s))
  /\ emitted (trace s')
     = emitted (trace s) ++ [Removed ACCESS_TOKEN_STORAGE_KEY]
  /\ (truthy stored = true ->
      r = revoked
      /\ provider_calls (trace s')
         = provider_calls (trace s) ++ [TokenRevoke stored])
  /\ (truthy stored = false ->
      r = Fulfilled VUndefined
      /\ provider_calls (trace s') = provider_calls (trace s)).
Proof.
  cbn zeta. unfold revokeAccessToken. cbn [truthy negb]. rewrite get_eq.
  set (stored := default VUndefined
                   (storage (tm s) !! ACCESS_TOKEN_STORAGE_KEY)).
  pose proof (remove_storage ACCESS_TOKEN_STORAGE_KEY (log GetStorage s)) as Hs.
  pose proof (remove_emitted ACCESS_TOKEN_STORAGE_KEY (log GetStorage s)) as He.
  pose proof (remove_provider_calls ACCESS_TOKEN_STORAGE_KEY
                                    (log GetStorage s)) as Hp.
  cbn [log tm trace] in Hs, He, Hp.
  rewrite emitted_quiet in He by exact I.
  rewrite provider_calls_app in Hp. cbn in Hp. rewrite app_nil_r in Hp.
  destruct (truthy stored); cbn [negb fst snd].
  - split; [exact Hs|]. split.
    + cbn [log trace]. by rewrite emitted_quiet by exact I.
    + split; [intros _|intros [=]]. split; [reflexivity|].
      cbn [log trace]. by rewrite provider_calls_app, Hp.
  - split; [exact Hs|]. split; [exact He|].
    split; [intros [=]|intros _]. by split.
Qed.

Lemma revokeAccessToken_without_argument_witness :
  provider_calls
    (trace (snd (revokeAccessToken VUndefined (Fulfilled VUndefined)
                                   sample_sdk))) = []
  /\ provider_calls
       (trace (snd (revokeAccessToken VUndefined (Fulfilled VUndefined)
                                      signed_in_sdk)))
     = [TokenRevoke sample_accessToken].
Proof.
  destruct (revokeAccessToken_without_argument (Fulfilled VUndefined)
                                               sample_sdk) as (_ & _ & _ & H1).
  destruct (revokeAccessToken_without_argument (Fulfilled VUndefined)
                                               signed_in_sdk) as (_ & _ & H2 & _).
  split.
  - destruct H1 as [_ ->]; [vm_compute|]; reflexivity.
  - destruct H2 as [_ ->]; [vm_compute; reflexivity|].
    vm_compute. reflexivity.
Defined.

(** * The token getters, handleAuthentication, logout and the referrer *)


Lemma add_storage_accepted opts key token s :
  malformed token = false ->
  storage (tm (snd (add opts key token s))) = <[key := token]> (storage (tm s)).
Proof.
  intros Hok. rewrite (add_accepted _ _ _ _ Hok). cbn [snd].
  by rewrite setExpireEventTimeout_storage.
Qed.

Lemma getIdToken_value s :
  fst (getIdToken s)
  = let idToken :=
      default VUndefined (storage (tm s) !! ID_TOKEN_STORAGE_KEY) in
    if truthy idToken then get_prop idToken "idToken" else VUndefined.
Proof. reflexivity. Qed.

Lemma getAccessToken_value s :
  fst (getAccessToken s)
  = let accessToken :=
      default VUndefined (storage (tm s) !! ACCESS_TOKEN_STORAGE_KEY) in
    if truthy accessToken then get_prop accessToken "accessToken"
    else VUndefined.
Proof. reflexivity. Qed.

Lemma handleAuthentication_accepted opts idT accT s :
  malformed idT = false ->
  malformed accT = false ->
  let parsed := inl {| parsed_idToken := idT; parsed_accessToken := accT |} in
  fst (handleAuthentication opts parsed s) = Fulfilled VUndefined
  /\ storage (tm (snd (handleAuthentication opts parsed s)))
     = <[ACCESS_TOKEN_STORAGE_KEY := accT]>
         (<[ID_TOKEN_STORAGE_KEY := idT]> (storage (tm s))).
Proof.
  intros Hi Ha. cbn zeta. unfold handleAuthentication.
  cbn [parsed_idToken parsed_accessToken].
  rewrite (malformed_false_truthy _ Hi), (malformed_false_truthy _ Ha).
  pose proof (add_storage_accepted opts ID_TOKEN_STORAGE_KEY idT s Hi) as H1.
  destruct (add opts ID_TOKEN_STORAGE_KEY idT s) as [r1 s1] eqn:E1.
  assert (r1 = Normal tt) as ->.
  { pose proof (f_equal fst E1) as Hf.
    rewrite (add_accepted _ _ _ _ Hi) in Hf. by cbn in Hf. }
  cbn [snd] in H1.
  pose proof (add_storage_accepted opts ACCESS_TOKEN_STORAGE_KEY accT s1 Ha)
    as H2.
  destruct (add opts ACCESS_TOKEN_STORAGE_KEY accT s1) as [r2 s2] eqn:E2.
  assert (r2 = Normal tt) as ->.
  { pose proof (f_equal fst E2) as Hf.
    rewrite (add_accepted _ _ _ _ Ha) in Hf. by cbn in Hf. }
  cbn [fst snd] in *. split; [reflexivity|]. by rewrite H2, H1.
Qed.

(** X15: [handleAuthentication], when the redirect parsed into a
    well-formed id token and a well-formed access token, resolves with both
    stored under their well-known keys: afterwards [getIdToken] returns the
    id token's raw string and [getAccessToken] the access token's, and every
    other key of the store is as before. *)
Theorem handleAuthentication_stores_both_tokens opts idT accT s :
  malformed idT = false ->
  malformed accT = false ->
  let parsed := inl {| parsed_idToken := idT; parsed_accessToken := accT |} in
  let r := fst (handleAuthentication opts parsed s) in
  let s' := snd (handleAuthentication opts parsed s) in
  r = Fulfilled VUndefined
  /\ fst (getIdToken s') = get_prop idT "idToken"
  /\ fst (getAccessToken s') = get_prop accT "accessToken"
  /\ forall key,
       key <> ID_TOKEN_STORAGE_KEY -> key <> ACCESS_TOKEN_STORAGE_KEY ->
       fst (get key s') = fst (get key s).
Proof.
  intros Hi Ha. cbn zeta.
  destruct (handleAuthentication_accepted opts idT accT s Hi Ha) as (-> & Hs).
  split; [reflexivity|].
  rewrite getIdToken_value, getAccessToken_value, Hs.
  split; [|split].
  - rewrite lookup_insert_ne by discriminate. rewrite lookup_insert_eq. cbn.
    by rewrite (malformed_false_truthy _ Hi).
  - rewrite lookup_insert_eq. cbn. by rewrite (malformed_false_truthy _ Ha).
  - intros key Hk1 Hk2. rewrite !get_value, Hs.
    by rewrite !lookup_insert_ne by congruence.
Qed.

Lemma handleAuthentication_stores_both_tokens_witness :
  let parsed := inl {| parsed_idToken := sample_idToken;
                       parsed_accessToken := sample_accessToken |} in
  fst (getIdToken (snd (handleAuthentication DEFAULT_OPTIONS parsed sample_sdk)))
  = VStr "raw id/token"
  /\ fst (getAccessToken
            (snd (handleAuthentication DEFAULT_OPTIONS parsed sample_sdk)))
     = VStr "raw-access".
Proof.
  intros parsed.
  destruct (handleAuthentication_stores_both_tokens
              DEFAULT_OPTIONS sample_idToken sample_accessToken sample_sdk
              eq_refl eq_refl) as (_ & H1 & H2 & _).
  split; [exact H1 | exact H2].
Defined.

(** X16: [handleAuthentication] is not atomic.  When the id token is
    well-formed and the access token is present but malformed, the call
    fails with the [AuthSdkError] of [add] and yet the id token has been
    stored.  When the id token is present but malformed, the call fails
    before the access token is looked at and the token manager is left as
    it was.  When the parsing itself fails, the call fails with that error
    and nothing is done. *)
Theorem handleAuthentication_fails_without_rollback opts idT accT s :
  let parsed := inl {| parsed_idToken := idT; parsed_accessToken := accT |} in
  let r := fst (handleAuthentication opts parsed s) in
  let s' := snd (handleAuthentication opts parsed s) in
  (malformed idT = false -> truthy accT = true -> malformed accT = true ->
   (exists msg, r = Failed (AuthSdkError msg))
   /\ storage (tm s') = <[ID_TOKEN_STORAGE_KEY := idT]> (storage (tm s)))
  /\ (truthy idT = true -> malformed idT = true ->
      (exists msg, r = Failed (AuthSdkError msg)) /\ tm s' = tm s)
  /\ (forall e, handleAuthentication opts (inr e) s = (Failed e, s)).
Proof.
  cbn zeta. unfold handleAuthentication.
  cbn [parsed_idToken parsed_accessToken].
  split; [|split; [|reflexivity]].
  - intros Hi Hta Ha. rewrite (malformed_false_truthy _ Hi), Hta.
    pose proof (add_storage_accepted opts ID_TOKEN_STORAGE_KEY idT s Hi) as H1.
    rewrite (add_accepted _ _ _ _ Hi) in *. cbn [snd] in H1.
    rewrite (add_rejected _ _ _ _ Ha). cbn [fst snd].
    split; [by eexists|]. exact H1.
  - intros Hti Hi. rewrite Hti, (add_rejected _ _ _ _ Hi). cbn [fst snd].
    split; [by eexists | reflexivity].
Qed.

Lemma handleAuthentication_fails_without_rollback_witness :
  let parsed := inl {| parsed_idToken := sample_idToken;
                       parsed_accessToken := token_without_scopes |} in
  storage (tm (snd (handleAuthentication DEFAULT_OPTIONS parsed sample_sdk)))
    !! ID_TOKEN_STORAGE_KEY = Some sample_idToken
  /\ exists msg,
       fst (handleAuthentication DEFAULT_OPTIONS parsed sample_sdk)
       = Failed (AuthSdkError msg).
Proof.
  intros parsed.
  destruct (handleAuthentication_fails_without_rollback
              DEFAULT_OPTIONS sample_idToken token_without_scopes sample_sdk)
    as (H & _).
  destruct (H eq_refl eq_refl eq_refl) as (Hm & Hs).
  subst parsed. split; [|exact Hm]. rewrite Hs. apply lookup_insert_eq.
Defined.

Lemma signOut_storage_empty opts window options revoked closed s :
  storage (tm (snd (signOut opts window options revoked closed s))) = ∅.
Proof.
  rewrite signOut_eq. cbn zeta.
  match goal with
  | |- context [clear ?x] => set (s3 := clear x)
  end.
  assert (H3 : storage (tm s3) = ∅) by apply clear_storage.
  match goal with
  | |- context [fst ?rs] =>
      assert (H4 : storage (tm (snd rs)) = ∅)
        by (destruct (_ && truthy _); exact H3);
      destruct rs as [[v4|e4] s4]
  end; cbn [fst snd] in *; [|exact H4].
  destruct (negb (truthy _)); [|exact H4].
  rewrite closeSession_eq.
  destruct (match closed with
            | Fulfilled v => Fulfilled v
            | Failed e => if session_not_found e then Fulfilled VUndefined
                          else Failed e
            end); [|reflexivity].
  by destruct (String.eqb _ _).
Qed.

(** X17: after [signOut], whatever its options and its outcome,
    [getIdToken] and [getAccessToken] both return [undefined]. *)
Theorem getters_return_undefined_after_signOut
    opts window options revoked closed s :
  let s' := snd (signOut opts window options revoked closed s) in
  fst (getIdToken s') = VUndefined /\ fst (getAccessToken s') = VUndefined.
Proof.
  cbn zeta.
  rewrite getIdToken_value, getAccessToken_value, signOut_storage_empty,
    !lookup_empty. done.
Qed.


Lemma append_nonempty_r a b : b <> "" -> a +:+ b <> "".
Proof. destruct a; cbn; [done | discriminate]. Qed.

Lemma starts_with_slash_nonempty u : starts_with_slash u = true -> u <> "".
Proof. by destruct u. Qed.

Lemma or_else_some u d : u <> "" -> or_else (Some u) d = u.
Proof.
  intros H. unfold or_else. destruct (String.eqb_spec u ""); congruence.
Qed.

(** The redirect URI [signOut] works with when called through [logout]. *)
Lemma logout_redirect_uri opts window u :
  u <> "" ->
  or_else (opt_postLogoutRedirectUri (logout_options window (LogoutUri u)))
    (or_else (postLogoutRedirectUriOption opts) (location_origin window))
  = if starts_with_slash u then location_origin window +:+ u else u.
Proof.
  intros Hu. unfold logout_options.
  destruct (String.eqb_spec u ""); [congruence|].
  cbn [opt_postLogoutRedirectUri]. apply or_else_some.
  destruct (starts_with_slash u); [by apply append_nonempty_r | done].
Qed.

(** X18: [logout(uri)] with a non-empty string signs out with that string
    as the post-logout redirect URI, made absolute by prefixing the page's
    origin when it starts with a slash.  With an id token stored (carrying
    the raw string [hint]) a resolving [logout] therefore navigates once, to
    [logoutUrl?id_token_hint=enc(hint)&post_logout_redirect_uri=enc(target)]
    where [target] is that absolute URI; a configured default redirect URI
    is not used. *)
Theorem logout_with_uri_redirects_to_absolute_target
    opts window u revoked closed hint s :
  u <> "" ->
  let stored := default VUndefined (storage (tm s) !! ID_TOKEN_STORAGE_KEY) in
  let target := if starts_with_slash u then location_origin window +:+ u
                else u in
  let r := fst (logout opts window (LogoutUri u) revoked closed s) in
  let s' := snd (logout opts window (LogoutUri u) revoked closed s) in
  truthy stored = true ->
  get_prop stored "idToken" = VStr hint ->
  (exists v, r = Fulfilled v) ->
  navigations (trace s')
  = navigations (trace s)
    ++ [LocationAssign
          (logoutUrl opts +:+ "?id_token_hint=" +:+ encodeURIComponent hint
             +:+ "&post_logout_redirect_uri="
             +:+ encodeURIComponent target)].
Proof.
  intros Hu stored target r s' Hid Hhint [v Hr]. subst r s'.
  unfold logout in *. rewrite signOut_eq in *. cbn zeta in *.
  rewrite (logout_redirect_uri opts window u Hu) in *. fold target in Hr |- *.
  assert (Ho : logout_options window (LogoutUri u)
               = {| opt_postLogoutRedirectUri := Some target;
                    opt_accessToken := VUndefined;
                    opt_revokeAccessToken := None;
                    opt_idToken := VUndefined; opt_state := None |}).
  { unfold logout_options. by destruct (String.eqb_spec u ""). }
  rewrite Ho in *.
  cbn [opt_idToken opt_accessToken opt_revokeAccessToken opt_state
       is_undefined andb] in *.
  fold stored in Hr |- *. rewrite Hid in *. cbn [negb] in *.
  rewrite (logoutUri_eq _ _ _ _ _ Hhint) in *. cbn zeta in *.
  set (s3 := clear (logs ([GetStorage] ++ [GetStorage]) s)) in *.
  assert (H3 : navigations (trace s3) = navigations (trace s)).
  { subst s3. rewrite clear_navigations, logs_trace, navigations_app.
    apply app_nil_r. }
  destruct (truthy (default VUndefined
              (storage (tm s) !! ACCESS_TOKEN_STORAGE_KEY)));
    cbn [fst snd] in *.
  - destruct revoked as [v'|e]; [|discriminate Hr]. cbn [fst snd].
    rewrite !log_trace, !navigations_app, H3. cbn. by rewrite app_nil_r.
  - rewrite log_trace, navigations_app, H3. reflexivity.
Qed.

Lemma logout_with_uri_redirects_to_absolute_target_witness :
  navigations
    (trace (snd (logout sample_options sample_window (LogoutUri "/bye")
                        (Fulfilled VUndefined) (Fulfilled VUndefined)
                        signed_in_sdk)))
  = [LocationAssign
       "https://idp.example/oauth2/v1/logout?id_token_hint=raw%20id%2Ftoken&post_logout_redirect_uri=https%3A%2F%2Fapp.example%2Fbye"].
Proof.
  assert (Hu : "/bye" <> "") by discriminate.
  assert (Hid : truthy (default VUndefined
                          (storage (tm signed_in_sdk) !! ID_TOKEN_STORAGE_KEY))
                = true) by (vm_compute; reflexivity).
  assert (Hh : get_prop (default VUndefined
                           (storage (tm signed_in_sdk) !! ID_TOKEN_STORAGE_KEY))
                        "idToken" = VStr "raw id/token")
    by (vm_compute; reflexivity).
  refine (eq_trans
            (logout_with_uri_redirects_to_absolute_target
               sample_options sample_window "/bye" (Fulfilled VUndefined)
               (Fulfilled VUndefined) "raw id/token" signed_in_sdk
               Hu Hid Hh _) _).
  - exists VUndefined. vm_compute. reflexivity.
  - vm_compute. reflexivity.
Defined.

(** X19: [setFromUri] followed by [getFromUri()] gives back the URI that
    was set, made absolute when it starts with a slash, or the current
    page's URL when none (or the empty string) was passed; the read removes
    the entry, so a second [getFromUri()] returns the page's origin.
    [getFromUri(true)] hands the same absolute URI to the URL parser. *)
Theorem getFromUri_after_setFromUri
    window relative_part fromUri sessionStorage :
  location_href window <> "" ->
  let u := match fromUri with
           | Some x => if String.eqb x "" then location_href window else x
           | None => location_href window
           end in
  let absolute := if starts_with_slash u then location_origin window +:+ u
                  else u in
  let after_set := setFromUri window fromUri sessionStorage in
  getFromUri window relative_part false after_set
  = (Normal absolute, delete REFERRER_PATH_STORAGE_KEY sessionStorage)
  /\ getFromUri window relative_part true after_set
     = (relative_part absolute,
        delete REFERRER_PATH_STORAGE_KEY sessionStorage)
  /\ fst (getFromUri window relative_part false
            (snd (getFromUri window relative_part false after_set)))
     = Normal (location_origin window).
Proof.
  intros Hhref u absolute after_set.
  assert (Hu : or_else fromUri (location_href window) = u).
  { subst u. unfold or_else. by destruct fromUri. }
  assert (Hne : u <> "").
  { subst u. destruct fromUri as [x|]; [|done].
    by destruct (String.eqb_spec x ""). }
  assert (Habs : absolute <> "").
  { subst absolute. destruct (starts_with_slash u); [|done].
    by apply append_nonempty_r. }
  assert (Hset : after_set = <[REFERRER_PATH_STORAGE_KEY := absolute]>
                               sessionStorage).
  { subst after_set absolute. unfold setFromUri. by rewrite Hu. }
  rewrite Hset. unfold getFromUri.
  rewrite lookup_insert_eq, (or_else_some _ _ Habs), delete_insert_eq.
  cbn [negb fst snd]. rewrite lookup_delete_eq. done.
Qed.

Lemma getFromUri_after_setFromUri_witness :
  getFromUri sample_window (fun u => Normal u) false
    (setFromUri sample_window (Some "/settings") ∅)
  = (Normal "https://app.example/settings", ∅).
Proof.
  assert (Hh : location_href sample_window <> "") by discriminate.
  destruct (getFromUri_after_setFromUri sample_window (fun u => Normal u)
              (Some "/settings") ∅ Hh) as (H & _).
  refine (eq_trans H _). vm_compute. reflexivity.
Defined.

(** * The choice of the storage provider *)

(** X20: the constructor never settles on a web storage the browser lacks:
    if the provider chosen is [localStorage] the browser has it, and
    likewise for [sessionStorage].  A request for [localStorage] (also the
    default, when no storage option is given) falls back to
    [sessionStorage] and then to cookies, with one warning per step, and
    never to memory. *)
Theorem select_storage_falls_back_to_what_exists storage hasLocal hasSession :
  let r := select_storage storage hasLocal hasSession in
  (fst r = Normal BrowserLocalStorage -> hasLocal = true)
  /\ (fst r = Normal BrowserSessionStorage -> hasSession = true)
  /\ (storage = VUndefined \/ storage = VNull
      \/ storage = VStr "localStorage" ->
      fst r
      = Normal (if hasLocal then BrowserLocalStorage
                else if hasSession then BrowserSessionStorage
                else CookieStorage)
      /\ length (snd r)
         = ((if hasLocal then 0 else if hasSession then 1 else 2))%nat).
Proof.
  cbn zeta. split; [|split].
  - unfold select_storage.
    destruct storage as [| |b|n|name|items|fs]; cbn;
      repeat match goal with
             | |- context [String.eqb ?a ?b] =>
                 destruct (String.eqb_spec a b); subst; cbn
             end;
      destruct hasLocal, hasSession; cbn; intros; congruence.
  - unfold select_storage.
    destruct storage as [| |b|n|name|items|fs]; cbn;
      repeat match goal with
             | |- context [String.eqb ?a ?b] =>
                 destruct (String.eqb_spec a b); subst; cbn
             end;
      destruct hasLocal, hasSession; cbn; intros; congruence.
  - intros [-> | [-> | ->]]; destruct hasLocal, hasSession; by cbn.
Qed.

Lemma select_storage_falls_back_to_what_exists_witness :
  fst (select_storage VUndefined false false) = Normal CookieStorage
  /\ length (snd (select_storage VUndefined false false)) = 2%nat.
Proof.
  destruct (select_storage_falls_back_to_what_exists VUndefined false false)
    as (_ & _ & H).
  exact (H (or_introl eq_refl)).
Defined.

(** X21: the constructor fails, with the [AuthSdkError] "Unrecognized
    storage option", exactly when the storage option is a number, a boolean
    or a string other than the four names; an object is taken as the
    provider whatever the browser supports, without a warning; and the
    in-memory storage is chosen only when asked for by name. *)
Theorem select_storage_rejects_only_unknown_options
    storage hasLocal hasSession :
  let r := select_storage storage hasLocal hasSession in
  ((exists e, fst r = Throw e)
   <-> match storage with
       | VBool _ | VNum _ => True
       | VStr name =>
           name <> "localStorage" /\ name <> "sessionStorage"
           /\ name <> "cookie" /\ name <> "memory"
       | _ => False
       end)
  /\ (forall e, fst r = Throw e ->
                e = AuthSdkError "Unrecognized storage option")
  /\ (isObject storage = true -> r = (Normal (CustomStorage storage), []))
  /\ (fst r = Normal InMemoryStorage <-> storage = VStr "memory").
Proof.
  cbn zeta. unfold select_storage.
  destruct storage as [| |b|n|name|items|fs]; cbn;
    repeat match goal with
           | |- context [String.eqb ?a ?b] =>
               destruct (String.eqb_spec a b); subst; cbn
           end;
    destruct hasLocal, hasSession; cbn;
    (split; [split; [intros [e He]; try discriminate He; try done
                    | intros H;
                      first [ solve [exfalso; intuition congruence]
                            | by eexists ]]
            |split; [intros e He; try discriminate He; congruence
                    |split; [intros H; try discriminate H; reflexivity
                            |split; intros H; congruence]]]).
Qed.

Lemma select_storage_rejects_only_unknown_options_witness :
  fst (select_storage (VStr "indexedDB") true true)
  = Throw (AuthSdkError "Unrecognized storage option")
  /\ select_storage sample_idToken false false
     = (Normal (CustomStorage sample_idToken), []).
Proof.
  destruct (select_storage_rejects_only_unknown_options
              (VStr "indexedDB") true true) as (H1 & H2 & _).
  destruct (select_storage_rejects_only_unknown_options
              sample_idToken false false) as (_ & _ & H3 & _).
  split; [|exact (H3 eq_refl)].
  destruct H1 as [_ H1]. destruct H1 as [e He].
  - repeat split; discriminate.
  - rewrite He. f_equal. by apply H2.
Defined.

(** * The published snapshot *)









(** * The recomputation as the program runs it *)

Lemma updateAuthState_stalled s :
  stalled (asm s) -> stalled (asm (updateAuthState s)).
Proof.
  assert (Hstart : forall x,
            stalled (asm x) -> stalled (asm (start_recompute x))).
  { intros x [Ha Hs]. rewrite start_recompute_asm. cbn zeta.
    split; [exact Ha|]. intros p rc. cbn. rewrite lookup_insert.
    case_decide; [by intros [= <-] | apply Hs]. }
  intros H. unfold updateAuthState.
  destruct (updateAuthStatePromise (asm s)) as [p|]; [|by apply Hstart].
  destruct (MAX_PROMISE_CANCEL_TIMES <=? canceledTimes (asm s))%nat;
    [exact H|].
  apply Hstart. unfold cancel.
  destruct (recomputes (asm s) !! p) as [rc0|] eqn:Hp; [|exact H].
  destruct (is_done (rc_stage rc0) || rc_isCanceled rc0); [exact H|].
  destruct H as [Ha Hs]. split; [exact Ha|]. cbn. intros q rc.
  rewrite lookup_insert.
  case_decide; [intros [= <-]; cbn; by apply (Hs p) | apply Hs].
Qed.

(** The callbacks of lines 85-117 find no recomputation to act on. *)
Lemma onTokens_stalled opts p s : stalled (asm s) -> onTokens opts p s = s.
Proof.
  intros [_ Hs]. unfold onTokens.
  destruct (recomputes (asm s) !! p) as [rc|] eqn:Hp; [|done].
  by rewrite (Hs p rc Hp).
Qed.

Lemma onAuth_stalled p resolved s :
  stalled (asm s) -> onAuth p resolved s = s.
Proof.
  intros [_ Hs]. unfold onAuth.
  destruct (recomputes (asm s) !! p) as [rc|] eqn:Hp; [|done].
  by rewrite (Hs p rc Hp).
Qed.

Lemma run_turn_stalled opts t s :
  stalled (asm s) -> stalled (asm (run_turn opts t s)).
Proof.
  apply (run_turn_preserves opts stalled).
  - apply updateAuthState_stalled.
  - intros p x H. by rewrite onTokens_stalled.
  - intros p r x H. by rewrite onAuth_stalled.
Qed.

Lemma reachable_stalled opts s : reachable opts s -> stalled (asm s).
Proof.
  intros (persisted & now & read_failure & ts & s0 & Hc & ->).
  apply run_preserves.
  - apply updateAuthState_stalled.
  - intros p x H. by rewrite onTokens_stalled.
  - intros p r x H. by rewrite onAuth_stalled.
  - rewrite (construct_asm _ _ _ _ _ Hc). split; [reflexivity|].
    intros p rc. cbn. by rewrite lookup_empty.
Qed.

(** ** What a turn appends to the trace *)

Section TracePreservation.
Variable opts : Options.
Variable T : list effect -> Prop.
Hypothesis T_quiet :
  forall tr e,
    match e with Emit (AuthStateChange _) => False | _ => True end ->
    T tr -> T (tr ++ [e]).

Lemma emit_traces e s :
  match e with AuthStateChange _ => False | _ => True end ->
  T (trace s) -> T (trace (emit e s)).
Proof.
  intros He H. rewrite emit_trace. apply T_quiet; [by destruct e | exact H].
Qed.

Lemma add_traces key token s :
  T (trace s) -> T (trace (snd (add opts key token s))).
Proof.
  intros H. destruct (malformed token) eqn:Hm.
  - rewrite (add_rejected _ _ _ _ Hm). cbn. by apply T_quiet.
  - rewrite (add_accepted _ _ _ _ Hm). cbn [snd].
    rewrite setExpireEventTimeout_trace. cbn.
    apply T_quiet; [done|]. by apply T_quiet.
Qed.

Lemma remove_traces key s : T (trace s) -> T (trace (remove key s)).
Proof.
  intros H. unfold remove, emitRemoved. rewrite getStorage_eq.
  apply emit_traces; [done|]. cbn. rewrite clearExpireEventTimeout_trace.
  apply T_quiet; [done|]. by apply T_quiet.
Qed.

Lemma renew_traces key s : T (trace s) -> T (trace (snd (renew key s))).
Proof.
  intros H. unfold renew.
  destruct (renewPromise (tm s) !! key); [exact H|].
  destruct (inherited key); [exact H|].
  rewrite get_eq. cbn zeta.
  destruct (negb (truthy (default VUndefined (storage (tm s) !! key)))).
  - cbn. by apply T_quiet.
  - cbn. rewrite clearExpireEventTimeout_trace. cbn.
    apply T_quiet; [done|]. by apply T_quiet.
Qed.

Lemma clear_traces s : T (trace s) -> T (trace (clear s)).
Proof. intros H. rewrite clear_trace. by apply T_quiet. Qed.

Lemma renew_chain_traces key token provider s :
  T (trace s) -> T (trace (snd (renew_chain opts key token provider s))).
Proof.
  intros H. unfold renew_chain.
  assert (H1 : T (trace (snd (match provider with
                               | Fulfilled freshToken =>
                                   renew_then opts key freshToken s
                               | Failed err => (Failed err, s)
                               end)))).
  { destruct provider as [fresh|err]; [|exact H].
    unfold renew_then. rewrite get_eq. cbn zeta.
    assert (Hg : T (trace (log GetStorage s))) by (by apply T_quiet).
    destruct (negb (truthy (default VUndefined (storage (tm s) !! key))));
      [exact Hg|].
    pose proof (add_traces key fresh (log GetStorage s) Hg) as Ha.
    destruct (add opts key fresh (log GetStorage s)) as [[u|e] s2];
      cbn [snd] in *; [|exact Ha].
    by apply emit_traces. }
  destruct (match provider with
            | Fulfilled freshToken => renew_then opts key freshToken s
            | Failed err => (Failed err, s)
            end) as [o1 s1]. cbn [snd] in H1.
  assert (H2 : T (trace (snd (match o1 with
                               | Fulfilled v => (Fulfilled v, s1)
                               | Failed err => renew_catch key token err s1
                               end)))).
  { destruct o1 as [v|err]; [exact H1|].
    unfold renew_catch. destruct (removes_token err); [|exact H1].
    cbn [snd]. unfold emitError. apply emit_traces; [done|].
    by apply remove_traces. }
  destruct (match o1 with
            | Fulfilled v => (Fulfilled v, s1)
            | Failed err => renew_catch key token err s1
            end) as [o2 s2]. exact H2.
Qed.

Lemma onRenewSettled_traces p provider s :
  T (trace s) -> T (trace (onRenewSettled opts p provider s)).
Proof.
  intros H. unfold onRenewSettled.
  destruct (renewals (tm s) !! p) as [r|]; [|exact H].
  pose proof (renew_chain_traces (renewal_key r) (renewal_token r)
                                 provider s H) as Hc.
  by destruct (renew_chain opts (renewal_key r) (renewal_token r) provider s).
Qed.

Lemma fire_traces h s : T (trace s) -> T (trace (fire opts h s)).
Proof.
  intros H. unfold fire. destruct (timers (tm s) !! h) as [t|]; [|exact H].
  unfold emitExpired, onTokenExpiredHandler.
  assert (Hx : T (trace (emit (Expired (timer_key t) (timer_token t))
                              (on_tm (fun m =>
                                        set_timers (delete h (timers m)) m)
                                     s))))
    by (by apply emit_traces).
  destruct (autoRenew opts); [by apply renew_traces | by apply remove_traces].
Qed.

Lemma closeSession_traces closed s :
  T (trace s) -> T (trace (snd (closeSession closed s))).
Proof.
  intros H. rewrite closeSession_eq. cbn.
  apply T_quiet; [done|]. by apply clear_traces.
Qed.

Lemma revokeAccessToken_traces accessToken revoked s :
  T (trace s) -> T (trace (snd (revokeAccessToken accessToken revoked s))).
Proof.
  intros H. unfold revokeAccessToken.
  destruct (negb (truthy accessToken)).
  - rewrite get_eq.
    assert (T (trace (remove ACCESS_TOKEN_STORAGE_KEY (log GetStorage s))))
      as Hr by (apply remove_traces; by apply T_quiet).
    destruct (negb (truthy (default VUndefined
                (storage (tm s) !! ACCESS_TOKEN_STORAGE_KEY)))); [exact Hr|].
    cbn. by apply T_quiet.
  - destruct (negb (truthy accessToken)); [exact H|].
    cbn. by apply T_quiet.
Qed.

Lemma signOut_traces window options revoked closed s :
  T (trace s) ->
  T (trace (snd (signOut opts window options revoked closed s))).
Proof.
  intros H. unfold signOut.
  set (revoke := match opt_revokeAccessToken options with
                 | Some false => false
                 | _ => true
                 end).
  set (uri := or_else _ _).
  assert (Hget : forall k x, T (trace x) -> T (trace (snd (get k x))))
    by (intros k x Hx; rewrite get_eq; by apply T_quiet).
  destruct (if is_undefined (opt_idToken options)
            then get ID_TOKEN_STORAGE_KEY s
            else (opt_idToken options, s)) as [idToken s1] eqn:E1.
  assert (H1 : T (trace s1)).
  { destruct (is_undefined (opt_idToken options)).
    - pose proof (Hget ID_TOKEN_STORAGE_KEY s H) as Hg.
      by rewrite E1 in Hg.
    - injection E1 as _ <-. exact H. }
  destruct (if revoke && is_undefined (opt_accessToken options)
            then get ACCESS_TOKEN_STORAGE_KEY s1
            else (opt_accessToken options, s1)) as [accessToken s2] eqn:E2.
  assert (H2 : T (trace s2)).
  { destruct (revoke && is_undefined (opt_accessToken options)).
    - pose proof (Hget ACCESS_TOKEN_STORAGE_KEY s1 H1) as Hg.
      by rewrite E2 in Hg.
    - injection E2 as _ <-. exact H1. }
  assert (H3 : T (trace (clear s2))) by (by apply clear_traces).
  destruct (if revoke && truthy accessToken
            then revokeAccessToken accessToken revoked (clear s2)
            else (Fulfilled VUndefined, clear s2)) as [r s4] eqn:E4.
  assert (H4 : T (trace s4)).
  { destruct (revoke && truthy accessToken).
    - pose proof (revokeAccessToken_traces accessToken revoked _ H3) as Hr.
      rewrite E4 in Hr. exact Hr.
    - injection E4 as _ <-. exact H3. }
  destruct r as [v|e]; [|exact H4].
  destruct (negb (truthy idToken)); [|cbn; by apply T_quiet].
  pose proof (closeSession_traces closed s4 H4) as H5.
  destruct (closeSession closed s4) as [[v'|e'] s5]; [|exact H5].
  destruct (String.eqb uri (location_href window)); cbn; by apply T_quiet.
Qed.

Lemma run_turn_traces t s :
  stalled (asm s) -> T (trace s) -> T (trace (run_turn opts t s)).
Proof.
  intros Hs H. destruct t; cbn [run_turn].
  - by apply add_traces.
  - by apply remove_traces.
  - by apply renew_traces.
  - by apply clear_traces.
  - by rewrite updateAuthState_trace.
  - by apply closeSession_traces.
  - by apply revokeAccessToken_traces.
  - by apply signOut_traces.
  - by apply onRenewSettled_traces.
  - by rewrite onTokens_stalled.
  - by rewrite onAuth_stalled.
  - by apply fire_traces.
  - exact H.
Qed.

Lemma run_traces ts s :
  stalled (asm s) -> T (trace s) -> T (trace (run opts ts s)).
Proof.
  revert s. induction ts as [|t ts IH]; intros s Hs H; [exact H|].
  cbn. apply IH; [by apply run_turn_stalled | by apply run_turn_traces].
Qed.
End TracePreservation.

Lemma published_app a b : published (a ++ b) = published a ++ published b.
Proof. apply omap_app. Qed.

Lemma construct_trace opts persisted now read_failure s :
  construct opts persisted now read_failure = Normal s ->
  published (trace s) = [].
Proof.
  destruct read_failure as [e|].
  - rewrite construct_unreadable. intros [= <-].
    unfold emitError. by rewrite emit_trace.
  - intros Hc.
    by destruct (construct_facts _ _ _ _ Hc) as (_ & _ & -> & _).
Qed.

(** C3: no auth-state recomputation ever completes.  In every state the SDK
    can reach, whatever tokens are stored: [updateAuthState] reads no token
    and makes no call at all, the recomputation it registers (as every other
    one) has stopped at the call of line 84, and the two callbacks, which
    would demote expired tokens, compute [isAuthenticated] and publish the
    snapshot, have nothing to act on; the auth state is still the object the
    constructor made, with [isPending = true], and no [authStateChange]
    event was ever emitted. *)
Theorem updateAuthState_never_publishes opts s :
  reachable opts s ->
  let s' := updateAuthState s in
  tm s' = tm s
  /\ trace s' = trace s
  /\ authState (asm s') = authState (asm s)
  /\ (forall p rc, recomputes (asm s') !! p = Some rc -> rc_stage rc = Threw)
  /\ (forall p resolved, onTokens opts p s = s /\ onAuth p resolved s = s)
  /\ authState (asm s) = {| ref := 0; fields_of := DEFAULT_AUTH_STATE |}
  /\ published (trace s) = [].
Proof.
  intros Hr. pose proof (reachable_stalled _ _ Hr) as Hs. cbn zeta.
  destruct (updateAuthState_stalled s Hs) as [Ha' Hs'].
  split; [apply updateAuthState_tm|].
  split; [apply updateAuthState_trace|].
  split; [destruct Hs as [Ha _]; by rewrite Ha, Ha'|].
  split; [exact Hs'|].
  split; [intros p resolved; by rewrite onTokens_stalled, onAuth_stalled|].
  split; [by destruct Hs|].
  destruct Hr as (persisted & now & read_failure & ts & s0 & Hc & ->).
  apply (run_traces opts (fun tr => published tr = [])).
  - intros tr e He H. rewrite published_app, H.
    destruct e as [| | | | | | | | |ev]; try reflexivity.
    destruct ev; try reflexivity. contradiction.
  - rewrite (construct_asm _ _ _ _ _ Hc). split; [reflexivity|].
    intros p rc. cbn. by rewrite lookup_empty.
  - by apply (construct_trace _ _ _ _ _ Hc).
Qed.

Lemma updateAuthState_never_publishes_witness :
  let s := run DEFAULT_OPTIONS
               [CallAdd ID_TOKEN_STORAGE_KEY sample_idToken;
                CallAdd ACCESS_TOKEN_STORAGE_KEY sample_accessToken;
                CallUpdateAuthState; TokensRead 0; AuthResolved 0 true]
               sample_sdk in
  truthy (fst (get ID_TOKEN_STORAGE_KEY s)) = true
  /\ truthy (fst (get ACCESS_TOKEN_STORAGE_KEY s)) = true
  /\ fields_of (authState (asm s)) = DEFAULT_AUTH_STATE
  /\ published (trace s) = [].
Proof.
  intros s.
  assert (Hr : reachable DEFAULT_OPTIONS s)
    by (exists ∅, 100, None; do 2 eexists; split; reflexivity).
  destruct (updateAuthState_never_publishes DEFAULT_OPTIONS s Hr)
    as (_ & _ & _ & _ & _ & Ha & Hp).
  split; [reflexivity|]. split; [reflexivity|].
  split; [by rewrite Ha | exact Hp].
Defined.

(** * Bursts of updateAuthState calls *)

Lemma updateAuthState_step s p :
  asm_inv (asm s) ->
  updateAuthStatePromise (asm s) = Some p ->
  (canceledTimes (asm s) < MAX_PROMISE_CANCEL_TIMES)%nat ->
  asm_inv (asm (updateAuthState s))
  /\ updateAuthStatePromise (asm (updateAuthState s))
     = Some (next_recompute (asm s))
  /\ canceledTimes (asm (updateAuthState s)) = S (canceledTimes (asm s))
  /\ next_recompute (asm (updateAuthState s)) = S (next_recompute (asm s)).
Proof.
  intros Hi Hp Hlt. split; [by apply updateAuthState_inv|].
  destruct Hi as (_ & _ & H3). destruct (H3 p Hp) as (st & Hrc & Hd).
  by rewrite (updateAuthState_supersedes _ _ _ Hp Hrc Hd Hlt).
Qed.

Lemma updateAuthState_iter j s p :
  asm_inv (asm s) ->
  updateAuthStatePromise (asm s) = Some p ->
  (canceledTimes (asm s) + j <= MAX_PROMISE_CANCEL_TIMES)%nat ->
  let s' := Nat.iter j updateAuthState s in
  asm_inv (asm s')
  /\ (exists q, updateAuthStatePromise (asm s') = Some q)
  /\ canceledTimes (asm s') = (canceledTimes (asm s) + j)%nat
  /\ next_recompute (asm s') = (next_recompute (asm s) + j)%nat.
Proof.
  intros Hi Hp. induction j as [|j IH]; intros Hle; cbn zeta.
  - cbn. split; [done|]. split; [by exists p|]. split; lia.
  - change (Nat.iter (S j) updateAuthState s)
      with (updateAuthState (Nat.iter j updateAuthState s)).
    destruct IH as (IH1 & [q IH2] & IH3 & IH4); [lia|].
    destruct (updateAuthState_step _ q IH1 IH2) as (H1 & H2 & H3 & H4);
      [rewrite IH3; lia|].
    split; [exact H1|]. split; [by eexists|].
    split; [rewrite H3, IH3; lia | rewrite H4, IH4; lia].
Qed.

Lemma updateAuthState_dropped m s p :
  updateAuthStatePromise (asm s) = Some p ->
  (MAX_PROMISE_CANCEL_TIMES <= canceledTimes (asm s))%nat ->
  Nat.iter m updateAuthState s = s.
Proof.
  intros Hp Hle.
  assert (Hu : updateAuthState s = s).
  { unfold updateAuthState. rewrite Hp.
    by destruct (Nat.leb_spec MAX_PROMISE_CANCEL_TIMES (canceledTimes (asm s)));
      [|lia]. }
  induction m as [|m IH]; [reflexivity|].
  change (Nat.iter (S m) updateAuthState s)
    with (updateAuthState (Nat.iter m updateAuthState s)).
  by rewrite IH.
Qed.

(** X23: a burst of [updateAuthState] calls is cut off at the ceiling.
    In a reachable state with a recomputation in flight and the counter at
    [c], the next [10 - c] calls each cancel the one in flight and start
    another; after that the counter is 10 and every further call of the
    burst changes nothing at all.  So however many calls arrive before a
    recomputation completes, at most [10 - c] more recomputations are
    started. *)
Theorem updateAuthState_burst_is_cut_off opts s p m :
  reachable opts s ->
  updateAuthStatePromise (asm s) = Some p ->
  let c := canceledTimes (asm s) in
  let burst n := Nat.iter n updateAuthState s in
  burst (m + (MAX_PROMISE_CANCEL_TIMES - c))%nat
  = burst (MAX_PROMISE_CANCEL_TIMES - c)%nat
  /\ canceledTimes (asm (burst (MAX_PROMISE_CANCEL_TIMES - c)%nat))
     = MAX_PROMISE_CANCEL_TIMES
  /\ next_recompute (asm (burst (m + (MAX_PROMISE_CANCEL_TIMES - c))%nat))
     = (next_recompute (asm s) + (MAX_PROMISE_CANCEL_TIMES - c))%nat.
Proof.
  intros Hr Hp c burst. subst burst. cbn beta.
  pose proof (reachable_inv _ _ Hr) as Hi.
  assert (Hc : (c <= MAX_PROMISE_CANCEL_TIMES)%nat) by (by destruct Hi).
  destruct (updateAuthState_iter (MAX_PROMISE_CANCEL_TIMES - c) s p Hi Hp)
    as (_ & [q Hq] & Hcount & Hnext); [fold c; lia|].
  fold c in Hcount.
  assert (Hdrop : Nat.iter (m + (MAX_PROMISE_CANCEL_TIMES - c)) updateAuthState s
                  = Nat.iter (MAX_PROMISE_CANCEL_TIMES - c) updateAuthState s).
  { rewrite Nat.iter_add. apply (updateAuthState_dropped m _ q Hq). lia. }
  split; [exact Hdrop|]. split; [lia|]. by rewrite Hdrop.
Qed.

Lemma updateAuthState_burst_is_cut_off_witness :
  let s := run DEFAULT_OPTIONS [CallUpdateAuthState] sample_sdk in
  Nat.iter 25 updateAuthState s = Nat.iter 10 updateAuthState s
  /\ next_recompute (asm (Nat.iter 25 updateAuthState s)) = 11%nat.
Proof.
  intros s.
  assert (Hr : reachable DEFAULT_OPTIONS s)
    by (exists ∅, 100, None; do 2 eexists; split; reflexivity).
  destruct (updateAuthState_burst_is_cut_off DEFAULT_OPTIONS s 0 15 Hr eq_refl)
    as (H1 & _ & H3).
  split; [exact H1 | exact H3].
Defined.

(** * clear() while a renewal is outstanding *)

Lemma reachable_cache_inv opts s : reachable opts s -> cache_inv (tm s).
Proof.
  intros (persisted & now & read_failure & ts & s0 & Hc & ->).
  apply run_keeps.
  - intros key token x H. destruct (malformed token) eqn:Hm.
    + by rewrite (add_rejected _ _ _ _ Hm).
    + rewrite (add_accepted _ _ _ _ Hm). cbn [snd]. intros k.
      rewrite setExpireEventTimeout_renewPromise.
      destruct (setExpireEventTimeout_fields opts key token
                  (setStorage (<[key := token]> (storage (tm x)))
                              (log GetStorage x))) as (_ & -> & _).
      cbn. rewrite lookup_delete_is_Some. intros [Hne Hk]. unfold assign.
      destruct (String.eqb key "__proto__");
        rewrite ?lookup_insert_ne, lookup_delete_ne by done; by apply H.
  - intros key x H k.
    destruct (remove_tm_fields key x) as (_ & -> & -> & _).
    rewrite lookup_delete_is_Some. intros [Hne Hk].
    rewrite lookup_delete_ne by done. by apply H.
  - intros key x H. unfold renew.
    destruct (renewPromise (tm x) !! key) eqn:Hk; [exact H|].
    destruct (inherited key); [exact H|].
    rewrite get_eq. cbn zeta.
    destruct (negb (truthy (default VUndefined (storage (tm x) !! key)))).
    + exact H.
    + intros k. cbn.
      rewrite clearExpireEventTimeout_renewPromise,
        clearExpireEventTimeout_expireTimeouts.
      destruct (decide (k = key)) as [->|Hne].
      * intros _. apply lookup_delete_eq.
      * rewrite lookup_insert_ne, !lookup_delete_ne by done. apply H.
  - intros x H k _.
    destruct (clear_fields x) as (_ & -> & _). apply lookup_empty.
  - intros h t H. exact H.
  - intros d t H. exact H.
  - intros t t' _ E _ _ _ Hsub H k Hk. rewrite E. apply H. by apply Hsub.
  - destruct (construct_inv _ _ _ _ _ Hc) as (_ & _ & Hrp).
    intros k. rewrite Hrp, lookup_empty. by intros [? [=]].
Qed.

Lemma clear_renewPromise s :
  cache_inv (tm s) -> renewPromise (tm (clear s)) = renewPromise (tm s).
Proof.
  intros H. unfold clear, clearStorage, clearExpireEventTimeoutAll. cbn.
  destruct (clearExpireEventTimeout_fold
              (List.map fst (map_to_list (expireTimeouts (tm s)))) s)
    as (_ & _ & _ & _ & _ & -> & _).
  apply map_eq. intros k. rewrite foldr_delete_lookup.
  case_decide as Hin; [|done].
  apply list_elem_of_fmap in Hin as [[k' h] [Heq Hin]]. cbn in Heq. subst k'.
  apply elem_of_map_to_list in Hin.
  destruct (renewPromise (tm s) !! k) as [p|] eqn:Hk; [|done].
  rewrite (H k) in Hin; [discriminate | by eexists].
Qed.

(** X24: [clear()] does not touch the renewal cache of a reachable state:
    a renewal that is outstanding stays cached, so a [renew(key)] right
    after [clear()] returns the same promise without calling the provider
    although the store is empty.  When that renewal then succeeds, the
    fresh token is discarded: the store stays empty, no event is emitted and
    the promise resolves with [undefined]. *)
Theorem clear_keeps_outstanding_renewals opts s :
  reachable opts s ->
  renewPromise (tm (clear s)) = renewPromise (tm s)
  /\ (forall key p,
        renewPromise (tm s) !! key = Some p ->
        renew key (clear s) = (Promise p, clear s))
  /\ (forall p r fresh,
        renewals (tm s) !! p = Some r ->
        let s2 := onRenewSettled opts p (Fulfilled fresh) (clear s) in
        storage (tm s2) = ∅
        /\ emitted (trace s2) = emitted (trace (clear s))
        /\ promises_settled (tm s2) !! p = Some (Fulfilled VUndefined)).
Proof.
  intros Hr. pose proof (reachable_cache_inv _ _ Hr) as Hc.
  pose proof (clear_renewPromise s Hc) as Hrp.
  split; [exact Hrp|]. split.
  - intros key p Hp. apply renew_cached. by rewrite Hrp.
  - intros p r fresh Hp. cbn zeta.
    destruct (clear_fields s) as (Hst & _ & _ & _ & Hrn & _).
    assert (Hp' : renewals (tm (clear s)) !! p = Some r) by (by rewrite Hrn).
    rewrite (onRenewSettled_eq _ _ _ _ _ Hp').
    unfold renew_chain, renew_then. rewrite get_eq. cbn zeta.
    rewrite Hst, lookup_empty. cbn.
    split; [exact Hst|]. split; [by rewrite emitted_quiet by exact I|].
    apply lookup_insert_eq.
Qed.

Lemma clear_keeps_outstanding_renewals_witness :
  let s := run DEFAULT_OPTIONS [CallAdd "k" sample_accessToken; CallRenew "k"]
               sample_sdk in
  renew "k" (clear s) = (Promise 1, clear s)
  /\ storage (tm (onRenewSettled DEFAULT_OPTIONS 1 (Fulfilled sample_idToken)
                                 (clear s))) = ∅.
Proof.
  intros s.
  assert (Hr : reachable DEFAULT_OPTIONS s)
    by (exists ∅, 100, None; do 2 eexists; split; reflexivity).
  destruct (clear_keeps_outstanding_renewals DEFAULT_OPTIONS s Hr)
    as (_ & H1 & H2).
  split.
  - apply H1. vm_compute. reflexivity.
  - destruct (H2 1%nat {| renewal_key := "k";
                          renewal_token := sample_accessToken |}
                 sample_idToken) as (Hs & _); [vm_compute; reflexivity|].
    exact Hs.
Defined.
